(** * typeDecoratorJs: the type-descriptor engine of [src/Type.js]

    A shallow embedding of the runtime type checker: descriptors ([Type] and
    its subclasses), their validity check, the memoising factories
    ([type], [oneOf], [arrayOf], [tupleOf], [recordOf], [_null], [func]),
    the [set] handlers installed by [editValue], the call wrapper of
    [TypedFunction] and the accessor of the [typed] decorator.

    Conventions of the embedding.
    - A descriptor is immutable once constructed (all its fields are private
      and never reassigned), so it is represented by its contents together
      with the identity it received when it was allocated; [===] on
      descriptors is equality of identities ([same_ty]).
    - The static maps [#known] of the classes are the fields of [registry];
      a factory is a function from the registries to the registries and a
      result.
    - An object given as a hint carries its address: two literals that look
      alike are two objects, and [Map] compares them by address.
    - A JavaScript number is an integer, a finite number that is not
      integral, an infinity or [NaN].  The numbers [0] and [-0] are one
      number: the library compares numbers with [===] and with the
      [SameValueZero] of [Map], which do not tell them apart.
    - Property keys are array indices ([PIdx i], the canonical numeric
      string of [i], below [2^32 - 1]), other strings, or symbols.  String
      keys are assumed not to name a member inherited from
      [Object.prototype] or [Array.prototype]; the own property [length] of
      arrays is the key [PName "length"].  Objects are ordinary: extensible,
      with writable data properties, enumerable or not.  An object has the
      [toString] of [Object.prototype], which no class redefines, unless it
      was created without prototype.
    - An exception is a value of [error]; every operation that can throw
      returns a [result].  What [console.error] prints is not modelled,
      except that building the message can throw: a symbol, an object
      without prototype and the descriptor of such an object cannot be
      converted to a string. *)

From Stdlib Require Import List String ZArith Bool Arith PeanoNat Lia.
Import ListNotations.
Local Open Scope string_scope.
Set Warnings "-register-all".
Local Open Scope list_scope.

(* ================================================================== *)
(** ** Keys, primitives and descriptors *)

Definition loc := nat.

Inductive pkey :=
| PIdx (i : nat)
| PName (s : string)
| PSym (n : nat).

Definition pkey_eqb (a b : pkey) : bool :=
  match a, b with
  | PIdx i, PIdx j => Nat.eqb i j
  | PName s, PName t => String.eqb s t
  | PSym n, PSym m => Nat.eqb n m
  | _, _ => false
  end.

(** Primitive values.  A number is integral ([PrNum n]), finite and not
    integral ([PrFrac m e], the number [(2m+1) / 2^e]), infinite or [NaN]. *)
Inductive prim :=
| PrBool (b : bool)
| PrNum (n : Z)
| PrStr (s : string)
| PrSym (n : nat)
| PrFrac (m : Z) (e : positive)
| PrInf (negative : bool)
| PrNaN.

(** [===] on two primitives: [NaN] is not equal to itself. *)
Definition prim_eqb (a b : prim) : bool :=
  match a, b with
  | PrBool x, PrBool y => Bool.eqb x y
  | PrNum x, PrNum y => Z.eqb x y
  | PrStr x, PrStr y => String.eqb x y
  | PrSym x, PrSym y => Nat.eqb x y
  | PrFrac m e, PrFrac m' e' => Z.eqb m m' && Pos.eqb e e'
  | PrInf x, PrInf y => Bool.eqb x y
  | _, _ => false
  end.

(** The comparison of the keys of a [Map]: [===], except that [NaN] is the
    same key as [NaN]. *)
Definition SameValueZero (a b : prim) : bool :=
  match a, b with
  | PrNaN, PrNaN => true
  | _, _ => prim_eqb a b
  end.

(** [Math.round(x)] for a number: the nearest integral number, a half
    going up; an integral number, an infinite one and [NaN] are returned as
    they are. *)
Definition Math_round (x : prim) : prim :=
  match x with
  | PrFrac m e => PrNum ((2 * m + 1 + 2 ^ (Z.pos e - 1)) / 2 ^ Z.pos e)
  | _ => x
  end.

(** The static singletons of [Type], and the exported [int]. *)
Inductive base :=
| BNull | BUndefined | BBoolean | BNumber | BString
| BObject | BArray | BSymbol | BFunction | BInt.

Definition base_eqb (a b : base) : bool :=
  match a, b with
  | BNull, BNull | BUndefined, BUndefined | BBoolean, BBoolean
  | BNumber, BNumber | BString, BString | BObject, BObject
  | BArray, BArray | BSymbol, BSymbol | BFunction, BFunction
  | BInt, BInt => true
  | _, _ => false
  end.

(** A function given as a hint that is not one of the built-in markers:
    a class (it has a [prototype]) or an arrow function (it has none). *)
Inductive ctor :=
| CClass (c : nat)
| CArrow (l : loc).

Definition ctor_eqb (a b : ctor) : bool :=
  match a, b with
  | CClass x, CClass y => Nat.eqb x y
  | CArrow x, CArrow y => Nat.eqb x y
  | _, _ => false
  end.

(** The prototype of an object. *)
Inductive proto :=
| ProtoObject                      (* a plain object *)
| ProtoNull                        (* Object.create(null) *)
| ProtoBoolean | ProtoNumber | ProtoString   (* new Boolean(..), ... *)
| ProtoClass (chain : list nat).   (* instance of the classes in [chain] *)

(** Descriptors.  [id] is the identity of the allocated object.  The
    object of an [Instance] is known by its address and its prototype. *)
Inductive ty :=
| Base (b : base)
| InstanceOf (id : nat) (c : ctor)
| Primitive (id : nat) (value : prim)
| Instance (id : nat) (value : loc) (p : proto)
| OneOf (id : nat) (subTypes : list ty)
| ArrayOf (id : nat) (type : ty)
| TupleOf (id : nat) (types : list ty)
| RecordOf (id : nat) (types : list (pkey * ty))
| Nullable (id : nat) (type : ty)
| TypedFunction (id : nat) (overloads : list (list ty * ty)).

Inductive ref := RBase (b : base) | RId (n : nat).

Definition ty_ref (t : ty) : ref :=
  match t with
  | Base b => RBase b
  | InstanceOf id _ | Primitive id _ | Instance id _ _ | OneOf id _
  | ArrayOf id _ | TupleOf id _ | RecordOf id _ | Nullable id _
  | TypedFunction id _ => RId id
  end.

Definition ref_eqb (a b : ref) : bool :=
  match a, b with
  | RBase x, RBase y => base_eqb x y
  | RId x, RId y => Nat.eqb x y
  | _, _ => false
  end.

(** [t1 === t2] *)
Definition same_ty (t1 t2 : ty) : bool := ref_eqb (ty_ref t1) (ty_ref t2).

(* ================================================================== *)
(** ** Values *)

(** [VArr elems named]: the elements ([None] is a hole) and the non-index
    own properties.  [VObj id p props hidden]: [id] is [Some l] when the
    object is the one at address [l] that a hint can refer to, [None] for an
    object no descriptor refers to; [hidden] lists the keys of [props] that
    are not enumerable.  [VProxy t target] is [new Proxy(target, h)]
    where [h] is the handler built by [t.editValue]; [VTyped t target] is
    the function returned by [TypedFunction.editValue]. *)
Inductive val :=
| VUndefined
| VNull
| VPrim (p : prim)
| VFun (id : loc) (props : list (pkey * val))
| VArr (elems : list (option val)) (named : list (pkey * val))
| VObj (id : option loc) (p : proto) (props : list (pkey * val)) (hidden : list pkey)
| VProxy (handler : ty) (target : val)
| VTyped (t : ty) (target : val) (props : list (pkey * val)).

Definition VBool (b : bool) := VPrim (PrBool b).
Definition VNum (n : Z) := VPrim (PrNum n).
Definition VStr (s : string) := VPrim (PrStr s).
Definition VSym (n : nat) := VPrim (PrSym n).
Definition js_array (l : list val) : val := VArr (map Some l) [].
Definition js_object (props : list (pkey * val)) : val :=
  VObj None ProtoObject props [].

Inductive jstype :=
| TyUndefined | TyObject | TyBoolean | TyNumber | TyString | TySymbol | TyFunction.

Fixpoint typeof (v : val) : jstype :=
  match v with
  | VUndefined => TyUndefined
  | VNull => TyObject
  | VPrim (PrBool _) => TyBoolean
  | VPrim (PrNum _) | VPrim (PrFrac _ _) | VPrim (PrInf _) | VPrim PrNaN => TyNumber
  | VPrim (PrStr _) => TyString
  | VPrim (PrSym _) => TySymbol
  | VFun _ _ => TyFunction
  | VArr _ _ => TyObject
  | VObj _ _ _ _ => TyObject
  | VProxy _ target => typeof target
  | VTyped _ _ _ => TyFunction
  end.

Definition jstype_eqb (a b : jstype) : bool :=
  match a, b with
  | TyUndefined, TyUndefined | TyObject, TyObject | TyBoolean, TyBoolean
  | TyNumber, TyNumber | TyString, TyString | TySymbol, TySymbol
  | TyFunction, TyFunction => true
  | _, _ => false
  end.

(** The object behind any number of proxies: a proxy without [get],
    [ownKeys] or [getPrototypeOf] traps forwards reads to its target. *)
Fixpoint unproxy (v : val) : val :=
  match v with
  | VProxy _ target => unproxy target
  | _ => v
  end.

(** [Array.isArray(v)] *)
Definition isArray (v : val) : bool :=
  match unproxy v with
  | VArr _ _ => true
  | _ => false
  end.

(** Anything [new Proxy] accepts as a target. *)
Definition is_object (v : val) : bool :=
  match v with
  | VUndefined | VNull | VPrim _ => false
  | _ => true
  end.

(* ------------------------------------------------------------------ *)
(** *** Own properties *)

Section Props.
Context {A : Type}.

Fixpoint lookup (k : pkey) (l : list (pkey * A)) : option A :=
  match l with
  | [] => None
  | (k', a) :: r => if pkey_eqb k k' then Some a else lookup k r
  end.

(** [o[k] = a] on a list of own properties: update in place, or append. *)
Fixpoint store (k : pkey) (a : A) (l : list (pkey * A)) : list (pkey * A) :=
  match l with
  | [] => [(k, a)]
  | (k', a') :: r =>
      if pkey_eqb k k' then (k, a) :: r else (k', a') :: store k a r
  end.

Fixpoint insert_sorted (i : nat) (l : list nat) : list nat :=
  match l with
  | [] => [i]
  | j :: r => if Nat.leb i j then i :: l else j :: insert_sorted i r
  end.

Definition symbol_keys (l : list (pkey * A)) : list pkey :=
  flat_map (fun e => match fst e with PSym n => [PSym n] | _ => [] end) l.

Definition index_keys (l : list (pkey * A)) : list pkey :=
  map PIdx
    (fold_right insert_sorted []
       (flat_map (fun e => match fst e with PIdx i => [i] | _ => [] end) l)).

Definition string_keys (l : list (pkey * A)) : list pkey :=
  flat_map (fun e => match fst e with PName s => [PName s] | _ => [] end) l.

(** [Object.getOwnPropertyNames(o)]: indices ascending, then the other
    strings in creation order. *)
Definition getOwnPropertyNames (l : list (pkey * A)) : list pkey :=
  index_keys l ++ string_keys l.

(** [[...Object.getOwnPropertySymbols(o), ...Object.getOwnPropertyNames(o)]] *)
Definition own_keys (l : list (pkey * A)) : list pkey :=
  symbol_keys l ++ getOwnPropertyNames l.
End Props.

Definition length_key : pkey := PName "length".

Fixpoint indexed (i : nat) (elems : list (option val)) : list (pkey * val) :=
  match elems with
  | [] => []
  | None :: r => indexed (S i) r
  | Some x :: r => (PIdx i, x) :: indexed (S i) r
  end.

(** The own properties of a value, as [getOwnPropertySymbols] and
    [getOwnPropertyNames] see them: the elements of an array come with its
    [length]; [null] and [undefined] have none to ask for ([None]: both
    functions throw).  The library never asks for those of a primitive. *)
Definition own_props (v : val) : option (list (pkey * val)) :=
  match unproxy v with
  | VUndefined | VNull => None
  | VPrim _ => Some []
  | VFun _ props => Some props
  | VArr elems named =>
      Some (indexed 0 elems ++
            (length_key, VNum (Z.of_nat (List.length elems))) :: named)
  | VObj _ _ props _ => Some props
  | VProxy _ _ => Some []
  | VTyped _ _ props => Some props
  end.

(** [v[k]] for an own key, [undefined] otherwise. *)
Definition get (v : val) (k : pkey) : val :=
  match own_props v with
  | Some props => match lookup k props with Some x => x | None => VUndefined end
  | None => VUndefined
  end.

(* ================================================================== *)
(** ** Exceptions *)

Inductive native :=
| NullishToObject      (* Cannot convert undefined or null to object *)
| ReadOfUndefined      (* Cannot read properties of undefined *)
| NotAFunction         (* x is not a function *)
| ProxyTarget          (* Cannot create proxy with a non-object as target *)
| ProxySetFalsish      (* 'set' on proxy: trap returned falsish *)
| PrimitiveProperty    (* Cannot create property on a primitive *)
| SymbolToString       (* Cannot convert a Symbol value to a string *)
| ObjectToPrimitive    (* Cannot convert object to primitive value *)
| InvalidArrayLength   (* RangeError: Invalid array length *)
| InstanceofRhs.       (* Function has non-object prototype in instanceof check *)

(** The library's own [TypeError], by message, and the engine's errors. *)
Inductive error :=
| NullTypeError          (* can't set value on a type null *)
| RecordShapeError       (* Type RecordOf can only accept an object as argument *)
| InvalidValueError (v : val) (expected : list ty)
                         (* invalid value .. of type .., expected .. *)
| InvalidReturnError (v : val) (expected : list ty)
                         (* invalid return value .. of type .., expected .. *)
| InitializeError (v : val) (expected : ty)
                         (* Cannot initialize .. to .., expected type .. *)
| Native (n : native).

Inductive result (A : Type) :=
| Ok (a : A)
| Throw (e : error).
Arguments Ok {A} a.
Arguments Throw {A} e.

Definition bind {A B} (r : result A) (f : A -> result B) : result B :=
  match r with
  | Ok a => f a
  | Throw e => Throw e
  end.

Notation "x <- c ;; k" := (bind c (fun x => k))
  (at level 61, c at next level, right associativity).

Section Iteration.
Context {A : Type} (f : A -> result bool).

(** [l.every(f)] *)
Fixpoint every (l : list A) : result bool :=
  match l with
  | [] => Ok true
  | x :: r => b <- f x ;; if b then every r else Ok false
  end.

(** [l.some(f)], also [l.find(f) !== undefined] *)
Fixpoint some (l : list A) : result bool :=
  match l with
  | [] => Ok false
  | x :: r => b <- f x ;; if b then Ok true else some r
  end.

(** [l.filter(f)] *)
Fixpoint filter_r (l : list A) : result (list A) :=
  match l with
  | [] => Ok []
  | x :: r => b <- f x ;; r' <- filter_r r ;; Ok (if b then x :: r' else r')
  end.
End Iteration.

(* ================================================================== *)
(** ** [isValid] *)

Definition is_boxed (want : proto) (p : proto) : bool :=
  match want, p with
  | ProtoBoolean, ProtoBoolean | ProtoNumber, ProtoNumber
  | ProtoString, ProtoString => true
  | _, _ => false
  end.

(** [v instanceof C] for the boxed classes and for classes given as hints. *)
Definition instanceof_proto (v : val) (want : proto -> bool) : bool :=
  match unproxy v with
  | VObj _ p _ _ => want p
  | _ => false
  end.

Definition instanceof (v : val) (c : ctor) : result bool :=
  match c with
  | CClass n =>
      Ok (instanceof_proto v (fun p =>
            match p with
            | ProtoClass chain => existsb (Nat.eqb n) chain
            | _ => false
            end))
  | CArrow _ =>
      (* an arrow function has no [prototype] *)
      if is_object v then Throw (Native InstanceofRhs) else Ok false
  end.

(** The validation functions of the static singletons. *)
Definition base_valid (b : base) (v : val) : result bool :=
  match b with
  | BNull => Throw NullTypeError
  | BUndefined => Ok true
  | BBoolean =>
      Ok (jstype_eqb (typeof v) TyBoolean
          || instanceof_proto v (is_boxed ProtoBoolean))
  | BNumber =>
      Ok (jstype_eqb (typeof v) TyNumber
          || instanceof_proto v (is_boxed ProtoNumber))
  | BString =>
      Ok (jstype_eqb (typeof v) TyString
          || instanceof_proto v (is_boxed ProtoString))
  | BObject =>
      Ok (jstype_eqb (typeof v) TyObject && negb (isArray v)
          && match v with VNull => false | _ => true end)
  | BArray => Ok (jstype_eqb (typeof v) TyObject && isArray v)
  | BSymbol => Ok (jstype_eqb (typeof v) TySymbol)
  | BFunction => Ok (jstype_eqb (typeof v) TyFunction)
  | BInt =>
      Ok (jstype_eqb (typeof v) TyNumber
          && match v with
             | VPrim x => prim_eqb (Math_round x) x
             | _ => false
             end)
  end.

(** The elements of an array, seen through its proxies; [None] is a hole,
    which [every] and [some] skip. *)
Definition elements (v : val) : list (option val) :=
  match unproxy v with
  | VArr elems _ => elems
  | _ => []
  end.

Fixpoint isValid (t : ty) (v : val) {struct t} : result bool :=
  match t with
  | Base b => base_valid b v
  | InstanceOf _ c => instanceof v c
  | Primitive _ p =>
      Ok (match v with VPrim q => prim_eqb p q | _ => false end)
  | Instance _ l _ =>
      Ok (match v with VObj (Some l') _ _ _ => Nat.eqb l l' | _ => false end)
  | OneOf _ subTypes =>
      (fix find (ts : list ty) : result bool :=
         match ts with
         | [] => Ok false
         | t' :: ts' =>
             b <- isValid t' v ;; if b then Ok true else find ts'
         end) subTypes
  | ArrayOf _ type =>
      if isArray v then
        every (fun e => match e with
                        | None => Ok true
                        | Some x => isValid type x
                        end) (elements v)
      else Ok false
  | TupleOf _ types =>
      if isArray v then
        (fix go (ts : list ty) (es : list (option val)) {struct ts} : result bool :=
           match ts with
           | [] =>
               (* this.#types[i] is undefined from here on *)
               Ok (forallb (fun e => match e with None => true | Some _ => false end) es)
           | t' :: ts' =>
               match es with
               | [] => Ok true
               | None :: es' => go ts' es'
               | Some x :: es' =>
                   b <- isValid t' x ;; if b then go ts' es' else Ok false
               end
           end) types (elements v)
      else Ok false
  | RecordOf _ types =>
      if jstype_eqb (typeof v) TyObject && negb (isArray v) then
        match own_props v with
        | None => Throw (Native NullishToObject)
        | Some props =>
            every (fun k =>
                     (fix at_key (fs : list (pkey * ty)) : result bool :=
                        match fs with
                        | [] => Ok false
                        | (k', t') :: fs' =>
                            if pkey_eqb k k'
                            then isValid t' (get v k)
                            else at_key fs'
                        end) types)
                  (own_keys props)
        end
      else Ok false
  | Nullable _ type =>
      match v with
      | VNull | VUndefined => Ok true
      | _ => isValid type v
      end
  | TypedFunction _ _ => Ok (jstype_eqb (typeof v) TyFunction)
  end.

(** [initialize()].  A descriptor of an instance or of a function only
    knows the identity of what it returns, not its contents. *)
Definition base_initial (b : base) : val :=
  match b with
  | BNull => VNull
  | BUndefined => VUndefined
  | BBoolean => VBool false
  | BNumber | BInt => VNum 0
  | BString => VStr ""
  | BObject => js_object []
  | BArray => js_array []
  | BSymbol => VSym 0
  | BFunction => VFun 0 []
  end.

Fixpoint initialize (t : ty) : result val :=
  match t with
  | Base b => Ok (base_initial b)
  | InstanceOf _ _ => Ok VUndefined
  | Primitive _ p => Ok (VPrim p)
  | Instance _ l p => Ok (VObj (Some l) p [] [])
  | OneOf _ subTypes =>
      match subTypes with
      | [] => Throw (Native ReadOfUndefined)
      | t' :: _ => initialize t'
      end
  | ArrayOf _ _ => Ok (js_array [])
  | TupleOf _ types =>
      xs <- (fix all (ts : list ty) : result (list val) :=
               match ts with
               | [] => Ok []
               | t' :: ts' => x <- initialize t' ;; xs <- all ts' ;; Ok (x :: xs)
               end) types ;;
      Ok (js_array xs)
  | RecordOf _ types =>
      xs <- (fix all (ks : list pkey) : result (list (pkey * val)) :=
               match ks with
               | [] => Ok []
               | k :: ks' =>
                   x <- (fix at_key (fs : list (pkey * ty)) : result val :=
                           match fs with
                           | [] => Throw (Native ReadOfUndefined)
                           | (k', t') :: fs' =>
                               if pkey_eqb k k' then initialize t' else at_key fs'
                           end) types ;;
                   xs <- all ks' ;; Ok ((k, x) :: xs)
               end) (own_keys types) ;;
      Ok (js_object xs)
  | Nullable _ _ => Ok VNull
  | TypedFunction _ _ => Ok (VFun 0 [])
  end.

(* ================================================================== *)
(** ** [toString] *)

(** [t.toString()], as far as it can throw: the string itself is not
    modelled.  Every class builds its string from those of the descriptors
    it holds, in order; [Instance.toString] calls the [toString] of its
    object, which an object without prototype does not have. *)
Fixpoint toString (t : ty) : result unit :=
  match t with
  | Base _ | InstanceOf _ _ | Primitive _ _ => Ok tt
  | Instance _ _ p =>
      match p with
      | ProtoNull => Throw (Native NotAFunction)
      | _ => Ok tt
      end
  | OneOf _ subTypes =>
      (fix all (ts : list ty) : result unit :=
         match ts with
         | [] => Ok tt
         | t' :: ts' => _ <- toString t' ;; all ts'
         end) subTypes
  | ArrayOf _ type => toString type
  | TupleOf _ types =>
      (fix all (ts : list ty) : result unit :=
         match ts with
         | [] => Ok tt
         | t' :: ts' => _ <- toString t' ;; all ts'
         end) types
  | RecordOf _ types =>
      (fix all (ks : list pkey) : result unit :=
         match ks with
         | [] => Ok tt
         | k :: ks' =>
             _ <- (fix at_key (fs : list (pkey * ty)) : result unit :=
                     match fs with
                     | [] => Throw (Native ReadOfUndefined)
                     | (k', t') :: fs' =>
                         if pkey_eqb k k' then toString t' else at_key fs'
                     end) types ;;
             all ks'
         end) (own_keys types)
  | Nullable _ type => toString type
  | TypedFunction _ overloads =>
      (fix all (os : list (list ty * ty)) : result unit :=
         match os with
         | [] => Ok tt
         | overload :: os' =>
             _ <- (fix params (ts : list ty) : result unit :=
                     match ts with
                     | [] => Ok tt
                     | t' :: ts' => _ <- toString t' ;; params ts'
                     end) (fst overload) ;;
             _ <- toString (snd overload) ;;
             all os'
         end) overloads
  end.

(** The descriptors [types] converted to strings in turn, as a template
    literal or [join] does. *)
Fixpoint print_all (types : list ty) : result unit :=
  match types with
  | [] => Ok tt
  | t :: ts => _ <- toString t ;; print_all ts
  end.

(* ================================================================== *)
(** ** Type hints *)

(** The constructors that [Type.#known] maps to a singleton. *)
Inductive marker :=
| MBoolean | MNumber | MString | MObject | MArray | MSymbol | MFunction.

Definition marker_eqb (a b : marker) : bool :=
  match a, b with
  | MBoolean, MBoolean | MNumber, MNumber | MString, MString
  | MObject, MObject | MArray, MArray | MSymbol, MSymbol
  | MFunction, MFunction => true
  | _, _ => false
  end.

Definition marker_type (m : marker) : ty :=
  Base match m with
       | MBoolean => BBoolean | MNumber => BNumber | MString => BString
       | MObject => BObject | MArray => BArray | MSymbol => BSymbol
       | MFunction => BFunction
       end.

(** A value in hint position, classified by the tests [Type.getFor] runs.
    [l] is the address of an object: two literals that look alike are two
    objects.  [HObj l p fields] is an object that is not an array, with
    its prototype and its own properties. *)
Inductive hint :=
| HType (t : ty)
| HNull
| HUndefined
| HMarker (m : marker)
| HPrim (p : prim)
| HArray (l : loc) (items : list hint)
| HObj (l : loc) (p : proto) (fields : list (pkey * hint))
| HClass (c : nat)
| HArrow (l : loc) (returns : hint).

(** [typeHint.__proto__?.constructor === Object] *)
Definition plain (p : proto) : bool :=
  match p with
  | ProtoObject => true
  | _ => false
  end.

Definition typeof_hint (h : hint) : jstype :=
  match h with
  | HType _ | HNull | HArray _ _ | HObj _ _ _ => TyObject
  | HUndefined => TyUndefined
  | HMarker _ | HClass _ | HArrow _ _ => TyFunction
  | HPrim p => typeof (VPrim p)
  end.

(** How [Map] and [WeakMap] compare two keys: by identity, primitives by
    [SameValueZero]. *)
Definition same_hint (a b : hint) : bool :=
  match a, b with
  | HType s, HType t => same_ty s t
  | HNull, HNull => true
  | HUndefined, HUndefined => true
  | HMarker m, HMarker n => marker_eqb m n
  | HPrim p, HPrim q => SameValueZero p q
  | HArray l _, HArray k _ => Nat.eqb l k
  | HObj l _ _, HObj k _ _ => Nat.eqb l k
  | HClass c, HClass d => Nat.eqb c d
  | HArrow l _, HArrow k _ => Nat.eqb l k
  | _, _ => false
  end.

(** [a === b] *)
Definition strict_equal (a b : hint) : bool :=
  match a, b with
  | HPrim p, HPrim q => prim_eqb p q
  | _, _ => same_hint a b
  end.

(** [h[k]] *)
Definition get_hint (h : hint) (k : pkey) : hint :=
  match h with
  | HArray _ items =>
      match k with
      | PIdx i => nth i items HUndefined
      | PName s =>
          if String.eqb s "length"
          then HPrim (PrNum (Z.of_nat (List.length items)))
          else HUndefined
      | PSym _ => HUndefined
      end
  | HObj _ _ fields =>
      match lookup k fields with
      | Some x => x
      | None => HUndefined
      end
  | _ => HUndefined
  end.

(** [Object.entries(h).length] for [typeof h === "object"]. *)
Definition entries_length (h : hint) : result nat :=
  match h with
  | HNull => Throw (Native NullishToObject)
  | HArray _ items => Ok (List.length items)
  | HObj _ _ fields => Ok (List.length (getOwnPropertyNames fields))
  | _ => Ok 0
  end.

Fixpoint deepEqual (obj1 obj2 : hint) {struct obj1} : result bool :=
  if strict_equal obj1 obj2 then Ok true
  else if negb (jstype_eqb (typeof_hint obj1) (typeof_hint obj2)) then Ok false
  else if jstype_eqb (typeof_hint obj1) TyObject then
    n1 <- entries_length obj1 ;;
    n2 <- entries_length obj2 ;;
    if negb (Nat.eqb n1 n2) then Ok false
    else
      match obj1 with
      | HArray _ items =>
          (fix keys (i : nat) (xs : list hint) : result bool :=
             match xs with
             | [] => Ok true
             | x :: r =>
                 b <- deepEqual x (get_hint obj2 (PIdx i)) ;;
                 if b then keys (S i) r else Ok false
             end) 0 items
      | HObj _ _ fields =>
          every (fun k =>
                   (fix at_key (fs : list (pkey * hint)) : result bool :=
                      match fs with
                      | [] => Ok true
                      | (k', x) :: fs' =>
                          if pkey_eqb k k'
                          then deepEqual x (get_hint obj2 k)
                          else at_key fs'
                      end) fields)
                (getOwnPropertyNames fields)
      | _ => Ok true
      end
  else Ok true.

(* ================================================================== *)
(** ** The registries *)

(** [TupleOf.#known]: one [Map] level per position; [leaf] is the entry
    under the private symbol [TupleOf.#leaf]. *)
Inductive tuple_map :=
| TMap (leaf : option ty) (children : list (hint * tuple_map)).

Definition tm_empty : tuple_map := TMap None [].
Definition tm_leaf (m : tuple_map) : option ty := let (leaf, _) := m in leaf.

Section Assoc.
Context {K V : Type} (eqb : K -> K -> bool).

(** [map.get(k)] *)
Fixpoint assoc_get (k : K) (l : list (K * V)) : option V :=
  match l with
  | [] => None
  | (k', v) :: r => if eqb k k' then Some v else assoc_get k r
  end.

(** [map.set(k, g(map.get(k)))], a new key going last. *)
Fixpoint assoc_update (k : K) (g : option V -> V) (l : list (K * V)) : list (K * V) :=
  match l with
  | [] => [(k, g None)]
  | (k', v) :: r =>
      if eqb k k' then (k', g (Some v)) :: r else (k', v) :: assoc_update k g r
  end.

Definition assoc_set (k : K) (v : V) : list (K * V) -> list (K * V) :=
  assoc_update k (fun _ => v).
End Assoc.

(** [types.reduce((map, key) => map?.get(key), known)] *)
Fixpoint tm_walk (path : list hint) (m : tuple_map) : option tuple_map :=
  match path with
  | [] => Some m
  | k :: ks =>
      let (_, children) := m in
      match assoc_get same_hint k children with
      | Some c => tm_walk ks c
      | None => None
      end
  end.

(** Follow [path] from [m], creating the missing levels, and change the
    node reached by [f]. *)
Fixpoint tm_update (path : list hint) (f : tuple_map -> tuple_map) (m : tuple_map)
  : tuple_map :=
  match path with
  | [] => f m
  | k :: ks =>
      let (leaf, children) := m in
      TMap leaf
        (assoc_update same_hint k
           (fun c => tm_update ks f match c with Some c => c | None => tm_empty end)
           children)
  end.

Definition overload_list := list (list ty * ty).

Record registry := {
  next_id : nat;
  Type_known : list (ctor * ty);
  Primitive_known : list (prim * ty);
  Instance_known : list (loc * ty);
  OneOf_known : list (list ty * ty);
  ArrayOf_known : list (ty * ty);
  TupleOf_known : tuple_map;
  RecordOf_known : list (hint * ty);
  Nullable_known : list (ty * ty);
  TypedFunction_known : list (overload_list * ty)
}.

(** The registries when the module has just been loaded. *)
Definition initial : registry :=
  {| next_id := 0; Type_known := []; Primitive_known := [];
     Instance_known := []; OneOf_known := []; ArrayOf_known := [];
     TupleOf_known := tm_empty; RecordOf_known := []; Nullable_known := [];
     TypedFunction_known := [] |}.

Definition M (A : Type) : Type := registry -> registry * result A.

Definition ret {A} (a : A) : M A := fun r => (r, Ok a).
Definition throw {A} (e : error) : M A := fun r => (r, Throw e).
Definition lift {A} (c : result A) : M A := fun r => (r, c).
Definition bindM {A B} (c : M A) (f : A -> M B) : M B :=
  fun r =>
    match c r with
    | (r', Ok a) => f a r'
    | (r', Throw e) => (r', Throw e)
    end.

Notation "x <~ c ;; k" := (bindM c (fun x => k))
  (at level 61, c at next level, right associativity).

Definition reading {A} (f : registry -> A) : M A := fun r => (r, Ok (f r)).
Definition writing (f : registry -> registry) : M unit := fun r => (f r, Ok tt).

(** The identity of the object a [new] expression allocates. *)
Definition fresh : M nat :=
  fun r =>
    ({| next_id := S (next_id r); Type_known := Type_known r;
        Primitive_known := Primitive_known r; Instance_known := Instance_known r;
        OneOf_known := OneOf_known r; ArrayOf_known := ArrayOf_known r;
        TupleOf_known := TupleOf_known r; RecordOf_known := RecordOf_known r;
        Nullable_known := Nullable_known r;
        TypedFunction_known := TypedFunction_known r |}, Ok (next_id r)).

Definition set_Type_known f r :=
  {| next_id := next_id r; Type_known := f (Type_known r);
     Primitive_known := Primitive_known r; Instance_known := Instance_known r;
     OneOf_known := OneOf_known r; ArrayOf_known := ArrayOf_known r;
     TupleOf_known := TupleOf_known r; RecordOf_known := RecordOf_known r;
     Nullable_known := Nullable_known r;
     TypedFunction_known := TypedFunction_known r |}.

Definition set_Primitive_known f r :=
  {| next_id := next_id r; Type_known := Type_known r;
     Primitive_known := f (Primitive_known r); Instance_known := Instance_known r;
     OneOf_known := OneOf_known r; ArrayOf_known := ArrayOf_known r;
     TupleOf_known := TupleOf_known r; RecordOf_known := RecordOf_known r;
     Nullable_known := Nullable_known r;
     TypedFunction_known := TypedFunction_known r |}.

Definition set_Instance_known f r :=
  {| next_id := next_id r; Type_known := Type_known r;
     Primitive_known := Primitive_known r; Instance_known := f (Instance_known r);
     OneOf_known := OneOf_known r; ArrayOf_known := ArrayOf_known r;
     TupleOf_known := TupleOf_known r; RecordOf_known := RecordOf_known r;
     Nullable_known := Nullable_known r;
     TypedFunction_known := TypedFunction_known r |}.

Definition set_OneOf_known f r :=
  {| next_id := next_id r; Type_known := Type_known r;
     Primitive_known := Primitive_known r; Instance_known := Instance_known r;
     OneOf_known := f (OneOf_known r); ArrayOf_known := ArrayOf_known r;
     TupleOf_known := TupleOf_known r; RecordOf_known := RecordOf_known r;
     Nullable_known := Nullable_known r;
     TypedFunction_known := TypedFunction_known r |}.

Definition set_ArrayOf_known f r :=
  {| next_id := next_id r; Type_known := Type_known r;
     Primitive_known := Primitive_known r; Instance_known := Instance_known r;
     OneOf_known := OneOf_known r; ArrayOf_known := f (ArrayOf_known r);
     TupleOf_known := TupleOf_known r; RecordOf_known := RecordOf_known r;
     Nullable_known := Nullable_known r;
     TypedFunction_known := TypedFunction_known r |}.

Definition set_TupleOf_known f r :=
  {| next_id := next_id r; Type_known := Type_known r;
     Primitive_known := Primitive_known r; Instance_known := Instance_known r;
     OneOf_known := OneOf_known r; ArrayOf_known := ArrayOf_known r;
     TupleOf_known := f (TupleOf_known r); RecordOf_known := RecordOf_known r;
     Nullable_known := Nullable_known r;
     TypedFunction_known := TypedFunction_known r |}.

Definition set_RecordOf_known f r :=
  {| next_id := next_id r; Type_known := Type_known r;
     Primitive_known := Primitive_known r; Instance_known := Instance_known r;
     OneOf_known := OneOf_known r; ArrayOf_known := ArrayOf_known r;
     TupleOf_known := TupleOf_known r; RecordOf_known := f (RecordOf_known r);
     Nullable_known := Nullable_known r;
     TypedFunction_known := TypedFunction_known r |}.

Definition set_Nullable_known f r :=
  {| next_id := next_id r; Type_known := Type_known r;
     Primitive_known := Primitive_known r; Instance_known := Instance_known r;
     OneOf_known := OneOf_known r; ArrayOf_known := ArrayOf_known r;
     TupleOf_known := TupleOf_known r; RecordOf_known := RecordOf_known r;
     Nullable_known := f (Nullable_known r);
     TypedFunction_known := TypedFunction_known r |}.

Definition set_TypedFunction_known f r :=
  {| next_id := next_id r; Type_known := Type_known r;
     Primitive_known := Primitive_known r; Instance_known := Instance_known r;
     OneOf_known := OneOf_known r; ArrayOf_known := ArrayOf_known r;
     TupleOf_known := TupleOf_known r; RecordOf_known := RecordOf_known r;
     Nullable_known := Nullable_known r;
     TypedFunction_known := f (TypedFunction_known r) |}.

Section MapM.
Context {A B : Type} (f : A -> M B).

(** [l.map(f)] when [f] reads and fills the registries. *)
Fixpoint mapM (l : list A) : M (list B) :=
  match l with
  | [] => ret []
  | x :: xs => y <~ f x ;; ys <~ mapM xs ;; ret (y :: ys)
  end.
End MapM.

(* ================================================================== *)
(** ** The factories *)

(** The [typeof typeHint === "function"] branch of [Type.getFor], reached
    when [Type.#known] has no entry for the function. *)
Definition Type_getFor_function (c : ctor) : M ty :=
  known <~ reading Type_known ;;
  match assoc_get ctor_eqb c known with
  | Some t => ret t
  | None =>
      id <~ fresh ;;
      let t := InstanceOf id c in
      _ <~ writing (set_Type_known (assoc_set ctor_eqb c t)) ;;
      ret t
  end.

Definition Primitive_getFor (value : prim) : M ty :=
  known <~ reading Primitive_known ;;
  match assoc_get SameValueZero value known with
  | Some t => ret t
  | None =>
      id <~ fresh ;;
      let t := Primitive id value in
      _ <~ writing (set_Primitive_known (assoc_set SameValueZero value t)) ;;
      ret t
  end.

Definition Instance_getFor (value : loc) (p : proto) : M ty :=
  known <~ reading Instance_known ;;
  match assoc_get Nat.eqb value known with
  | Some t => ret t
  | None =>
      id <~ fresh ;;
      let t := Instance id value p in
      _ <~ writing (set_Instance_known (assoc_set Nat.eqb value t)) ;;
      ret t
  end.

Section Composite.
(** [type(t)] for one hint, as the constructors of [TupleOf] and
    [RecordOf] call it. *)
Variable type1 : hint -> M ty.

Definition TupleOf_getFor_with (types : list hint) : M ty :=
  known <~ reading TupleOf_known ;;
  match match tm_walk types known with
        | Some val => tm_leaf val
        | None => None
        end with
  | Some t => ret t
  | None =>
      _ <~ writing (set_TupleOf_known (tm_update types (fun map => map))) ;;
      id <~ fresh ;;
      ts <~ mapM type1 types ;;
      let t := TupleOf id ts in
      _ <~ writing (set_TupleOf_known
                      (tm_update types
                         (fun map => let (_, children) := map in
                                     TMap (Some t) children))) ;;
      ret t
  end.

Definition RecordOf_getFor_with (shape : hint) : M ty :=
  if negb (jstype_eqb (typeof_hint shape) TyObject)
     || match shape with HArray _ _ => true | _ => false end
  then throw RecordShapeError
  else
    known <~ reading RecordOf_known ;;
    found <~ lift ((fix scan (l : list (hint * ty)) : result (option ty) :=
                      match l with
                      | [] => Ok None
                      | (key, value) :: r =>
                          b <- deepEqual key shape ;;
                          if b then Ok (Some value) else scan r
                      end) known) ;;
    match found with
    | Some t => ret t
    | None =>
        id <~ fresh ;;
        types <~ match shape with
                 | HNull => throw (Native NullishToObject)
                 | HObj _ _ fields =>
                     mapM (fun key =>
                             t <~ (fix at_key (fs : list (pkey * hint)) : M ty :=
                                     match fs with
                                     | [] => ret (Base BUndefined)   (* type(undefined) *)
                                     | (k', x) :: fs' =>
                                         if pkey_eqb key k' then type1 x else at_key fs'
                                     end) fields ;;
                             ret (key, t))
                          (own_keys fields)
                 | _ => ret []
                 end ;;
        let t := RecordOf id types in
        _ <~ writing (set_RecordOf_known (assoc_set same_hint shape t)) ;;
        ret t
    end.
End Composite.

Fixpoint Type_getFor (typeHint : hint) {struct typeHint} : M ty :=
  match typeHint with
  | HType t => ret t
  | HNull => ret (Base BNull)
  | HUndefined => ret (Base BUndefined)
  | HMarker m => ret (marker_type m)
  | HArray _ items => TupleOf_getFor_with Type_getFor items
  | HObj l p _ =>
      if plain p then RecordOf_getFor_with Type_getFor typeHint
      else Instance_getFor l p
  | HClass c => Type_getFor_function (CClass c)
  | HArrow l _ => Type_getFor_function (CArrow l)
  | HPrim p => Primitive_getFor p
  end.

Definition TupleOf_getFor : list hint -> M ty := TupleOf_getFor_with Type_getFor.
Definition RecordOf_getFor : hint -> M ty := RecordOf_getFor_with Type_getFor.

(** [new ComparableSet(l)]: the distinct members in order of first
    occurrence. *)
Definition ComparableSet (l : list ty) : list ty :=
  fold_left (fun s t => if existsb (same_ty t) s then s else s ++ [t]) l [].

(** [this.equals(otherSet)] for two distinct set objects. *)
Definition equals (this otherSet : list ty) : bool :=
  Nat.eqb (List.length this) (List.length otherSet)
  && forallb (fun val => existsb (same_ty val) otherSet) this.

Definition OneOf_getFor (types : list hint) : M ty :=
  members <~ mapM (fun t =>
                     match t with
                     | HType (OneOf _ subTypes) => ret subTypes
                     | _ => x <~ Type_getFor t ;; ret [x]
                     end) types ;;
  let types := ComparableSet (List.concat members) in
  match types with
  | [t] => Type_getFor (HType t)
  | _ =>
      known <~ reading OneOf_known ;;
      match find (fun e => equals types (fst e)) known with
      | Some (_, value) => ret value
      | None =>
          id <~ fresh ;;
          let t := OneOf id types in
          _ <~ writing (set_OneOf_known (fun k => k ++ [(types, t)])) ;;
          ret t
      end
  end.

Definition type (typeHints : list hint) : M ty :=
  match typeHints with
  | [] => Type_getFor HNull
  | [h] => Type_getFor h
  | _ => OneOf_getFor typeHints
  end.

Definition oneOf (typeHints : list hint) : M ty := type typeHints.

Definition ArrayOf_getFor (types : list hint) : M ty :=
  t <~ type types ;;
  known <~ reading ArrayOf_known ;;
  match assoc_get same_ty t known with
  | Some a => ret a
  | None =>
      id <~ fresh ;;
      let a := ArrayOf id t in
      _ <~ writing (set_ArrayOf_known (assoc_set same_ty t a)) ;;
      ret a
  end.

Definition Nullable_getFor (typeHint : hint) : M ty :=
  (* the parameter defaults to null *)
  let typeHint := match typeHint with HUndefined => HNull | _ => typeHint end in
  t <~ type [typeHint] ;;
  known <~ reading Nullable_known ;;
  match assoc_get same_ty t known with
  | Some n => ret n
  | None =>
      id <~ fresh ;;
      let n := Nullable id t in
      _ <~ writing (set_Nullable_known (assoc_set same_ty t n)) ;;
      ret n
  end.

(** The [reduce] of [TypedFunction.getFor]: [finished ++ [current]] is the
    accumulator, [current] its last element. *)
Fixpoint parse_overloads (typeHints : list hint) (finished : overload_list)
    (current : list ty * ty) : M overload_list :=
  match typeHints with
  | [] => ret (finished ++ [current])
  | hint :: rest =>
      match hint with
      | HArrow _ returns =>
          t <~ type [returns] ;;
          let current := (fst current, t) in
          match rest with
          | [] => ret (finished ++ [current])
          | _ => parse_overloads rest (finished ++ [current]) ([], Base BNull)
          end
      | _ =>
          t <~ type [hint] ;;
          parse_overloads rest finished (fst current ++ [t], snd current)
      end
  end.

Definition overload_matches (keyOver over : list ty * ty) : bool :=
  same_ty (snd keyOver) (snd over)
  && (fix params (index : nat) (ps : list ty) : bool :=
        match ps with
        | [] => true
        | paramType :: r =>
            match nth_error (fst over) index with
            | Some p => same_ty p paramType
            | None => false
            end && params (S index) r
        end) 0 (fst keyOver).

Definition TypedFunction_getFor (typeHints : list hint) : M ty :=
  overloads <~ parse_overloads typeHints [] ([], Base BNull) ;;
  known <~ reading TypedFunction_known ;;
  match find (fun e =>
                Nat.eqb (List.length (fst e)) (List.length overloads)
                && forallb (fun over =>
                             existsb (fun keyOver => overload_matches keyOver over)
                                     (fst e)) overloads)
             known with
  | Some (_, t) => ret t
  | None =>
      id <~ fresh ;;
      let t := TypedFunction id overloads in
      _ <~ writing (set_TypedFunction_known (fun k => k ++ [(overloads, t)])) ;;
      ret t
  end.

Definition arrayOf := ArrayOf_getFor.
Definition tupleOf := TupleOf_getFor.
Definition recordOf := RecordOf_getFor.
Definition _null := Nullable_getFor.
Definition func := TypedFunction_getFor.
Definition int : ty := Base BInt.

(* ================================================================== *)
(** ** [subtypeAt] *)

(** [types[index]] for an array of descriptors: an element, its [length],
    or [undefined]. *)
Definition element_at (types : list ty) (index : pkey) : hint :=
  match index with
  | PIdx i =>
      match nth_error types i with
      | Some t => HType t
      | None => HUndefined
      end
  | PName s =>
      if String.eqb s "length"
      then HPrim (PrNum (Z.of_nat (List.length types)))
      else HUndefined
  | PSym _ => HUndefined
  end.

Definition is_return (index : pkey) : bool :=
  match index with
  | PName s => String.eqb s "return"
  | _ => false
  end.

(** What [t.subtypeAt(index)] returns: a descriptor, [undefined], or the
    length of [#types].  The union and the several-overload function build
    their answer through [oneOf], which may register a new union. *)
Fixpoint subtypeAt (t : ty) (index : pkey) {struct t} : M hint :=
  match t with
  | OneOf _ subTypes =>
      hs <~ mapM (fun t' => subtypeAt t' index) subTypes ;;
      u <~ oneOf hs ;;
      ret (HType u)
  | ArrayOf _ type => ret (HType type)
  | TupleOf _ types => ret (element_at types index)
  | RecordOf _ types =>
      ret match lookup index types with
          | Some t' => HType t'
          | None => HUndefined
          end
  | Nullable _ type => subtypeAt type index
  | TypedFunction _ overloads =>
      match overloads with
      | [overload] =>
          if is_return index then ret (HType (snd overload))
          else ret (element_at (fst overload) index)
      | _ =>
          u <~ oneOf (map (fun overload =>
                             if is_return index then HType (snd overload)
                             else element_at (fst overload) index) overloads) ;;
          ret (HType u)
      end
  | _ => ret HUndefined
  end.

(** [subt instanceof ArrayOf || subt instanceof TupleOf || subt instanceof RecordOf] *)
Definition is_collection (subt : hint) : bool :=
  match subt with
  | HType (ArrayOf _ _) | HType (TupleOf _ _) | HType (RecordOf _ _) => true
  | _ => false
  end.

(* ================================================================== *)
(** ** [editValue] *)

Definition new_Proxy (handler : ty) (target : val) : result val :=
  if is_object target then Ok (VProxy handler target)
  else Throw (Native ProxyTarget).

Definition editValue (t : ty) (value : val) : result val :=
  match t with
  | OneOf _ _ =>
      if negb (jstype_eqb (typeof value) TyObject) then Ok value
      else new_Proxy t value
  | ArrayOf _ _ | TupleOf _ _ | RecordOf _ _ => new_Proxy t value
  | TypedFunction _ _ => Ok (VTyped t value [])
  | _ => Ok value
  end.

(* ------------------------------------------------------------------ *)
(** *** Assignment to an ordinary object *)

Fixpoint digits (s : string) (acc : Z) : option Z :=
  match s with
  | EmptyString => Some acc
  | String c r =>
      let n := Ascii.nat_of_ascii c in
      if (48 <=? n)%nat && (n <=? 57)%nat
      then digits r (10 * acc + Z.of_nat (n - 48))
      else None
  end.

(** The length [a.length = v] asks for: a number must be integral and
    below [2^32].  Strings are read as unsigned decimal literals; an object
    operand would be converted by its own [toString], which is not
    modelled, and is taken as not a number. *)
Definition to_array_length (v : val) : result nat :=
  let check (n : option Z) :=
    match n with
    | Some n =>
        if (0 <=? n)%Z && (n <? 4294967296)%Z then Ok (Z.to_nat n)
        else Throw (Native InvalidArrayLength)
    | None => Throw (Native InvalidArrayLength)
    end in
  match v with
  | VNull => Ok 0
  | VPrim (PrBool b) => Ok (if b then 1 else 0)
  | VPrim (PrNum n) => check (Some n)
  | VPrim (PrStr s) => check (digits s 0)
  | VPrim (PrSym _) => Throw (Native SymbolToString)
  | VPrim (PrFrac _ _) | VPrim (PrInf _) | VPrim PrNaN =>
      Throw (Native InvalidArrayLength)
  | _ => Throw (Native InvalidArrayLength)
  end.

(** [elems[i] = v], the array growing by holes when [i] is past its end. *)
Fixpoint set_element (i : nat) (v : val) (elems : list (option val))
  : list (option val) :=
  match i, elems with
  | 0, [] => [Some v]
  | 0, _ :: r => Some v :: r
  | S i', [] => None :: set_element i' v []
  | S i', e :: r => e :: set_element i' v r
  end.

(** [elems.length = n] *)
Definition resize (n : nat) (elems : list (option val)) : list (option val) :=
  firstn n elems ++ repeat None (n - List.length elems).

(** [o[prop] = v] where [o] is not a proxy. *)
Definition assign_own (o : val) (prop : pkey) (v : val) : result val :=
  match o with
  | VUndefined | VNull => Throw (Native ReadOfUndefined)
  | VPrim _ => Throw (Native PrimitiveProperty)
  | VFun id props => Ok (VFun id (store prop v props))
  | VArr elems named =>
      match prop with
      | PIdx i => Ok (VArr (set_element i v elems) named)
      | PName s =>
          if String.eqb s "length"
          then n <- to_array_length v ;; Ok (VArr (resize n elems) named)
          else Ok (VArr elems (store prop v named))
      | PSym _ => Ok (VArr elems (store prop v named))
      end
  | VObj id p props hidden => Ok (VObj id p (store prop v props) hidden)
  | VProxy _ _ => Ok o   (* a proxy is assigned through its handler: [assign] *)
  | VTyped t target props => Ok (VTyped t target (store prop v props))
  end.

(** [[...o]]: a new array of the elements, holes read as [undefined]. *)
Definition spread_array (o : val) : val :=
  VArr (map (fun e => Some match e with Some x => x | None => VUndefined end)
            (elements o)) [].

(** The own keys of [o] that are not enumerable; those of an array other
    than its [length], and those of a function, are taken to be
    enumerable. *)
Definition not_enumerable (o : val) : list pkey :=
  match unproxy o with
  | VObj _ _ _ hidden => hidden
  | VArr _ _ => [length_key]
  | _ => []
  end.

(** [{...o}]: a new plain object with the enumerable own properties of
    [o]. *)
Definition spread_object (o : val) : val :=
  match own_props o with
  | Some props =>
      js_object
        (map (fun k => (k, get o k))
             (filter (fun k => negb (existsb (pkey_eqb k) (not_enumerable o)))
                     (getOwnPropertyNames props ++ symbol_keys props)))
  | None => js_object []
  end.

(** The copy the handler of a union validates:
    [newObject = [...obj]; newObject[prop] = value] for an array,
    [{...obj, [prop]: value}] otherwise. *)
Definition post_write_copy (o : val) (prop : pkey) (value : val) : result val :=
  if isArray o then assign_own (spread_array o) prop value
  else assign_own (spread_object o) prop value.

(* ------------------------------------------------------------------ *)
(** *** The [set] handlers *)

(** A handler is run on the registries and on its target; it leaves both
    in some state and returns a boolean or throws. *)
Definition handled (A : Type) : Type := registry * val * result A.

(** A template literal converts a key with [ToString], which throws on a
    symbol. *)
Definition key_to_string (prop : pkey) : result unit :=
  match prop with
  | PSym _ => Throw (Native SymbolToString)
  | _ => Ok tt
  end.

Section Handlers.
(** [obj[prop] = v] on the target of the proxy. *)
Variable assign_target : pkey -> val -> registry -> handled unit.

Definition commit (obj : val) (prop : pkey) (v : val) (r : registry)
  : handled bool :=
  match assign_target prop v r with
  | (r', obj', Ok _) => (r', obj', Ok true)
  | (r', obj', Throw e) => (r', obj', Throw e)
  end.

Definition checked_set (declared : option ty) (obj : val) (prop : pkey)
    (value : val) (r : registry) : handled bool :=
  match declared with
  | None =>
      (* console.error(`Can't insert ... ${prop} ...`); return false *)
      (r, obj, _ <- key_to_string prop ;; Ok false)
  | Some t =>
      match isValid t value with
      | Throw e => (r, obj, Throw e)
      | Ok true =>
          match editValue t value with
          | Ok v' => commit obj prop v' r
          | Throw e => (r, obj, Throw e)
          end
      | Ok false =>
          (* console.error(.., `.. expected ${declared}`); return false *)
          (r, obj, _ <- toString t ;; Ok false)
      end
  end.

Definition ArrayOf_set (type : ty) (obj : val) (prop : pkey) (value : val)
  : registry -> handled bool :=
  checked_set (Some type) obj prop value.

Definition TupleOf_set (types : list ty) (obj : val) (prop : pkey) (value : val)
    (r : registry) : handled bool :=
  match element_at types prop with
  | HType t => checked_set (Some t) obj prop value r
  | HPrim (PrNum n) =>
      (* that.#types.length: falsy when 0, and has no isValid otherwise *)
      if (n =? 0)%Z then checked_set None obj prop value r
      else (r, obj, Throw (Native NotAFunction))
  | _ => checked_set None obj prop value r
  end.

Definition RecordOf_set (types : list (pkey * ty)) (obj : val) (prop : pkey)
    (value : val) : registry -> handled bool :=
  checked_set (lookup prop types) obj prop value.

Section SomeM.
Context {A : Type} (f : A -> M bool).
Fixpoint someM (l : list A) : M bool :=
  match l with
  | [] => ret false
  | x :: xs => b <~ f x ;; if b then ret true else someM xs
  end.
End SomeM.

(** [possibleTypes.some(t => { const subt = t.subtypeAt(prop); return subt
    instanceof ArrayOf || subt instanceof TupleOf || subt instanceof RecordOf })] *)
Definition declares_collection (possibleTypes : list ty) (prop : pkey) : M bool :=
  someM (fun t => subt <~ subtypeAt t prop ;; ret (is_collection subt)) possibleTypes.

(** [subt.toString()] for what [subtypeAt] has returned: a descriptor,
    [undefined], or the length of a tuple. *)
Definition subtype_toString (subt : hint) : result unit :=
  match subt with
  | HType t => toString t
  | HUndefined => Throw (Native ReadOfUndefined)
  | _ => Ok tt
  end.

(** [possibleTypes.map(t => t.subtypeAt(prop).toString())] *)
Definition print_subtypes (possibleTypes : list ty) (prop : pkey) : M (list unit) :=
  mapM (fun t => subt <~ subtypeAt t prop ;; lift (subtype_toString subt)) possibleTypes.

Definition OneOf_set (subTypes : list ty) (obj : val) (prop : pkey) (value : val)
    (r : registry) : handled bool :=
  match filter_r (fun t => isValid t value) subTypes with
  | Throw e => (r, obj, Throw e)
  | Ok _ =>
      match post_write_copy obj prop value with
      | Throw e => (r, obj, Throw e)
      | Ok newObject =>
          match filter_r (fun t => isValid t newObject) subTypes with
          | Throw e => (r, obj, Throw e)
          | Ok [] =>
              (r, obj, _ <- key_to_string prop ;; _ <- print_all subTypes ;; Ok false)
          | Ok possibleTypes =>
              match declares_collection possibleTypes prop r with
              | (r', Throw e) => (r', obj, Throw e)
              | (r', Ok false) => commit obj prop value r'
              | (r', Ok true) =>
                  match key_to_string prop with
                  | Throw e => (r', obj, Throw e)
                  | Ok _ =>
                      match print_subtypes possibleTypes prop r' with
                      | (r'', Throw e) => (r'', obj, Throw e)
                      | (r'', Ok _) => (r'', obj, Ok false)
                      end
                  end
              end
          end
      end
  end.

(** The handler [t.editValue] installs.  Only unions, arrays, tuples and
    records build proxies; for the other descriptors the case is that of
    a proxy without traps. *)
Definition set_trap (handler : ty) (obj : val) (prop : pkey) (value : val)
  : registry -> handled bool :=
  match handler with
  | OneOf _ subTypes => OneOf_set subTypes obj prop value
  | ArrayOf _ type => ArrayOf_set type obj prop value
  | TupleOf _ types => TupleOf_set types obj prop value
  | RecordOf _ types => RecordOf_set types obj prop value
  | _ => commit obj prop value
  end.
End Handlers.

(** [o[prop] = v] in strict code. *)
Fixpoint assign (o : val) (prop : pkey) (v : val) (r : registry) {struct o}
  : handled unit :=
  match o with
  | VProxy handler target =>
      match set_trap (assign target) handler target prop v r with
      | (r', target', Ok true) => (r', VProxy handler target', Ok tt)
      | (r', target', Ok false) =>
          (r', VProxy handler target', Throw (Native ProxySetFalsish))
      | (r', target', Throw e) => (r', VProxy handler target', Throw e)
      end
  | _ =>
      match assign_own o prop v with
      | Ok o' => (r, o', Ok tt)
      | Throw e => (r, o, Throw e)
      end
  end.

(** The [set] handler of the proxy [t.editValue(target)], called for
    [proxy[prop] = value]. *)
Definition Proxy_set (t : ty) (target : val) (prop : pkey) (value : val)
  : registry -> handled bool :=
  set_trap (assign target) t target prop value.

(* ================================================================== *)
(** ** The function returned by [TypedFunction.editValue] *)

(** Why [`${v}`] throws, if it does.  An array is joined, its elements
    converted in turn; an object without prototype has no [toString]. *)
Fixpoint to_string_error (v : val) : option native :=
  match v with
  | VPrim (PrSym _) => Some SymbolToString
  | VObj _ ProtoNull _ _ => Some ObjectToPrimitive
  | VArr elems _ =>
      (fix first (es : list (option val)) : option native :=
         match es with
         | [] => None
         | None :: r => first r
         | Some x :: r =>
             match to_string_error x with
             | Some e => Some e
             | None => first r
             end
         end) elems
  | VProxy _ target => to_string_error target
  | _ => None
  end.

(** [new TypeError(`invalid value ${v} of type ${typeof v}, expected
    ${expected.join(" or ")}`)]: the value is converted first, then the
    descriptors, and the first conversion that throws gives the error. *)
Definition invalid_value (v : val) (expected : list ty) : error :=
  match to_string_error v with
  | Some e => Native e
  | None =>
      match print_all expected with
      | Throw e => e
      | Ok _ => InvalidValueError v expected
      end
  end.

(** [new TypeError(`invalid return value ${v} of type ${typeof v}, expected
    ${expected.join(" or ")}`)] *)
Definition invalid_return (v : val) (expected : list ty) : error :=
  match to_string_error v with
  | Some e => Native e
  | None =>
      match print_all expected with
      | Throw e => e
      | Ok _ => InvalidReturnError v expected
      end
  end.

Definition params (overload : list ty * ty) : list ty := fst overload.
Definition returns (overload : list ty * ty) : ty := snd overload.

(** [overload.params[i].isValid(arg)] *)
Definition param_valid (i : nat) (arg : val) (overload : list ty * ty) : result bool :=
  match nth_error (params overload) i with
  | Some p => isValid p arg
  | None => Throw (Native ReadOfUndefined)
  end.

(** [possibleOverloads.map(overload => overload.params[i])], every
    parameter being there once the filter has run. *)
Definition params_at (i : nat) (possibleOverloads : overload_list) : list ty :=
  flat_map (fun overload =>
              match nth_error (params overload) i with
              | Some p => [p]
              | None => []
              end) possibleOverloads.

(** The body of the [for] loop over the arguments, from index [i]. *)
Fixpoint check_arguments (i : nat) (args : list val) (possibleOverloads : overload_list)
  : result overload_list :=
  match args with
  | [] => Ok possibleOverloads
  | arg :: rest =>
      newOverloads <- filter_r (param_valid i arg) possibleOverloads ;;
      match newOverloads with
      | [] => Throw (invalid_value arg (params_at i possibleOverloads))
      | _ => check_arguments (S i) rest newOverloads
      end
  end.

(** What a call of the wrapper did: the calls it made to the wrapped
    function, and what it returned or threw. *)
Record call_outcome := {
  calls : list (val * list val);
  outcome : result val
}.

Section Wrapper.
(** [value.call(this, ...args)]: the behaviour of the wrapped value when
    it is called; a value that is not a function throws. *)
Variable call : val -> list val -> result val.

Definition TypedFunction_call (overloads : overload_list) (this : val)
    (args : list val) : call_outcome :=
  match check_arguments 0 args overloads with
  | Throw e => {| calls := []; outcome := Throw e |}
  | Ok possibleOverloads =>
      {| calls := [(this, args)];
         outcome :=
           returnValue <- call this args ;;
           ok <- some (fun overload => isValid (returns overload) returnValue)
                      possibleOverloads ;;
           if ok then Ok returnValue
           else Throw (invalid_return returnValue (map returns possibleOverloads)) |}
  end.
End Wrapper.

(* ================================================================== *)
(** ** The accessor built by the [typed] decorator *)

(** [set(val)]: the field holds [stored]; the result is the field after
    the call.  A value that is not valid is reported with a message that
    names the descriptor, and ignored. *)
Definition typed_set (ty : ty) (stored : val) (v : val) : val * result unit :=
  match isValid ty v with
  | Throw e => (stored, Throw e)
  | Ok true =>
      match editValue ty v with
      | Ok v' => (v', Ok tt)
      | Throw e => (stored, Throw e)
      end
  | Ok false => (stored, _ <- toString ty ;; Ok tt)
  end.

(** [init(val)].  The message of its error also names the instance and
    the accessor, taken here to be an object with a [toString] and a
    string. *)
Definition typed_init (ty : ty) (v : val) : result val :=
  match v with
  | VUndefined => initialize ty
  | _ =>
      ok <- isValid ty v ;;
      if ok then Ok v
      else Throw match to_string_error v with
                 | Some e => Native e
                 | None =>
                     match toString ty with
                     | Throw e => e
                     | Ok _ => InitializeError v ty
                     end
                 end
  end.

(* ================================================================== *)
(** * Vocabulary of the properties *)

(** Hints used in the examples. *)
Definition HNumber : hint := HMarker MNumber.

Definition HString : hint := HMarker MString.

Definition Type_number : ty := Base BNumber.

Definition Type_string : ty := Base BString.

(** The descriptor a factory call returns. *)
Definition returned {A} (c : registry * result A) : result A := snd c.

(* ------------------------------------------------------------------ *)
(** ** Overload elimination, in the words of the specification *)

(** [t] validates [v]. *)
Definition accepts (t : ty) (v : val) : bool :=
  match isValid t v with
  | Ok true => true
  | _ => false
  end.

(** The overload has a parameter descriptor at position [i] and it
    validates [arg]. *)
Definition accepts_at (i : nat) (arg : val) (overload : list ty * ty) : bool :=
  match nth_error (params overload) i with
  | Some p => accepts p arg
  | None => false
  end.

(** The overload validates each of [args] at its position, the first of
    them being at position [i]. *)
Fixpoint accepts_from (i : nat) (args : list val) (overload : list ty * ty) : bool :=
  match args with
  | [] => true
  | arg :: rest => accepts_at i arg overload && accepts_from (S i) rest overload
  end.

(** The overloads still possible once [args] have been looked at. *)
Definition survivors (overloads : overload_list) (args : list val) : overload_list :=
  filter (accepts_from 0 args) overloads.

(** The check of [arg] at position [i] has an answer: the overload
    declares a parameter there, and its descriptor does not throw. *)
Definition answers (i : nat) (arg : val) (overload : list ty * ty) : bool :=
  match param_valid i arg overload with
  | Ok _ => true
  | Throw _ => false
  end.

(** Every check the wrapper makes on [args], the first of them being at
    position [i], has an answer: at each position, each overload that has
    validated the arguments before it answers. *)
Fixpoint answered (i : nat) (args : list val) (possible : overload_list) : bool :=
  match args with
  | [] => true
  | arg :: rest =>
      forallb (answers i arg) possible
      && answered (S i) rest (filter (accepts_at i arg) possible)
  end.

(** The overload with its parameters from position [n] on forgotten. *)
Definition truncate (n : nat) (overload : list ty * ty) : list ty * ty :=
  (firstn n (params overload), returns overload).

(** The call [args] is turned down at position [k]: some overload
    validates the arguments before [k], none validates them up to [k]. *)
Definition rejected_at (overloads : overload_list) (args : list val) (k : nat) : Prop :=
  k < List.length args
  /\ survivors overloads (firstn k args) <> []
  /\ survivors overloads (firstn (S k) args) = [].

(** The overloads of [func(Number, Number, _=>Number)]. *)
Definition sub_overload : list ty * ty := ([Type_number; Type_number], Type_number).

Definition sub_overloads : overload_list := [sub_overload].

(** [func(Number, Number, _=>Number, String, String, _=>String)] *)
Definition add_hints : list hint :=
  [HNumber; HNumber; HArrow 1 HNumber; HString; HString; HArrow 2 HString].

(** Its overloads. *)
Definition add_overloads : overload_list :=
  [sub_overload; ([Type_string; Type_string], Type_string)].

(** The overloads of
    [func(Number, _=>Number, Number, Number, Number, _=>Number)]. *)
Definition mixed_overloads : overload_list :=
  [([Type_number], Type_number);
   ([Type_number; Type_number; Type_number], Type_number)].

(* ------------------------------------------------------------------ *)
(** ** Collections and their keys *)

(** The element of an array at an index, a hole or a position past the
    end being no element. *)
Definition element (elems : list (option val)) (i : nat) : option val :=
  match nth_error elems i with
  | Some e => e
  | None => None
  end.

(** What reading a key gives. *)
Definition found (o : option val) : val :=
  match o with
  | Some x => x
  | None => VUndefined
  end.

(** The collection is itself the proxy of another. *)
Definition is_proxy (v : val) : bool :=
  match v with
  | VProxy _ _ => true
  | _ => false
  end.

(** The descriptors whose [editValue] wraps a collection. *)
Definition collection_type (t : ty) : bool :=
  match t with
  | ArrayOf _ _ | TupleOf _ _ | RecordOf _ _ => true
  | _ => false
  end.

(** The descriptor declared for a key: the element descriptor of an array,
    the descriptor at a position of a tuple, the descriptor of a declared
    key of a record. *)
Definition declared_at (t : ty) (prop : pkey) : option ty :=
  match t with
  | ArrayOf _ type => Some type
  | TupleOf _ types =>
      match prop with
      | PIdx i => nth_error types i
      | _ => None
      end
  | RecordOf _ types => lookup prop types
  | _ => None
  end.

(* ------------------------------------------------------------------ *)
(** ** Calls of the factories *)

(** [oneOf({a: Number}, {b: _null(String)})] *)
Definition two_records : M ty :=
  n <~ _null HString ;;
  oneOf [HObj 1 ProtoObject [(PName "a", HNumber)];
         HObj 2 ProtoObject [(PName "b", HType n)]].

(** Two calls in a row, the second on the registries the first left. *)
Definition twice {A} (first second : M A) : result A * result A :=
  let (r, a) := first initial in (a, returned (second r)).

(** [a === b] for the results of two calls. *)
Definition same_result (p : result ty * result ty) : option bool :=
  match p with
  | (Ok a, Ok b) => Some (same_ty a b)
  | _ => None
  end.

(* ------------------------------------------------------------------ *)
(** ** The callbacks of the validity checks *)

(** The callback of [TupleOf.isValid], along the array. *)
Fixpoint TupleOf_every (types : list ty) (es : list (option val)) : result bool :=
  match types with
  | [] => Ok (forallb (fun e => match e with None => true | Some _ => false end) es)
  | t' :: ts' =>
      match es with
      | [] => Ok true
      | None :: es' => TupleOf_every ts' es'
      | Some x :: es' =>
          b <- isValid t' x ;; if b then TupleOf_every ts' es' else Ok false
      end
  end.

(** The callback of [RecordOf.isValid], at one key. *)
Definition RecordOf_at_key (types : list (pkey * ty)) (v : val) (k : pkey) : result bool :=
  match lookup k types with
  | Some t => isValid t (get v k)
  | None => Ok false
  end.

(** A hint that is not an array literal or a plain object literal. *)
Definition simple_hint (h : hint) : bool :=
  match h with
  | HArray _ _ => false
  | HObj _ p _ => negb (plain p)
  | _ => true
  end.

(** The descriptor is a union. *)
Definition is_union (t : ty) : bool :=
  match t with
  | OneOf _ _ => true
  | _ => false
  end.

(* ================================================================== *)
(** * Vocabulary of the properties of the whole engine *)

(* ------------------------------------------------------------------ *)
(** ** Induction on descriptors and on hints *)

(** Induction on a descriptor, with the hypothesis for every descriptor it
    is built from. *)
Section TyInduction.
Variable P : ty -> Prop.
Hypothesis PBase : forall b, P (Base b).
Hypothesis PInstanceOf : forall id c, P (InstanceOf id c).
Hypothesis PPrimitive : forall id p, P (Primitive id p).
Hypothesis PInstance : forall id l p, P (Instance id l p).
Hypothesis POneOf : forall id ts, Forall P ts -> P (OneOf id ts).
Hypothesis PArrayOf : forall id t, P t -> P (ArrayOf id t).
Hypothesis PTupleOf : forall id ts, Forall P ts -> P (TupleOf id ts).
Hypothesis PRecordOf : forall id fs, Forall (fun e => P (snd e)) fs -> P (RecordOf id fs).
Hypothesis PNullable : forall id t, P t -> P (Nullable id t).
Hypothesis PTypedFunction : forall id ovs,
  Forall (fun o => Forall P (fst o) /\ P (snd o)) ovs -> P (TypedFunction id ovs).

Fixpoint ty_induction (t : ty) : P t :=
  match t with
  | Base b => PBase b
  | InstanceOf id c => PInstanceOf id c
  | Primitive id p => PPrimitive id p
  | Instance id l p => PInstance id l p
  | OneOf id ts =>
      POneOf id ts
        ((fix all (l : list ty) : Forall P l :=
            match l with
            | [] => Forall_nil P
            | x :: r => Forall_cons x (ty_induction x) (all r)
            end) ts)
  | ArrayOf id t' => PArrayOf id t' (ty_induction t')
  | TupleOf id ts =>
      PTupleOf id ts
        ((fix all (l : list ty) : Forall P l :=
            match l with
            | [] => Forall_nil P
            | x :: r => Forall_cons x (ty_induction x) (all r)
            end) ts)
  | RecordOf id fs =>
      PRecordOf id fs
        ((fix all (l : list (pkey * ty)) : Forall (fun e => P (snd e)) l :=
            match l with
            | [] => Forall_nil _
            | x :: r => Forall_cons x (ty_induction (snd x)) (all r)
            end) fs)
  | Nullable id t' => PNullable id t' (ty_induction t')
  | TypedFunction id ovs =>
      PTypedFunction id ovs
        ((fix all (l : list (list ty * ty))
            : Forall (fun o => Forall P (fst o) /\ P (snd o)) l :=
            match l with
            | [] => Forall_nil _
            | x :: r =>
                Forall_cons x
                  (conj ((fix params (l : list ty) : Forall P l :=
                            match l with
                            | [] => Forall_nil P
                            | y :: q => Forall_cons y (ty_induction y) (params q)
                            end) (fst x))
                        (ty_induction (snd x)))
                  (all r)
            end) ovs)
  end.
End TyInduction.

(** Induction on a hint, with the hypothesis for the items of an array
    literal and for the values of an object literal. *)
Section HintInduction.
Variable P : hint -> Prop.
Hypothesis PType : forall t, P (HType t).
Hypothesis PNull : P HNull.
Hypothesis PUndefined : P HUndefined.
Hypothesis PMarker : forall m, P (HMarker m).
Hypothesis PPrim : forall p, P (HPrim p).
Hypothesis PArray : forall l items, Forall P items -> P (HArray l items).
Hypothesis PObj : forall l p fields,
  Forall (fun e => P (snd e)) fields -> P (HObj l p fields).
Hypothesis PClass : forall c, P (HClass c).
Hypothesis PArrow : forall l h, P h -> P (HArrow l h).

Fixpoint hint_induction (h : hint) : P h :=
  match h with
  | HType t => PType t
  | HNull => PNull
  | HUndefined => PUndefined
  | HMarker m => PMarker m
  | HPrim p => PPrim p
  | HArray l items =>
      PArray l items
        ((fix all (xs : list hint) : Forall P xs :=
            match xs with
            | [] => Forall_nil P
            | x :: r => Forall_cons x (hint_induction x) (all r)
            end) items)
  | HObj l p fields =>
      PObj l p fields
        ((fix all (xs : list (pkey * hint)) : Forall (fun e => P (snd e)) xs :=
            match xs with
            | [] => Forall_nil _
            | x :: r => Forall_cons x (hint_induction (snd x)) (all r)
            end) fields)
  | HClass c => PClass c
  | HArrow l h' => PArrow l h' (hint_induction h')
  end.
End HintInduction.

(* ------------------------------------------------------------------ *)
(** ** Defaults and wrapping *)

(** [initialize()] never reaches [Type.null], the descriptor of a class
    or that of the literal [NaN]: the initial value of the first is
    [null], which it does not validate, a class descriptor is built without
    an initial value, and [NaN] is not equal to itself. *)
Fixpoint initializable (t : ty) : bool :=
  match t with
  | Base b => negb (base_eqb b BNull)
  | InstanceOf _ _ => false
  | Primitive _ value =>
      match value with
      | PrNaN => false
      | _ => true
      end
  | OneOf _ subTypes =>
      match subTypes with
      | [] => false
      | t' :: _ => initializable t'
      end
  | TupleOf _ types => forallb initializable types
  | RecordOf _ types => forallb (fun e => initializable (snd e)) types
  | _ => true
  end.

(** The validity check never compares the value itself with an object by
    identity: the descriptor is not an [Instance], nor a union or a
    nullable of one.  (The elements and properties of the value are
    another matter: wrapping the value does not change them.) *)
Fixpoint proxy_transparent (t : ty) : bool :=
  match t with
  | Instance _ _ _ => false
  | OneOf _ subTypes => forallb proxy_transparent subTypes
  | Nullable _ type => proxy_transparent type
  | _ => true
  end.

(** The descriptors a collection declares for its keys are
    [proxy_transparent]. *)
Definition children_transparent (t : ty) : bool :=
  match t with
  | ArrayOf _ type => proxy_transparent type
  | TupleOf _ types => forallb proxy_transparent types
  | RecordOf _ types => forallb (fun e => proxy_transparent (snd e)) types
  | _ => true
  end.

(** Not a union, and not the nullable of one. *)
Fixpoint union_free (t : ty) : bool :=
  match t with
  | OneOf _ _ => false
  | Nullable _ type => union_free type
  | _ => true
  end.

Definition is_null (v : val) : bool :=
  match v with
  | VNull => true
  | _ => false
  end.

(** The value the field is initialised with is one to keep: either it is
    given, or the descriptor has a default that it validates. *)
Definition defaults_to_valid (ty : ty) (v : val) : bool :=
  match v with
  | VUndefined => initializable ty
  | _ => true
  end.

(** [types.map(t => t.initialize())] *)
Fixpoint initialize_all (types : list ty) : result (list val) :=
  match types with
  | [] => Ok []
  | t :: ts => x <- initialize t ;; xs <- initialize_all ts ;; Ok (x :: xs)
  end.

(** [this.#types[key].initialize()] *)
Definition initialize_at (types : list (pkey * ty)) (k : pkey) : result val :=
  match lookup k types with
  | Some t => initialize t
  | None => Throw (Native ReadOfUndefined)
  end.

(** [keys.map(key => [key, this.#types[key].initialize()])] *)
Fixpoint initialize_keys (types : list (pkey * ty)) (ks : list pkey)
  : result (list (pkey * val)) :=
  match ks with
  | [] => Ok []
  | k :: ks' =>
      x <- initialize_at types k ;; xs <- initialize_keys types ks' ;; Ok ((k, x) :: xs)
  end.

(* ------------------------------------------------------------------ *)
(** ** Sequences of assignments *)

(** The field of a typed accessor after the assignments [vs], in turn,
    whether they are stored, ignored or throw. *)
Definition typed_sets (ty : ty) (stored : val) (vs : list val) : val :=
  fold_left (fun s v => fst (typed_set ty s v)) vs stored.

(** The registries and the target of the proxy [t.editValue(target)]
    after the writes [proxy[prop] = v], in turn, whether the handler
    accepts them, refuses them or throws. *)
Fixpoint Proxy_sets (t : ty) (target : val) (writes : list (pkey * val))
    (r : registry) : registry * val :=
  match writes with
  | [] => (r, target)
  | (prop, v) :: rest =>
      match Proxy_set t target prop v r with
      | (r', target', _) => Proxy_sets t target' rest r'
      end
  end.

(** Every own property of the object is enumerable. *)
Definition all_enumerable (o : val) : bool :=
  match o with
  | VObj _ _ _ (_ :: _) => false
  | _ => true
  end.

(** [[...obj]] turns a hole into an element. *)
Definition fill (e : option val) : option val :=
  Some match e with Some x => x | None => VUndefined end.

(** How the copy that the handler of a union validates relates to the
    object after the write: the copy is a new array or a new plain object;
    every element of the array is an element of the copy, every key of the
    object is a key of the copy and reads the same. *)
Definition written_copy (copy after : val) : Prop :=
  (exists elemsC namedC elems named,
      copy = VArr elemsC namedC /\ after = VArr elems named
      /\ forall i x, element elems i = Some x -> element elemsC i = Some x)
  \/ (exists propsC oid p props,
        copy = VObj None ProtoObject propsC [] /\ after = VObj oid p props []
        /\ forall k, In k (map fst props) ->
                     In k (map fst propsC) /\ lookup k propsC = lookup k props).

(* ------------------------------------------------------------------ *)
(** ** Sets of descriptors *)

(** [l] has a member identical to [t]. *)
Definition has_member (l : list ty) (t : ty) : bool := existsb (same_ty t) l.

(** Every member of one list is identical to a member of the other. *)
Definition same_members (a b : list ty) : bool :=
  forallb (has_member b) a && forallb (has_member a) b.

(** [set.add(t)] *)
Definition add_member (s : list ty) (t : ty) : list ty :=
  if existsb (same_ty t) s then s else s ++ [t].

(** What [OneOf.getFor] takes from a descriptor: the members of a union,
    or the descriptor itself. *)
Definition members_of (t : ty) : list ty :=
  match t with
  | OneOf _ subTypes => subTypes
  | _ => [t]
  end.

Definition flat_members (ts : list ty) : list ty := List.concat (map members_of ts).

(** The descriptor of a hint that [Type.getFor] answers without looking
    at a registry: a descriptor, [null], [undefined] or a built-in
    constructor. *)
Definition descriptor_of (h : hint) : option ty :=
  match h with
  | HType t => Some t
  | HNull => Some (Base BNull)
  | HUndefined => Some (Base BUndefined)
  | HMarker m => Some (marker_type m)
  | _ => None
  end.

(** The end of [OneOf.getFor], once the set of members is built: the
    search of [OneOf.#known], and the registration. *)
Definition OneOf_registered (types : list ty) : M ty :=
  known <~ reading OneOf_known ;;
  match find (fun e => equals types (fst e)) known with
  | Some (_, value) => ret value
  | None =>
      id <~ fresh ;;
      let t := OneOf id types in
      _ <~ writing (set_OneOf_known (fun k => k ++ [(types, t)])) ;;
      ret t
  end.

Definition OneOf_of_set (types : list ty) : M ty :=
  match types with
  | [t] => ret t
  | _ => OneOf_registered types
  end.

(** The end of [ArrayOf.getFor], once the element descriptor is known. *)
Definition ArrayOf_registered (t : ty) : M ty :=
  known <~ reading ArrayOf_known ;;
  match assoc_get same_ty t known with
  | Some a => ret a
  | None =>
      id <~ fresh ;;
      let a := ArrayOf id t in
      _ <~ writing (set_ArrayOf_known (assoc_set same_ty t a)) ;;
      ret a
  end.

(** The end of [Nullable.getFor]. *)
Definition Nullable_registered (t : ty) : M ty :=
  known <~ reading Nullable_known ;;
  match assoc_get same_ty t known with
  | Some n => ret n
  | None =>
      id <~ fresh ;;
      let n := Nullable id t in
      _ <~ writing (set_Nullable_known (assoc_set same_ty t n)) ;;
      ret n
  end.

(* ------------------------------------------------------------------ *)
(** ** Shapes and function hints *)

(** [typeof h === "function"]: a built-in constructor, a class or an arrow
    function. *)
Definition function_hint (h : hint) : bool := jstype_eqb (typeof_hint h) TyFunction.

(** [typeof hint === "function" && hint.prototype === undefined] *)
Definition is_arrow (h : hint) : bool :=
  match h with
  | HArrow _ _ => true
  | _ => false
  end.

(** The body of the loop of [deepEqual] over the keys of [obj1]. *)
Definition deepEqual_at (fields : list (pkey * hint)) (obj2 : hint) (k : pkey)
  : result bool :=
  match lookup k fields with
  | Some x => deepEqual x (get_hint obj2 k)
  | None => Ok true
  end.

(** [type(types[key])] in the constructor of [RecordOf]. *)
Definition record_field_type (type1 : hint -> M ty) (fields : list (pkey * hint))
    (key : pkey) : M ty :=
  match lookup key fields with
  | Some x => type1 x
  | None => ret (Base BUndefined)
  end.

(* ------------------------------------------------------------------ *)
(** ** Growth of the registries *)

(** [l'] is [l] with entries added at the end, each satisfying [P]. *)
Definition appended {A} (P : A -> Prop) (l l' : list A) : Prop :=
  exists more, l' = l ++ more /\ Forall P more.

(** The descriptor [TupleOf.#known] holds under the hints [path]. *)
Definition tuple_known (m : tuple_map) (path : list hint) : option ty :=
  match tm_walk path m with
  | Some node => tm_leaf node
  | None => None
  end.

(** The registries [r'] hold what [r] holds, and more: no entry was
    removed or replaced, and each entry added since maps its key to a
    descriptor built from that key.  [RecordOf.#known], which is searched
    with [deepEqual], is left out. *)
Record extends (r r' : registry) : Prop := {
  ext_next : next_id r <= next_id r';
  ext_Type :
    appended (fun e => exists id, snd e = InstanceOf id (fst e))
             (Type_known r) (Type_known r');
  ext_Primitive :
    appended (fun e => exists id, snd e = Primitive id (fst e))
             (Primitive_known r) (Primitive_known r');
  ext_Instance :
    appended (fun e => exists id p, snd e = Instance id (fst e) p)
             (Instance_known r) (Instance_known r');
  ext_OneOf :
    appended (fun e => exists id, snd e = OneOf id (fst e))
             (OneOf_known r) (OneOf_known r');
  ext_ArrayOf :
    appended (fun e => exists id, snd e = ArrayOf id (fst e))
             (ArrayOf_known r) (ArrayOf_known r');
  ext_TupleOf :
    forall path t, tuple_known (TupleOf_known r) path = Some t ->
                   tuple_known (TupleOf_known r') path = Some t;
  ext_Nullable :
    appended (fun e => exists id, snd e = Nullable id (fst e))
             (Nullable_known r) (Nullable_known r');
  ext_TypedFunction :
    appended (fun e => exists id, snd e = TypedFunction id (fst e))
             (TypedFunction_known r) (TypedFunction_known r')
}.

(** A computation on the registries only adds to them, also when it
    throws. *)
Definition grows {A} (c : M A) : Prop := forall r, extends r (fst (c r)).

(** Once the call has returned a descriptor, it returns that descriptor,
    and registers nothing, whatever has been registered since. *)
Definition stable (c : M ty) : Prop :=
  forall r r1 t, c r = (r1, Ok t) ->
  forall r2, extends r1 r2 -> c r2 = (r2, Ok t).

(** What [===] looks at in a hint. *)
Inductive hint_ref :=
| RType (x : ref) | RNull | RUndefined | RMarker (m : marker) | RPrim (p : prim)
| RArray (l : loc) | RObj (l : loc) | RClass (c : nat) | RArrow (l : loc).

Definition hint_identity (h : hint) : hint_ref :=
  match h with
  | HType t => RType (ty_ref t)
  | HNull => RNull
  | HUndefined => RUndefined
  | HMarker m => RMarker m
  | HPrim p => RPrim p
  | HArray l _ => RArray l
  | HObj l _ _ => RObj l
  | HClass c => RClass c
  | HArrow l _ => RArrow l
  end.

(** Two lists of hints that [TupleOf.#known] does not tell apart. *)
Fixpoint same_path (q p : list hint) : bool :=
  match q, p with
  | [], [] => true
  | a :: q', b :: p' => same_hint a b && same_path q' p'
  | _, _ => false
  end.

(** A call of one of the exported factories, or of [subtypeAt], which the
    handler of a union calls. *)
Inductive factory_call :=
| call_type (typeHints : list hint)
| call_arrayOf (typeHints : list hint)
| call_tupleOf (typeHints : list hint)
| call_recordOf (shape : hint)
| call_null (typeHint : hint)
| call_func (typeHints : list hint)
| call_subtypeAt (t : ty) (index : pkey).

(** The registries after the call, whether it returned or threw. *)
Definition after_call (c : factory_call) (r : registry) : registry :=
  match c with
  | call_type hs => fst (type hs r)
  | call_arrayOf hs => fst (arrayOf hs r)
  | call_tupleOf hs => fst (tupleOf hs r)
  | call_recordOf h => fst (recordOf h r)
  | call_null h => fst (_null h r)
  | call_func hs => fst (func hs r)
  | call_subtypeAt t index => fst (subtypeAt t index r)
  end.

Definition after_calls (cs : list factory_call) (r : registry) : registry :=
  fold_left (fun r c => after_call c r) cs r.

(** The registries can be those of a running program: they hold what
    calls of the factories have added since the module was loaded. *)
Definition reachable (r : registry) : Prop := extends initial r.

(* ================================================================== *)
(** * Properties *)

(* ------------------------------------------------------------------ *)
(** ** Nullable *)

(** C7. For every inner descriptor [T] and every value [v],
    [Nullable(T).isValid(v)] is true exactly when [v] is [null], [v] is
    [undefined], or [T.isValid(v)] is true; [initialize()] returns [null];
    [editValue] returns its argument.  [_null(Number)] accepts [null],
    [undefined] and [5] and rejects ["5"]. *)
Theorem C7_nullable :
  (forall id T v,
      (isValid (Nullable id T) v = Ok true <->
       v = VNull \/ v = VUndefined \/ isValid T v = Ok true)
      /\ initialize (Nullable id T) = Ok VNull
      /\ editValue (Nullable id T) v = Ok v)
  /\ (exists id,
        returned (_null HNumber initial) = Ok (Nullable id Type_number)
        /\ isValid (Nullable id Type_number) VNull = Ok true
        /\ isValid (Nullable id Type_number) VUndefined = Ok true
        /\ isValid (Nullable id Type_number) (VNum 5) = Ok true
        /\ isValid (Nullable id Type_number) (VStr "5") = Ok false).
Proof.
  split.
  - intros id T v. repeat split.
    + intros H. destruct v; simpl in H; auto.
    + intros [-> | [-> | H]]; try reflexivity.
      destruct v; simpl; auto.
  - exists 0. repeat split.
Qed.

(* ------------------------------------------------------------------ *)
(** ** The null descriptor *)

(** C8. [type()] with no hint returns [Type.null], whatever the registries
    hold and without changing them; validating any value against it throws
    the library's TypeError, so the typed accessor's setter and its
    initialiser with a value throw, and so does a write through the proxy
    of an array of it. *)
Theorem C8_null_type :
  (forall r, type [] r = (r, Ok (Base BNull)))
  /\ (forall v, isValid (Base BNull) v = Throw NullTypeError)
  /\ (forall stored v, typed_set (Base BNull) stored v = (stored, Throw NullTypeError))
  /\ (forall v, typed_init (Base BNull) v =
                match v with VUndefined => Ok VNull | _ => Throw NullTypeError end)
  /\ (forall id target prop v r,
        Proxy_set (ArrayOf id (Base BNull)) target prop v r
        = (r, target, Throw NullTypeError)).
Proof.
  repeat split; reflexivity.
Qed.

(* ------------------------------------------------------------------ *)
(** ** Typed functions *)

Section FilterLemmas.
Context {A : Type}.

Lemma filter_r_total (f : A -> result bool) (g : A -> bool) (l : list A) :
  (forall x, In x l -> f x = Ok (g x)) ->
  filter_r f l = Ok (filter g l).
Proof.
  induction l as [|x l IH]; intros H; simpl.
  - reflexivity.
  - rewrite (H x (or_introl eq_refl)). simpl.
    rewrite IH by (intros y Hy; apply H; right; exact Hy).
    simpl. destruct (g x); reflexivity.
Qed.

Lemma filter_r_map {B : Type} (f : B -> result bool) (f' : A -> result bool)
    (h : A -> B) (l : list A) :
  (forall x, f (h x) = f' x) ->
  filter_r f (map h l) =
  match filter_r f' l with
  | Ok l' => Ok (map h l')
  | Throw e => Throw e
  end.
Proof.
  intros H. induction l as [|x l IH]; simpl.
  - reflexivity.
  - rewrite H. destruct (f' x) as [b|e]; simpl; [|reflexivity].
    rewrite IH. destruct (filter_r f' l) as [l'|e]; simpl; [|reflexivity].
    destruct b; reflexivity.
Qed.

Lemma some_map {B : Type} (f : B -> result bool) (h : A -> B) (l : list A) :
  some f (map h l) = some (fun x => f (h x)) l.
Proof.
  induction l as [|x l IH]; simpl.
  - reflexivity.
  - destruct (f (h x)) as [[|]|e]; simpl; auto.
Qed.

Lemma filter_filter (p q : A -> bool) (l : list A) :
  filter q (filter p l) = filter (fun x => p x && q x) l.
Proof.
  induction l as [|x l IH]; simpl.
  - reflexivity.
  - destruct (p x); simpl; [destruct (q x)|]; rewrite IH; reflexivity.
Qed.

Lemma filter_all (l : list A) : filter (fun _ => true) l = l.
Proof. induction l as [|x l IH]; simpl; congruence. Qed.
End FilterLemmas.

Lemma nth_error_firstn_lt {A} (l : list A) : forall n i,
  i < n -> nth_error (firstn n l) i = nth_error l i.
Proof.
  induction l as [|x l IH]; intros n i Hlt.
  - rewrite firstn_nil. reflexivity.
  - destruct n as [|n]; [lia|]. destruct i as [|i]; simpl.
    + reflexivity.
    + apply IH. lia.
Qed.

Lemma param_valid_truncate n i arg overload :
  i < n -> param_valid i arg (truncate n overload) = param_valid i arg overload.
Proof.
  intros Hlt. unfold param_valid, truncate, params. simpl.
  rewrite nth_error_firstn_lt by exact Hlt. reflexivity.
Qed.

Lemma params_at_truncate n i possible :
  i < n -> params_at i (map (truncate n) possible) = params_at i possible.
Proof.
  intros Hlt. unfold params_at. induction possible as [|o l IH].
  - reflexivity.
  - cbn [map flat_map]. rewrite IH.
    unfold truncate at 1, params at 1. cbn [fst].
    rewrite nth_error_firstn_lt by exact Hlt. reflexivity.
Qed.

Lemma check_arguments_truncate n : forall args i possible,
  i + List.length args <= n ->
  check_arguments i args (map (truncate n) possible) =
  match check_arguments i args possible with
  | Ok possible' => Ok (map (truncate n) possible')
  | Throw e => Throw e
  end.
Proof.
  induction args as [|arg rest IH]; intros i possible Hle; simpl in *.
  - reflexivity.
  - rewrite (filter_r_map (param_valid i arg) (param_valid i arg) (truncate n))
      by (intros o; apply param_valid_truncate; lia).
    destruct (filter_r (param_valid i arg) possible) as [kept|e]; simpl; [|reflexivity].
    destruct kept as [|o kept]; simpl.
    + rewrite params_at_truncate by lia. reflexivity.
    + apply (IH (S i) (o :: kept)). lia.
Qed.

Lemma param_valid_answers i arg overload :
  answers i arg overload = true ->
  param_valid i arg overload = Ok (accepts_at i arg overload).
Proof.
  unfold answers, accepts_at, accepts, param_valid.
  destruct (nth_error (params overload) i) as [p|]; [|discriminate].
  destruct (isValid p arg) as [[|]|e]; [reflexivity | reflexivity | discriminate].
Qed.

(** One step of the loop, when every check at the position has an
    answer. *)
Lemma check_arguments_step i arg possible :
  forallb (answers i arg) possible = true ->
  filter_r (param_valid i arg) possible = Ok (filter (accepts_at i arg) possible).
Proof.
  intros H. rewrite forallb_forall in H.
  apply filter_r_total. intros o Ho. apply param_valid_answers, H, Ho.
Qed.

(** One step of the loop, when a check at the position has no answer: the
    filter throws the error of the first such check. *)
Lemma check_arguments_stop i arg : forall possible,
  forallb (answers i arg) possible = false ->
  exists overload e,
    In overload possible
    /\ param_valid i arg overload = Throw e
    /\ filter_r (param_valid i arg) possible = Throw e.
Proof.
  induction possible as [|o l IH]; intros H; [discriminate|].
  cbn [forallb] in H. cbn [filter_r].
  unfold answers at 1 in H.
  destruct (param_valid i arg o) as [b|e] eqn:E.
  - destruct (IH H) as (o' & e & Hin & He & Hf).
    exists o', e. split; [right; exact Hin|]. split; [exact He|].
    cbn [bind]. rewrite Hf. reflexivity.
  - exists o, e. split; [left; reflexivity|]. split; [exact E | reflexivity].
Qed.

Lemma answered_nil : forall args i, answered i args [] = true.
Proof. induction args as [|arg rest IH]; intros i; simpl; auto. Qed.

(** The loop keeps exactly the overloads that validate every argument. *)
Lemma check_arguments_survive : forall args i possible,
  answered i args possible = true ->
  filter (accepts_from i args) possible <> [] ->
  check_arguments i args possible = Ok (filter (accepts_from i args) possible).
Proof.
  induction args as [|arg rest IH]; intros i possible Hdef Hne.
  - simpl. rewrite filter_all. reflexivity.
  - cbn [answered] in Hdef. apply andb_true_iff in Hdef. destruct Hdef as [Hhere Hdef'].
    pose proof (check_arguments_step i arg possible Hhere) as Hf.
    assert (E : filter (accepts_from i (arg :: rest)) possible
                = filter (accepts_from (S i) rest) (filter (accepts_at i arg) possible))
      by (rewrite filter_filter; reflexivity).
    rewrite E in Hne |- *.
    cbn [check_arguments]. rewrite Hf. cbn [bind].
    destruct (filter (accepts_at i arg) possible) as [|o kept] eqn:K.
    + exfalso. apply Hne. reflexivity.
    + apply IH; assumption.
Qed.

(** The loop throws at the first position that leaves no overload. *)
Lemma check_arguments_reject : forall args i possible k,
  answered i args possible = true ->
  k < List.length args ->
  filter (accepts_from i (firstn k args)) possible <> [] ->
  filter (accepts_from i (firstn (S k) args)) possible = [] ->
  check_arguments i args possible =
  Throw (invalid_value (nth k args VUndefined)
           (params_at (i + k) (filter (accepts_from i (firstn k args)) possible))).
Proof.
  induction args as [|arg rest IH]; intros i possible k Hdef Hk Hne Hempty.
  - simpl in Hk. lia.
  - cbn [answered] in Hdef. apply andb_true_iff in Hdef. destruct Hdef as [Hhere Hdef'].
    pose proof (check_arguments_step i arg possible Hhere) as Hf.
    cbn [check_arguments]. rewrite Hf. cbn [bind].
    destruct k as [|k].
    + cbn [firstn accepts_from] in Hempty, Hne |- *.
      assert (E : filter (accepts_at i arg) possible = []).
      { rewrite <- Hempty. apply filter_ext. intros o.
        rewrite andb_true_r. reflexivity. }
      rewrite E, filter_all, Nat.add_0_r. reflexivity.
    + assert (E : forall l, filter (accepts_from i (arg :: l)) possible
                  = filter (accepts_from (S i) l) (filter (accepts_at i arg) possible))
        by (intros l; rewrite filter_filter; reflexivity).
      change (firstn (S k) (arg :: rest)) with (arg :: firstn k rest) in Hne |- *.
      change (firstn (S (S k)) (arg :: rest)) with (arg :: firstn (S k) rest) in Hempty.
      rewrite E in Hne, Hempty |- *.
      destruct (filter (accepts_at i arg) possible) as [|o kept] eqn:K.
      * exfalso. apply Hne. reflexivity.
      * simpl in Hk.
        rewrite (IH (S i) (o :: kept) k Hdef' ltac:(lia) Hne Hempty).
        cbn [nth]. replace (i + S k) with (S i + k) by lia. reflexivity.
Qed.

(** The loop stops at the first check that has no answer, with the error
    of that check. *)
Lemma check_arguments_unanswered : forall args i possible,
  answered i args possible = false ->
  exists k overload e,
    k < List.length args
    /\ In overload possible
    /\ param_valid (i + k) (nth k args VUndefined) overload = Throw e
    /\ check_arguments i args possible = Throw e.
Proof.
  induction args as [|arg rest IH]; intros i possible H; [discriminate|].
  cbn [answered] in H. cbn [check_arguments].
  destruct (forallb (answers i arg) possible) eqn:Hhere.
  - cbn [andb] in H.
    rewrite (check_arguments_step i arg possible Hhere). cbn [bind].
    destruct (filter (accepts_at i arg) possible) as [|o kept] eqn:K.
    + rewrite answered_nil in H. discriminate.
    + destruct (IH (S i) (o :: kept) H) as (k & o' & e & Hk & Hin & He & Hc).
      exists (S k), o', e. split; [simpl; lia|]. split.
      * rewrite <- K in Hin. apply filter_In in Hin. apply Hin.
      * split; [|exact Hc]. cbn [nth].
        replace (i + S k) with (S i + k) by lia. exact He.
  - destruct (check_arguments_stop i arg possible Hhere) as (o & e & Hin & He & Hf).
    exists 0, o, e. split; [simpl; lia|]. split; [exact Hin|].
    rewrite Nat.add_0_r. cbn [nth]. split; [exact He|].
    rewrite Hf. reflexivity.
Qed.

(** C5, as amended.  The wrapper keeps, argument after argument, the
    overloads whose parameter descriptor at that position validates the
    argument.  As long as every check it makes has an answer: when position
    [k] is the first to leave no overload, it throws, without calling the
    wrapped function, the TypeError that carries the argument received and
    the descriptors at [k] of the overloads that were still possible (or
    the engine's error when the argument or one of these descriptors cannot
    be converted to a string); otherwise it calls the wrapped function
    once, with the same receiver and arguments, and returns its result
    unless no surviving overload's return descriptor validates it, which is
    the TypeError for the return value.  A check without an answer (an
    overload still possible that declares no parameter at the position, a
    descriptor whose check throws) ends the call with its error, the
    wrapped function not being called.  With
    [func(Number, Number, _=>Number, String, String, _=>String)], built
    when no function type is registered: [(1,2)] returns the number
    computed, [("a","b")] the string, and [(1,"b")] is turned down at
    position 1. *)
Theorem C5_overload_elimination :
  (forall call overloads this args,
      answered 0 args overloads = true ->
      (forall k, rejected_at overloads args k ->
         TypedFunction_call call overloads this args =
         {| calls := [];
            outcome := Throw (invalid_value (nth k args VUndefined)
                                (params_at k (survivors overloads (firstn k args)))) |})
      /\ (survivors overloads args <> [] ->
          TypedFunction_call call overloads this args =
          {| calls := [(this, args)];
             outcome :=
               returnValue <- call this args ;;
               ok <- some (fun overload => isValid (returns overload) returnValue)
                          (survivors overloads args) ;;
               if ok then Ok returnValue
               else Throw (invalid_return returnValue
                             (map returns (survivors overloads args))) |}))
  /\ (forall call overloads this args,
        answered 0 args overloads = false ->
        exists k overload e,
          k < List.length args
          /\ In overload overloads
          /\ param_valid k (nth k args VUndefined) overload = Throw e
          /\ TypedFunction_call call overloads this args =
             {| calls := []; outcome := Throw e |})
  /\ (forall r, TypedFunction_known r = [] ->
        exists r' id, func add_hints r = (r', Ok (TypedFunction id add_overloads)))
  /\ (forall call this v,
        call this [VNum 1; VNum 2] = Ok v -> typeof v = TyNumber ->
        TypedFunction_call call add_overloads this [VNum 1; VNum 2] =
        {| calls := [(this, [VNum 1; VNum 2])]; outcome := Ok v |})
  /\ (forall call this v,
        call this [VStr "a"; VStr "b"] = Ok v -> typeof v = TyString ->
        TypedFunction_call call add_overloads this [VStr "a"; VStr "b"] =
        {| calls := [(this, [VStr "a"; VStr "b"])]; outcome := Ok v |})
  /\ (forall call this,
        rejected_at add_overloads [VNum 1; VStr "b"] 1
        /\ TypedFunction_call call add_overloads this [VNum 1; VStr "b"] =
           {| calls := [];
              outcome := Throw (InvalidValueError (VStr "b") [Type_number]) |}).
Proof.
  split; [|split; [|split; [|split; [|split]]]].
  - intros call overloads this args Hdef. split.
    + intros k (Hk & Hne & Hempty). unfold TypedFunction_call.
      rewrite (check_arguments_reject args 0 overloads k Hdef Hk Hne Hempty).
      reflexivity.
    + intros Hne. unfold TypedFunction_call.
      rewrite (check_arguments_survive args 0 overloads Hdef Hne).
      reflexivity.
  - intros call overloads this args Hdef.
    destruct (check_arguments_unanswered args 0 overloads Hdef)
      as (k & o & e & Hk & Hin & He & Hc).
    exists k, o, e. repeat (split; [assumption|]).
    unfold TypedFunction_call. rewrite Hc. reflexivity.
  - intros r Hr. unfold func, TypedFunction_getFor, add_hints.
    cbn [parse_overloads type Type_getFor marker_type HNumber HString app fst snd].
    unfold bindM, ret, reading, writing, fresh. rewrite Hr. cbn [find].
    eexists _, _. reflexivity.
  - intros call this v H Hv. unfold TypedFunction_call. cbn [check_arguments].
    simpl. rewrite H. simpl. rewrite Hv. reflexivity.
  - intros call this v H Hv. unfold TypedFunction_call.
    simpl. rewrite H. simpl. rewrite Hv. reflexivity.
  - intros call this. split; [|reflexivity].
    repeat split; [simpl; lia | discriminate].
Qed.

(** A use of C5: [func(Number, Number, _=>Number)] called with [(1, "b")]. *)
Lemma C5_overload_elimination_witness :
  answered 0 [VNum 1; VStr "b"] sub_overloads = true
  /\ rejected_at sub_overloads [VNum 1; VStr "b"] 1
  /\ TypedFunction_call (fun _ _ => Ok VUndefined) sub_overloads
       VUndefined [VNum 1; VStr "b"] =
     {| calls := []; outcome := Throw (InvalidValueError (VStr "b") [Type_number]) |}.
Proof.
  assert (Hdef : answered 0 [VNum 1; VStr "b"] sub_overloads = true) by reflexivity.
  assert (Hrej : rejected_at sub_overloads [VNum 1; VStr "b"] 1).
  { repeat split; [simpl; lia | discriminate]. }
  split; [exact Hdef|]. split; [exact Hrej|].
  exact (proj1 (proj1 C5_overload_elimination (fun _ _ => Ok VUndefined)
                  sub_overloads VUndefined [VNum 1; VStr "b"] Hdef)
               1 Hrej).
Defined.

(** C5 as it was stated fails: the error does not tell the position.
    [func(Number, Number, _=>Number)] turns down [("a")] at position 0 and
    [(1, "a")] at position 1 with one and the same error. *)
Lemma C5_error_does_not_tell_position :
  let overloads := sub_overloads in
  let call := fun (_ : val) (_ : list val) => Ok VUndefined in
  ~ exists position : error -> nat,
      forall args k e,
        rejected_at overloads args k ->
        outcome (TypedFunction_call call overloads VUndefined args) = Throw e ->
        position e = k.
Proof.
  intros overloads call [position H].
  assert (H0 : position (InvalidValueError (VStr "a") [Type_number]) = 0).
  { apply (H [VStr "a"]); [|reflexivity].
    repeat split; [simpl; lia | discriminate]. }
  assert (H1 : position (InvalidValueError (VStr "a") [Type_number]) = 1).
  { apply (H [VNum 1; VStr "a"]); [|reflexivity].
    repeat split; [simpl; lia | discriminate]. }
  congruence.
Qed.

(** C10, as amended.  The wrapper never looks at a parameter beyond the
    arguments it is given: a call behaves as if every overload declared
    only as many parameters as there are arguments.  So when some overload
    validates the arguments supplied, and every check the wrapper makes has
    an answer, the wrapped function is called, once, with that short
    argument list. *)
Theorem C10_argument_count_not_checked :
  forall call overloads this args,
    TypedFunction_call call overloads this args =
    TypedFunction_call call (map (truncate (List.length args)) overloads) this args
    /\ (forall overload,
          In overload overloads ->
          answered 0 args overloads = true ->
          accepts_from 0 args overload = true ->
          calls (TypedFunction_call call overloads this args) = [(this, args)]).
Proof.
  intros call overloads this args. split.
  - unfold TypedFunction_call.
    rewrite (check_arguments_truncate (List.length args) args 0 overloads)
      by (simpl; lia).
    destruct (check_arguments 0 args overloads) as [possible|e]; [|reflexivity].
    f_equal. rewrite map_map. cbn [truncate returns snd].
    destruct (call this args) as [returnValue|e]; [|reflexivity].
    cbn [bind]. rewrite some_map. reflexivity.
  - intros overload Hin Hdef Hacc. unfold TypedFunction_call.
    rewrite (check_arguments_survive args 0 overloads Hdef).
    + reflexivity.
    + intros Hnil.
      assert (Hs : In overload (filter (accepts_from 0 args) overloads))
        by (apply filter_In; split; assumption).
      rewrite Hnil in Hs. exact Hs.
Qed.

(** A use of C10: [func(Number, Number, _=>Number)] called with [(1)]. *)
Lemma C10_argument_count_not_checked_witness :
  In sub_overload sub_overloads
  /\ answered 0 [VNum 1] sub_overloads = true
  /\ accepts_from 0 [VNum 1] sub_overload = true
  /\ calls (TypedFunction_call (fun _ _ => Ok (VNum 1)) sub_overloads
              VUndefined [VNum 1]) = [(VUndefined, [VNum 1])].
Proof.
  split; [left; reflexivity|]. split; [reflexivity|]. split; [reflexivity|].
  apply (proj2 (C10_argument_count_not_checked (fun _ _ => Ok (VNum 1))
                  sub_overloads VUndefined [VNum 1])
               sub_overload).
  - left; reflexivity.
  - reflexivity.
  - reflexivity.
Defined.

(** C10 as it was stated fails: the function is not always called with
    the short argument list.  [func(Number, _=>Number, Number, Number,
    Number, _=>Number)] called with [(1, 2)] gets fewer arguments than its
    second overload declares, and that overload validates them; but the
    first overload, still possible after [1], declares no parameter at
    position 1: the check throws the engine's TypeError and the function
    is not called. *)
Lemma C10_short_overload_stops_the_call :
  (~ forall call overloads this args overload,
       In overload overloads ->
       List.length args < List.length (params overload) ->
       accepts_from 0 args overload = true ->
       calls (TypedFunction_call call overloads this args) = [(this, args)])
  /\ (exists r id,
        func [HNumber; HArrow 1 HNumber; HNumber; HNumber; HNumber; HArrow 2 HNumber]
             initial = (r, Ok (TypedFunction id mixed_overloads)))
  /\ accepts_from 0 [VNum 1; VNum 2] ([Type_number; Type_number; Type_number], Type_number)
     = true
  /\ forall call this,
       TypedFunction_call call mixed_overloads this [VNum 1; VNum 2] =
       {| calls := []; outcome := Throw (Native ReadOfUndefined) |}.
Proof.
  split; [|split; [|split]].
  - intros H.
    specialize (H (fun _ _ => Ok VUndefined) mixed_overloads VUndefined
                  [VNum 1; VNum 2]
                  ([Type_number; Type_number; Type_number], Type_number)
                  ltac:(right; left; reflexivity) ltac:(simpl; lia) eq_refl).
    discriminate H.
  - eexists _, _. vm_compute. reflexivity.
  - reflexivity.
  - intros call this. reflexivity.
Qed.

(* ------------------------------------------------------------------ *)
(** ** Writes through the proxies *)

Lemma pkey_eqb_eq a b : pkey_eqb a b = true <-> a = b.
Proof.
  destruct a, b; simpl; split; intros H; try discriminate; try congruence.
  - apply Nat.eqb_eq in H. congruence.
  - injection H as ->. apply Nat.eqb_refl.
  - apply String.eqb_eq in H. congruence.
  - injection H as ->. apply String.eqb_refl.
  - apply Nat.eqb_eq in H. congruence.
  - injection H as ->. apply Nat.eqb_refl.
Qed.

Lemma pkey_eqb_refl a : pkey_eqb a a = true.
Proof. apply pkey_eqb_eq. reflexivity. Qed.

Lemma pkey_eqb_neq a b : a <> b -> pkey_eqb a b = false.
Proof.
  intros H. destruct (pkey_eqb a b) eqn:E; [|reflexivity].
  apply pkey_eqb_eq in E. contradiction.
Qed.

Section StoreLemmas.
Context {A : Type}.

Lemma lookup_store_same (k : pkey) (a : A) l : lookup k (store k a l) = Some a.
Proof.
  induction l as [|[k' a'] l IH]; simpl.
  - rewrite pkey_eqb_refl. reflexivity.
  - destruct (pkey_eqb k k') eqn:E; simpl.
    + rewrite pkey_eqb_refl. reflexivity.
    + rewrite E. exact IH.
Qed.

Lemma lookup_store_other (k k0 : pkey) (a : A) l :
  k0 <> k -> lookup k0 (store k a l) = lookup k0 l.
Proof.
  intros Hne. induction l as [|[k' a'] l IH]; simpl.
  - rewrite (pkey_eqb_neq k0 k Hne). reflexivity.
  - destruct (pkey_eqb k k') eqn:E; simpl.
    + apply pkey_eqb_eq in E. subst k'.
      rewrite (pkey_eqb_neq k0 k Hne). reflexivity.
    + destruct (pkey_eqb k0 k'); [reflexivity | exact IH].
Qed.
End StoreLemmas.

(** A key that is not one of the indices from [c] on is not among the
    elements listed from [c]. *)
Lemma lookup_indexed_skip : forall elems c k rest,
  (forall j, k = PIdx j -> j < c) ->
  lookup k (indexed c elems ++ rest) = lookup k rest.
Proof.
  induction elems as [|[y|] elems IH]; intros c k rest Hk; simpl.
  - reflexivity.
  - destruct (pkey_eqb k (PIdx c)) eqn:E.
    + apply pkey_eqb_eq in E. specialize (Hk c E). lia.
    + apply IH. intros j Hj. specialize (Hk j Hj). lia.
  - apply IH. intros j Hj. specialize (Hk j Hj). lia.
Qed.

Lemma lookup_indexed : forall elems b i rest,
  b <= i ->
  lookup (PIdx i) (indexed b elems ++ rest) =
  match element elems (i - b) with
  | Some x => Some x
  | None => lookup (PIdx i) rest
  end.
Proof.
  induction elems as [|e elems IH]; intros b i rest Hle.
  - unfold element. destruct (i - b); reflexivity.
  - destruct (Nat.eq_dec i b) as [->|Hne].
    + rewrite Nat.sub_diag. unfold element. cbn [nth_error].
      destruct e as [x|]; simpl.
      * rewrite Nat.eqb_refl. reflexivity.
      * apply lookup_indexed_skip. intros j Hj. injection Hj as ->. lia.
    + replace (i - b) with (S (i - S b)) by lia.
      unfold element at 1. cbn [nth_error]. fold (element elems (i - S b)).
      destruct e as [x|]; simpl.
      * replace (Nat.eqb i b) with false by (symmetry; apply Nat.eqb_neq; lia).
        apply IH. lia.
      * apply IH. lia.
Qed.

Lemma element_set_element : forall i x elems j,
  element (set_element i x elems) j =
  if Nat.eqb j i then Some x else element elems j.
Proof.
  unfold element.
  induction i as [|i IH]; intros x elems j.
  - destruct elems as [|e elems], j as [|j]; simpl; try reflexivity.
    destruct j; reflexivity.
  - destruct elems as [|e elems], j as [|j]; simpl; try reflexivity.
    + rewrite IH. destruct (Nat.eqb j i); [reflexivity|]. destruct j; reflexivity.
    + apply IH.
Qed.

Lemma length_set_element : forall i x elems,
  List.length (set_element i x elems) = Nat.max (List.length elems) (S i).
Proof.
  induction i as [|i IH]; intros x elems.
  - destruct elems as [|e elems]; simpl; [reflexivity|]. lia.
  - destruct elems as [|e elems]; simpl.
    + rewrite IH. simpl. lia.
    + rewrite IH. lia.
Qed.

(** Reading a key of an array: an element, its length, or one of its
    other properties. *)
Lemma get_array elems named k :
  get (VArr elems named) k =
  match k with
  | PIdx i =>
      match element elems i with
      | Some x => x
      | None => found (lookup k named)
      end
  | _ =>
      if pkey_eqb k length_key then VNum (Z.of_nat (List.length elems))
      else found (lookup k named)
  end.
Proof.
  unfold get, own_props. cbn [unproxy].
  destruct k as [i|s|n].
  - rewrite lookup_indexed by lia. rewrite Nat.sub_0_r.
    destruct (element elems i); reflexivity.
  - rewrite lookup_indexed_skip by (intros j Hj; discriminate).
    cbn [lookup]. destruct (pkey_eqb (PName s) length_key); reflexivity.
  - rewrite lookup_indexed_skip by (intros j Hj; discriminate).
    cbn [lookup]. reflexivity.
Qed.

Lemma get_store_same (k : pkey) x props : found (lookup k (store k x props)) = x.
Proof. rewrite lookup_store_same. reflexivity. Qed.

(** What [o[prop] = x] does to an object that is not a proxy, the length
    of an array set aside: [prop] now reads [x], no other key reads
    differently, and an array covers the index written. *)
Lemma assign_own_stores o prop x o' :
  is_proxy o = false ->
  assign_own o prop x = Ok o' ->
  (isArray o = true -> prop <> length_key) ->
  get o' prop = x
  /\ (forall k, k <> prop -> (isArray o = true -> k <> length_key) ->
                get o' k = get o k)
  /\ (forall i, prop = PIdx i -> isArray o = true ->
                List.length (elements o') = Nat.max (List.length (elements o)) (S i)).
Proof.
  intros Hproxy Hassign Hlen.
  destruct o as [| |p|id props|elems named|id p props|h target|t target props];
    simpl in Hassign; try discriminate.
  - (* a function *)
    injection Hassign as <-. repeat split.
    + unfold get. simpl. apply get_store_same.
    + intros k Hk _. unfold get. simpl. rewrite lookup_store_other by exact Hk.
      reflexivity.
    + intros i _ Harr. discriminate.
  - (* an array *)
    specialize (Hlen eq_refl).
    destruct prop as [i|s|n].
    + injection Hassign as <-. repeat split.
      * rewrite get_array, element_set_element, Nat.eqb_refl. reflexivity.
      * intros k Hk Hkl. specialize (Hkl eq_refl).
        rewrite !get_array. destruct k as [j|s|n].
        -- rewrite element_set_element.
           replace (Nat.eqb j i) with false
             by (symmetry; apply Nat.eqb_neq; congruence).
           reflexivity.
        -- rewrite (pkey_eqb_neq _ _ Hkl). reflexivity.
        -- reflexivity.
      * intros j Hj _. injection Hj as <-. simpl. apply length_set_element.
    + destruct (String.eqb s "length") eqn:E.
      * apply String.eqb_eq in E. subst s. exfalso. apply Hlen. reflexivity.
      * injection Hassign as <-. repeat split.
        -- rewrite get_array. unfold length_key. cbn [pkey_eqb]. rewrite E.
           apply get_store_same.
        -- intros k Hk Hkl. rewrite !get_array.
           rewrite (lookup_store_other (PName s) k x named Hk). reflexivity.
        -- intros j Hj. discriminate.
    + injection Hassign as <-. repeat split.
      * rewrite get_array. cbn [pkey_eqb length_key]. apply get_store_same.
      * intros k Hk Hkl. rewrite !get_array.
        rewrite (lookup_store_other (PSym n) k x named Hk). reflexivity.
      * intros j Hj. discriminate.
  - (* an object *)
    injection Hassign as <-. repeat split.
    + unfold get. simpl. apply get_store_same.
    + intros k Hk _. unfold get. simpl. rewrite lookup_store_other by exact Hk.
      reflexivity.
    + intros i _ Harr. discriminate.
  - (* a typed function *)
    injection Hassign as <-. repeat split.
    + unfold get. simpl. apply get_store_same.
    + intros k Hk _. unfold get. simpl. rewrite lookup_store_other by exact Hk.
      reflexivity.
    + intros i _ Harr. discriminate.
Qed.

Section HandlerLemmas.
Variable assign_target : pkey -> val -> registry -> handled unit.
Variable obj : val.

(** The assignment to the target leaves it alone when it throws. *)
Hypothesis assign_target_throw :
  forall prop v r r' obj' e,
    assign_target prop v r = (r', obj', Throw e) -> obj' = obj.

Lemma commit_unchanged prop v r r' obj' res :
  commit assign_target obj prop v r = (r', obj', res) ->
  res <> Ok true -> obj' = obj.
Proof.
  unfold commit. intros H Hres.
  destruct (assign_target prop v r) as [[r1 o1] [u|e]] eqn:E;
    injection H as <- <- <-.
  - contradiction Hres. reflexivity.
  - exact (assign_target_throw _ _ _ _ _ _ E).
Qed.

Lemma checked_set_unchanged declared prop v r r' obj' res :
  checked_set assign_target declared obj prop v r = (r', obj', res) ->
  res <> Ok true -> obj' = obj.
Proof.
  unfold checked_set. intros H Hres.
  destruct declared as [t|]; [|injection H as <- <- <-; reflexivity].
  destruct (isValid t v) as [[|]|e]; try (injection H as <- <- <-; reflexivity).
  destruct (editValue t v) as [v'|e]; [|injection H as <- <- <-; reflexivity].
  exact (commit_unchanged _ _ _ _ _ _ H Hres).
Qed.

Lemma OneOf_set_unchanged subTypes prop v r r' obj' res :
  OneOf_set assign_target subTypes obj prop v r = (r', obj', res) ->
  res <> Ok true -> obj' = obj.
Proof.
  unfold OneOf_set. intros H Hres.
  destruct (filter_r (fun t => isValid t v) subTypes);
    [|injection H as <- <- <-; reflexivity].
  destruct (post_write_copy obj prop v) as [newObject|e];
    [|injection H as <- <- <-; reflexivity].
  destruct (filter_r (fun t => isValid t newObject) subTypes) as [[|t possible]|e];
    try (injection H as <- <- <-; reflexivity).
  destruct (declares_collection _ prop r) as [r1 [[|]|e]].
  - destruct (key_to_string prop); [|injection H as <- <- <-; reflexivity].
    destruct (print_subtypes _ prop r1) as [r2 [subs|e]];
      injection H as <- <- <-; reflexivity.
  - exact (commit_unchanged _ _ _ _ _ _ H Hres).
  - injection H as <- <- <-; reflexivity.
Qed.

(** A handler that does not return true has not touched its target. *)
Lemma set_trap_unchanged handler prop v r r' obj' res :
  set_trap assign_target handler obj prop v r = (r', obj', res) ->
  res <> Ok true -> obj' = obj.
Proof.
  intros H Hres. destruct handler; simpl in H;
    try exact (commit_unchanged _ _ _ _ _ _ H Hres).
  - exact (OneOf_set_unchanged _ _ _ _ _ _ _ H Hres).
  - exact (checked_set_unchanged _ _ _ _ _ _ _ H Hres).
  - unfold TupleOf_set in H.
    destruct (element_at types prop) as [t| | | |[]| | | |];
      try exact (checked_set_unchanged _ _ _ _ _ _ _ H Hres).
    destruct (n =? 0)%Z.
    + exact (checked_set_unchanged _ _ _ _ _ _ _ H Hres).
    + injection H as <- <- <-; reflexivity.
  - exact (checked_set_unchanged _ _ _ _ _ _ _ H Hres).
Qed.
End HandlerLemmas.

Lemma checked_set_accepted assign_target declared obj prop v r r' obj' :
  checked_set assign_target declared obj prop v r = (r', obj', Ok true) ->
  exists child v',
    declared = Some child /\ isValid child v = Ok true
    /\ editValue child v = Ok v'
    /\ assign_target prop v' r = (r', obj', Ok tt).
Proof.
  unfold checked_set, commit. intros H.
  destruct declared as [t|].
  - destruct (isValid t v) as [[|]|e] eqn:V; try discriminate;
      [|destruct (toString t); discriminate].
    destruct (editValue t v) as [v'|e] eqn:Ed; try discriminate.
    destruct (assign_target prop v' r) as [[r1 o1] [[]|e]] eqn:A; try discriminate.
    injection H as <- <-. exists t, v'. repeat split; assumption.
  - destruct (key_to_string prop); discriminate.
Qed.

(** A write a collection handler accepts went through the descriptor
    declared for the key. *)
Lemma set_trap_accepted assign_target t obj prop v r r' obj' :
  collection_type t = true ->
  set_trap assign_target t obj prop v r = (r', obj', Ok true) ->
  exists child v',
    declared_at t prop = Some child /\ isValid child v = Ok true
    /\ editValue child v = Ok v'
    /\ assign_target prop v' r = (r', obj', Ok tt).
Proof.
  intros Ht H. destruct t; try discriminate; cbn [set_trap] in H.
  - exact (checked_set_accepted assign_target (Some t) obj prop v r r' obj' H).
  - unfold TupleOf_set in H. cbn [declared_at].
    assert (Hnone : checked_set assign_target None obj prop v r = (r', obj', Ok true)
                    -> False).
    { intros H0.
      destruct (checked_set_accepted _ _ _ _ _ _ _ _ H0) as (? & ? & ? & _).
      discriminate. }
    destruct prop as [i|s|n]; cbn [element_at] in H.
    + destruct (nth_error types i) as [t|] eqn:E.
      * exact (checked_set_accepted assign_target (Some t) obj (PIdx i) v r r' obj' H).
      * contradiction (Hnone H).
    + destruct (String.eqb s "length").
      * destruct (Z.of_nat (List.length types) =? 0)%Z; [|discriminate].
        contradiction (Hnone H).
      * contradiction (Hnone H).
    + contradiction (Hnone H).
  - exact (checked_set_accepted assign_target (lookup prop types) obj prop v r r' obj' H).
Qed.

Lemma assign_ordinary o prop v r :
  is_proxy o = false ->
  assign o prop v r =
  match assign_own o prop v with
  | Ok o' => (r, o', Ok tt)
  | Throw e => (r, o, Throw e)
  end.
Proof. destruct o; intros H; try discriminate; reflexivity. Qed.

(** An assignment that throws has changed nothing, through any number of
    proxies. *)
Lemma assign_throw_unchanged : forall o prop v r r' o' e,
  assign o prop v r = (r', o', Throw e) -> o' = o.
Proof.
  induction o as [| |p|id props|elems named|id p props|h target IH|t target _ props];
    intros prop v r r' o' e H;
    try (rewrite assign_ordinary in H by reflexivity;
         destruct (assign_own _ prop v);
         [discriminate | injection H as <- <- <-; reflexivity]).
  simpl in H.
  destruct (set_trap (assign target) h target prop v r) as [[r1 t1] res] eqn:E.
  assert (Hsame : res <> Ok true -> t1 = target).
  { intros Hres.
    exact (set_trap_unchanged (assign target) target
             (fun p x r0 r1 o1 e0 Ha => IH p x r0 r1 o1 e0 Ha)
             h prop v r r1 t1 res E Hres). }
  destruct res as [[|]|e0].
  - discriminate.
  - injection H as <- <- <-. rewrite Hsame by discriminate. reflexivity.
  - injection H as <- <- <-. rewrite Hsame by discriminate. reflexivity.
Qed.

(** A write the handler does not accept leaves the target as it was. *)
Lemma Proxy_set_rejected t target prop v r r' target' res :
  Proxy_set t target prop v r = (r', target', res) ->
  res <> Ok true -> target' = target.
Proof.
  unfold Proxy_set. intros H Hres.
  exact (set_trap_unchanged (assign target) target
           (fun p x r0 r1 o1 e0 Ha => assign_throw_unchanged target p x r0 r1 o1 e0 Ha)
           t prop v r r' target' res H Hres).
Qed.

(** C6, as amended.  For the proxy of an array, tuple or record descriptor
    and a write of one key: a write that is not accepted (the handler
    returns false or throws) leaves the target exactly as it was; a write
    is accepted only if a descriptor is declared for the key and validates
    the value; and then, on a target that is not itself a proxy and unless
    the key is the [length] of an array, the key reads the value passed
    through that descriptor's [editValue], every other key other than
    an array's [length] reads as before, and an array written at an index
    covers that index. *)
Theorem C6_single_key_write t target prop v r r' target' res :
  collection_type t = true ->
  Proxy_set t target prop v r = (r', target', res) ->
  (res <> Ok true -> target' = target)
  /\ (res = Ok true ->
      exists child v',
        declared_at t prop = Some child
        /\ isValid child v = Ok true
        /\ editValue child v = Ok v'
        /\ (is_proxy target = false ->
            (isArray target = true -> prop <> length_key) ->
            get target' prop = v'
            /\ (forall k, k <> prop -> (isArray target = true -> k <> length_key) ->
                          get target' k = get target k)
            /\ (forall i, prop = PIdx i -> isArray target = true ->
                          List.length (elements target')
                          = Nat.max (List.length (elements target)) (S i)))).
Proof.
  intros Ht H. split.
  - exact (Proxy_set_rejected t target prop v r r' target' res H).
  - intros ->. unfold Proxy_set in H.
    destruct (set_trap_accepted _ _ _ _ _ _ _ _ Ht H)
      as (child & v' & Hdecl & Hvalid & Hedit & Hassign).
    exists child, v'. repeat (split; [assumption|]).
    intros Hproxy Hlen.
    rewrite (assign_ordinary target prop v' r Hproxy) in Hassign.
    destruct (assign_own target prop v') as [o'|e] eqn:E; [|discriminate].
    injection Hassign as _ <-.
    exact (assign_own_stores target prop v' o' Hproxy E Hlen).
Qed.

(** A use of C6: [arrayOf(Number).editValue([1])[0] = 2]. *)
Lemma C6_single_key_write_witness :
  let t := ArrayOf 0 Type_number in
  let target := js_array [VNum 1] in
  collection_type t = true
  /\ Proxy_set t target (PIdx 0) (VNum 2) initial = (initial, js_array [VNum 2], Ok true)
  /\ get (js_array [VNum 2]) (PIdx 0) = VNum 2
  /\ (forall k, k <> PIdx 0 -> k <> length_key ->
                get (js_array [VNum 2]) k = get target k).
Proof.
  intros t target.
  assert (Ht : collection_type t = true) by reflexivity.
  assert (Hset : Proxy_set t target (PIdx 0) (VNum 2) initial
                 = (initial, js_array [VNum 2], Ok true)) by reflexivity.
  split; [exact Ht|]. split; [exact Hset|].
  destruct (proj2 (C6_single_key_write t target (PIdx 0) (VNum 2) initial initial
                     (js_array [VNum 2]) (Ok true) Ht Hset) eq_refl)
    as (child & v' & Hdecl & _ & Hedit & Hframe).
  injection Hdecl as <-. injection Hedit as <-.
  destruct (Hframe eq_refl ltac:(intros _; discriminate)) as (Hget & Hother & _).
  split; [exact Hget|].
  intros k Hk Hkl. apply Hother; [exact Hk | intros _; exact Hkl].
Defined.

(** C6 as it was stated fails.  A write of [length] that the element
    descriptor validates is accepted and drops elements:
    [arrayOf(Number).editValue([1,2,3]).length = 0] empties the array.  And
    a write past the end changes the key [length]. *)
Lemma C6_accepted_write_changes_other_keys :
  (~ forall t target prop v r r' target',
       collection_type t = true ->
       Proxy_set t target prop v r = (r', target', Ok true) ->
       forall k, k <> prop -> get target' k = get target k)
  /\ Proxy_set (ArrayOf 0 Type_number) (js_array []) (PIdx 2) (VNum 7) initial
     = (initial, VArr [None; None; Some (VNum 7)] [], Ok true)
  /\ get (js_array []) length_key = VNum 0
  /\ get (VArr [None; None; Some (VNum 7)] []) length_key = VNum 3.
Proof.
  split; [|repeat split].
  intros H.
  specialize (H (ArrayOf 0 Type_number) (js_array [VNum 1; VNum 2; VNum 3]) length_key
                (VNum 0) initial initial (js_array []) eq_refl eq_refl
                (PIdx 0) ltac:(discriminate)).
  discriminate H.
Qed.

(** C9, as amended.  For an array, tuple or record descriptor and a value
    that is an object (an array, an object, a function), [editValue]
    returns the proxy of the value whether or not the value is valid: its
    keys read through the proxy as they read on the value.  A later write
    of a value that the descriptor declared for the key does not validate
    changes nothing: the handler returns false, once it has built the
    message that names that descriptor, or throws when the descriptor
    cannot be converted to a string. *)
Theorem C9_editValue_does_not_validate t v :
  collection_type t = true ->
  is_object v = true ->
  editValue t v = Ok (VProxy t v)
  /\ (forall k, get (VProxy t v) k = get v k)
  /\ elements (VProxy t v) = elements v
  /\ (forall prop x r child,
        declared_at t prop = Some child ->
        isValid child x = Ok false ->
        Proxy_set t v prop x r = (r, v, _ <- toString child ;; Ok false)).
Proof.
  intros Ht Hobj. repeat split.
  - destruct t; try discriminate; simpl; unfold new_Proxy; rewrite Hobj; reflexivity.
  - intros prop x r child Hdecl Hvalid.
    destruct t; try discriminate; unfold Proxy_set; cbn [set_trap].
    + injection Hdecl as ->. unfold ArrayOf_set, checked_set.
      rewrite Hvalid. reflexivity.
    + destruct prop as [i|s|n]; try discriminate. simpl in Hdecl.
      unfold TupleOf_set. cbn [element_at]. rewrite Hdecl.
      unfold checked_set. rewrite Hvalid. reflexivity.
    + simpl in Hdecl. unfold RecordOf_set. rewrite Hdecl.
      unfold checked_set. rewrite Hvalid. reflexivity.
Qed.

(** A use of C9: [arrayOf(Number).editValue(["x"])], whose content is not
    a number. *)
Lemma C9_editValue_does_not_validate_witness :
  let t := ArrayOf 0 Type_number in
  let v := js_array [VStr "x"] in
  collection_type t = true
  /\ is_object v = true
  /\ isValid t v = Ok false
  /\ editValue t v = Ok (VProxy t v)
  /\ get (VProxy t v) (PIdx 0) = VStr "x"
  /\ Proxy_set t v (PIdx 1) (VStr "y") initial = (initial, v, Ok false).
Proof.
  intros t v.
  destruct (C9_editValue_does_not_validate t v eq_refl eq_refl)
    as (Hedit & Hget & _ & Hset).
  split; [reflexivity|]. split; [reflexivity|]. split; [reflexivity|].
  split; [exact Hedit|]. split.
  - rewrite Hget. reflexivity.
  - apply (Hset (PIdx 1) (VStr "y") initial Type_number); reflexivity.
Defined.

(** C9 as it was stated fails on a value that is not an object:
    [arrayOf(Number).editValue(5)] throws, [new Proxy] refusing the target. *)
Lemma C9_primitive_is_not_wrapped :
  ~ forall t v, collection_type t = true -> isValid t v = Ok false ->
                exists w, editValue t v = Ok w.
Proof.
  intros H.
  destruct (H (ArrayOf 0 Type_number) (VNum 5) eq_refl eq_refl) as [w Hw].
  discriminate Hw.
Qed.

(* ------------------------------------------------------------------ *)
(** ** Writes through the proxy of a union *)

(** C4, on the code.  The union of the records [{a: Number}] and
    [{b: String?}] wraps [{}]; the write [b = null] gives a copy [{b: null}]
    that the second record validates, and no member that validates it
    declares an array, tuple or record at [b]: the write is to be committed.
    The handler throws instead, in its first filter, where
    [RecordOf.isValid(null)] asks for the own keys of [null]; the object
    stays [{}].  The same write of ["x"] is committed. *)
Lemma C4_null_write_is_not_committed :
  exists r id subTypes,
    two_records initial = (r, Ok (OneOf id subTypes))
    /\ editValue (OneOf id subTypes) (js_object [])
       = Ok (VProxy (OneOf id subTypes) (js_object []))
    /\ filter_r (fun t => isValid t (js_object [(PName "b", VNull)])) subTypes
       = Ok [RecordOf 2 [(PName "b", Nullable 0 Type_string)]]
    /\ returned (subtypeAt (RecordOf 2 [(PName "b", Nullable 0 Type_string)]) (PName "b") r)
       = Ok (HType (Nullable 0 Type_string))
    /\ Proxy_set (OneOf id subTypes) (js_object []) (PName "b") VNull r
       = (r, js_object [], Throw (Native NullishToObject))
    /\ Proxy_set (OneOf id subTypes) (js_object []) (PName "b") (VStr "x") r
       = (r, js_object [(PName "b", VStr "x")], Ok true).
Proof.
  eexists _, 3, _. split; [vm_compute; reflexivity|]. repeat split.
Qed.

(** A write through the proxy of a union that is not accepted leaves the
    object as it was, whatever made the handler refuse or throw. *)
Lemma OneOf_write_rejected_unchanged id subTypes target prop v r r' target' res :
  Proxy_set (OneOf id subTypes) target prop v r = (r', target', res) ->
  res <> Ok true -> target' = target.
Proof. apply Proxy_set_rejected. Qed.

(** The policy of the handler of a union, on a write for which its checks
    all have an answer: [possible] being the members that validate the
    copy, the write is refused when there is none, refused when one of them
    declares an array, tuple or record at the key, and committed, with the
    value as written, otherwise.  A refused write leaves the object as it
    was. *)
Lemma OneOf_write_policy id subTypes target prop v r checked newObject possible :
  filter_r (fun t => isValid t v) subTypes = Ok checked ->
  post_write_copy target prop v = Ok newObject ->
  filter_r (fun t => isValid t newObject) subTypes = Ok possible ->
  (possible = [] ->
   exists res, Proxy_set (OneOf id subTypes) target prop v r = (r, target, res)
               /\ res <> Ok true)
  /\ (possible <> [] ->
      forall r1, declares_collection possible prop r = (r1, Ok true) ->
      exists r2 res, Proxy_set (OneOf id subTypes) target prop v r = (r2, target, res)
                     /\ res <> Ok true)
  /\ (possible <> [] ->
      forall r1, declares_collection possible prop r = (r1, Ok false) ->
      is_proxy target = false ->
      Proxy_set (OneOf id subTypes) target prop v r =
      match assign_own target prop v with
      | Ok target' => (r1, target', Ok true)
      | Throw e => (r1, target, Throw e)
      end).
Proof.
  intros Hchecked Hcopy Hpossible.
  unfold Proxy_set. cbn [set_trap]. unfold OneOf_set.
  rewrite Hchecked, Hcopy, Hpossible.
  split; [|split].
  - intros ->. eexists. split; [reflexivity|].
    destruct (key_to_string prop); [|discriminate].
    destruct (print_all subTypes); discriminate.
  - intros Hne r1 Hd. destruct possible as [|t possible]; [contradiction|].
    rewrite Hd. destruct (key_to_string prop) as [[]|e].
    + destruct (print_subtypes (t :: possible) prop r1) as [r2 [subs|e]].
      * eexists _, _. split; [reflexivity | discriminate].
      * eexists _, _. split; [reflexivity | discriminate].
    + eexists _, _. split; [reflexivity | discriminate].
  - intros Hne r1 Hd Hproxy. destruct possible as [|t possible]; [contradiction|].
    rewrite Hd. unfold commit. rewrite (assign_ordinary target prop v r1 Hproxy).
    destruct (assign_own target prop v); reflexivity.
Qed.

(* ------------------------------------------------------------------ *)
(** ** Validity of records and tuples *)

(** C2, on the code.  A record descriptor only looks at the keys the value
    has: the empty object is valid for every record descriptor, so
    [recordOf({a: Number}).isValid({})] is true though the declared key [a]
    is missing and its descriptor is not nullable.  The two cases of the
    specification hold: [{a: 1}] is valid and [{a: 1, b: 2}] is not. *)
Lemma C2_missing_key_is_valid :
  (forall id types, isValid (RecordOf id types) (js_object []) = Ok true)
  /\ exists id types,
       returned (recordOf (HObj 1 ProtoObject [(PName "a", HNumber)]) initial)
       = Ok (RecordOf id types)
       /\ lookup (PName "a") types = Some Type_number
       /\ isValid (RecordOf id types) (js_object []) = Ok true
       /\ isValid (RecordOf id types) (js_object [(PName "a", VNum 1)]) = Ok true
       /\ isValid (RecordOf id types)
            (js_object [(PName "a", VNum 1); (PName "b", VNum 2)]) = Ok false.
Proof.
  split; [reflexivity|].
  exists 0, [(PName "a", Type_number)]. repeat split.
Qed.

(** C3, on the code.  A tuple descriptor checks the elements the array has
    against the descriptors at their positions, and nothing asks for the
    length: the empty array is valid for every tuple descriptor, and
    [tupleOf(Number, String).isValid([1])] is true though the length is 1,
    not 2.  The two cases of the specification hold: [[1, "x"]] is valid
    and [[1, "x", 2]] is not. *)
Lemma C3_shorter_array_is_valid :
  (forall id types, isValid (TupleOf id types) (js_array []) = Ok true)
  /\ exists id,
       let t := TupleOf id [Type_number; Type_string] in
       returned (tupleOf [HNumber; HString] initial) = Ok t
       /\ isValid t (js_array [VNum 1]) = Ok true
       /\ isValid t (js_array [VNum 1; VStr "x"]) = Ok true
       /\ isValid t (js_array [VNum 1; VStr "x"; VNum 2]) = Ok false.
Proof.
  split.
  - intros id types. simpl. destruct types; reflexivity.
  - exists 0. repeat split.
Qed.


(* ------------------------------------------------------------------ *)
(** ** What the validity checks of tuples and records do decide *)

Lemma TupleOf_isValid_unfold id types v :
  isValid (TupleOf id types) v =
  if isArray v then TupleOf_every types (elements v) else Ok false.
Proof. reflexivity. Qed.

Lemma every_true {A} (f : A -> result bool) (l : list A) :
  every f l = Ok true <-> forall x, In x l -> f x = Ok true.
Proof.
  induction l as [|x l IH]; simpl.
  - split; [intros _ y [] | reflexivity].
  - destruct (f x) as [[|]|e] eqn:E; simpl.
    + rewrite IH. split.
      * intros H y [<-|Hy]; [exact E | apply H, Hy].
      * intros H y Hy. apply H. right. exact Hy.
    + split; [discriminate|]. intros H.
      specialize (H x (or_introl eq_refl)). congruence.
    + split; [discriminate|]. intros H.
      specialize (H x (or_introl eq_refl)). congruence.
Qed.

(** A tuple descriptor validates an array exactly when every element the
    array has, at whatever index, has a descriptor declared at that index
    that validates it.  Nothing is asked of the positions the array does
    not have. *)
Lemma TupleOf_every_true : forall types es,
  TupleOf_every types es = Ok true <->
  forall i x, element es i = Some x ->
              exists t, nth_error types i = Some t /\ isValid t x = Ok true.
Proof.
  unfold element.
  induction types as [|t types IH]; intros es.
  - simpl. split.
    + intros H i x Hx. injection H as H. rewrite forallb_forall in H.
      destruct (nth_error es i) as [e|] eqn:E; [|discriminate]. subst e.
      specialize (H (Some x) (nth_error_In es i E)). discriminate.
    + intros H. f_equal. apply forallb_forall. intros [x|] Hin; [|reflexivity].
      destruct (In_nth_error es (Some x) Hin) as [i Hi].
      destruct (H i x) as (t & Ht & _); [rewrite Hi; reflexivity|].
      destruct i; discriminate.
  - destruct es as [|[x|] es]; cbn [TupleOf_every].
    + split; [|reflexivity]. intros _ i x Hx. destruct i; discriminate.
    + destruct (isValid t x) as [[|]|e] eqn:V; cbn [bind].
      * rewrite IH. split.
        -- intros H [|i] y Hy; simpl in Hy |- *.
           ++ injection Hy as <-. exists t. split; [reflexivity | exact V].
           ++ apply H. exact Hy.
        -- intros H i y Hy. apply (H (S i) y). exact Hy.
      * split; [discriminate|]. intros H.
        destruct (H 0 x eq_refl) as (t0 & Ht0 & Hv). injection Ht0 as <-. congruence.
      * split; [discriminate|]. intros H.
        destruct (H 0 x eq_refl) as (t0 & Ht0 & Hv). injection Ht0 as <-. congruence.
    + rewrite IH. split.
      * intros H [|i] y Hy; simpl in Hy |- *; [discriminate|]. apply H. exact Hy.
      * intros H i y Hy. apply (H (S i) y). exact Hy.
Qed.

Lemma RecordOf_isValid_unfold id types v :
  isValid (RecordOf id types) v =
  if jstype_eqb (typeof v) TyObject && negb (isArray v) then
    match own_props v with
    | None => Throw (Native NullishToObject)
    | Some props => every (RecordOf_at_key types v) (own_keys props)
    end
  else Ok false.
Proof.
  cbn [isValid].
  destruct (jstype_eqb (typeof v) TyObject && negb (isArray v)); [|reflexivity].
  destruct (own_props v) as [props|]; [|reflexivity].
  assert (E : forall k,
             (fix at_key (fs : list (pkey * ty)) : result bool :=
                match fs with
                | [] => Ok false
                | (k', t') :: fs' =>
                    if pkey_eqb k k' then isValid t' (get v k) else at_key fs'
                end) types = RecordOf_at_key types v k).
  { intros k. unfold RecordOf_at_key.
    induction types as [|[k' t'] types IH]; simpl.
    - reflexivity.
    - destruct (pkey_eqb k k'); [reflexivity | exact IH]. }
  induction (own_keys props) as [|k ks IH]; simpl.
  - reflexivity.
  - rewrite E, IH. reflexivity.
Qed.

(** A record descriptor validates an object exactly when every key the
    object has is declared with a descriptor that validates the value at
    that key.  Nothing is asked of the declared keys the object does not
    have. *)
Lemma RecordOf_isValid_true id types v props :
  jstype_eqb (typeof v) TyObject && negb (isArray v) = true ->
  own_props v = Some props ->
  (isValid (RecordOf id types) v = Ok true <->
   forall k, In k (own_keys props) ->
             exists t, lookup k types = Some t /\ isValid t (get v k) = Ok true).
Proof.
  intros Hobj Hprops. rewrite RecordOf_isValid_unfold, Hobj, Hprops, every_true.
  unfold RecordOf_at_key. split; intros H k Hk; specialize (H k Hk).
  - destruct (lookup k types) as [t|]; [|discriminate]. exists t. auto.
  - destruct H as (t & -> & Hv). exact Hv.
Qed.

(* ------------------------------------------------------------------ *)
(** ** Where the factories do return one descriptor *)

Section AssocLemmas.
Context {K V : Type} (eqb : K -> K -> bool).

Lemma assoc_get_set (k : K) (v : V) (l : list (K * V)) :
  eqb k k = true -> assoc_get eqb k (assoc_set eqb k v l) = Some v.
Proof.
  intros Hrefl. unfold assoc_set.
  induction l as [|[k' v'] l IH]; simpl.
  - rewrite Hrefl. reflexivity.
  - destruct (eqb k k') eqn:E; simpl; rewrite E; [reflexivity | exact IH].
Qed.
End AssocLemmas.

(** [===] is reflexive on every primitive but [NaN]. *)
Lemma prim_eqb_refl p : p <> PrNaN -> prim_eqb p p = true.
Proof.
  intros Hp. destruct p; simpl.
  - apply Bool.eqb_reflx.
  - apply Z.eqb_refl.
  - apply String.eqb_refl.
  - apply Nat.eqb_refl.
  - rewrite Z.eqb_refl, Pos.eqb_refl. reflexivity.
  - apply Bool.eqb_reflx.
  - contradiction Hp. reflexivity.
Qed.

Lemma SameValueZero_refl p : SameValueZero p p = true.
Proof.
  destruct p; try (apply prim_eqb_refl; discriminate). reflexivity.
Qed.

Lemma ctor_eqb_refl c : ctor_eqb c c = true.
Proof. destruct c; simpl; apply Nat.eqb_refl. Qed.

Lemma base_eqb_refl b : base_eqb b b = true.
Proof. destruct b; reflexivity. Qed.

Lemma same_ty_refl t : same_ty t t = true.
Proof.
  unfold same_ty. destruct (ty_ref t); simpl;
    [apply base_eqb_refl | apply Nat.eqb_refl].
Qed.

Lemma base_eqb_sym a b : base_eqb a b = base_eqb b a.
Proof. destruct a, b; reflexivity. Qed.

Lemma same_ty_sym a b : same_ty a b = same_ty b a.
Proof.
  unfold same_ty. destruct (ty_ref a), (ty_ref b); simpl; try reflexivity.
  - apply base_eqb_sym.
  - apply Nat.eqb_sym.
Qed.

(** For a descriptor, a marker, [null], [undefined], a primitive literal,
    a class, an arrow function or an object that is not plain, [type(h)]
    succeeds and a second call, on the registries the first one left,
    returns the same descriptor and leaves them as they are. *)
Lemma type_simple_hint_canonical h r :
  simple_hint h = true ->
  exists r1 t, type [h] r = (r1, Ok t) /\ type [h] r1 = (r1, Ok t).
Proof.
  intros Hs. unfold type.
  destruct h as [t| | |m|p|l items|l p fields|c|l h']; try discriminate;
    cbn [Type_getFor].
  - eexists _, _. split; reflexivity.
  - eexists _, _. split; reflexivity.
  - eexists _, _. split; reflexivity.
  - eexists _, _. split; reflexivity.
  - unfold Primitive_getFor, bindM, reading, ret, writing, fresh.
    destruct (assoc_get SameValueZero p (Primitive_known r)) as [t|] eqn:E.
    + exists r, t. rewrite E. split; reflexivity.
    + eexists _, _. split; [reflexivity|]. cbn.
      rewrite assoc_get_set by apply SameValueZero_refl. reflexivity.
  - cbn [simple_hint] in Hs. destruct (plain p); [discriminate|].
    unfold Instance_getFor, bindM, reading, ret, writing, fresh.
    destruct (assoc_get Nat.eqb l (Instance_known r)) as [t|] eqn:E.
    + exists r, t. rewrite E. split; reflexivity.
    + eexists _, _. split; [reflexivity|]. cbn.
      rewrite assoc_get_set by apply Nat.eqb_refl. reflexivity.
  - unfold Type_getFor_function, bindM, reading, ret, writing, fresh.
    destruct (assoc_get ctor_eqb (CClass c) (Type_known r)) as [t|] eqn:E.
    + exists r, t. rewrite E. split; reflexivity.
    + eexists _, _. split; [reflexivity|]. cbn.
      rewrite assoc_get_set by apply ctor_eqb_refl. reflexivity.
  - unfold Type_getFor_function, bindM, reading, ret, writing, fresh.
    destruct (assoc_get ctor_eqb (CArrow l) (Type_known r)) as [t|] eqn:E.
    + exists r, t. rewrite E. split; reflexivity.
    + eexists _, _. split; [reflexivity|]. cbn.
      rewrite assoc_get_set by apply ctor_eqb_refl. reflexivity.
Qed.

Lemma equals_swap a b key : equals [a; b] key = equals [b; a] key.
Proof.
  unfold equals. simpl. rewrite !andb_true_r.
  f_equal. apply andb_comm.
Qed.

Lemma find_same {A} (f g : A -> bool) l :
  (forall x, f x = g x) -> find f l = find g l.
Proof.
  intros H. induction l as [|x l IH]; simpl.
  - reflexivity.
  - rewrite H, IH. reflexivity.
Qed.

Lemma find_app_none {A} (f : A -> bool) l x :
  find f l = None -> find f (l ++ [x]) = if f x then Some x else None.
Proof.
  induction l as [|y l IH]; simpl; intros H.
  - reflexivity.
  - destruct (f y); [discriminate | exact (IH H)].
Qed.

(** [OneOf.getFor(x, y)] for two descriptors that are not unions. *)
Lemma OneOf_getFor_pair x y s :
  is_union x = false -> is_union y = false ->
  OneOf_getFor [HType x; HType y] s =
  if same_ty y x then (s, Ok x)
  else
    match find (fun e => equals [x; y] (fst e)) (OneOf_known s) with
    | Some (_, value) => (s, Ok value)
    | None =>
        let t := OneOf (next_id s) [x; y] in
        (set_OneOf_known (fun k => k ++ [([x; y], t)]) (fst (fresh s)), Ok t)
    end.
Proof.
  intros Hx Hy. unfold OneOf_getFor.
  assert (Hm : mapM (fun t => match t with
                              | HType (OneOf _ subTypes) => ret subTypes
                              | _ => z <~ Type_getFor t ;; ret [z]
                              end) [HType x; HType y] s
               = (s, Ok [[x]; [y]])).
  { destruct x, y; try discriminate; reflexivity. }
  unfold bindM at 1. rewrite Hm.
  unfold ComparableSet. cbn [List.concat app fold_left existsb orb].
  rewrite orb_false_r.
  destruct (same_ty y x); [reflexivity|]. cbn [app].
  unfold bindM, reading, ret, writing, fresh.
  destruct (find (fun e => equals [x; y] (fst e)) (OneOf_known s)) as [[key u]|];
    reflexivity.
Qed.

(** The union of two descriptors does not depend on their order:
    [oneOf(a, b)] and then [oneOf(b, a)] return the same descriptor, in
    whatever state the registries are. *)
Lemma oneOf_pair_order a b r :
  is_union a = false -> is_union b = false ->
  exists r1 u u',
    oneOf [HType a; HType b] r = (r1, Ok u)
    /\ oneOf [HType b; HType a] r1 = (r1, Ok u')
    /\ same_ty u u' = true.
Proof.
  intros Ha Hb. unfold oneOf, type.
  rewrite (OneOf_getFor_pair a b r Ha Hb).
  destruct (same_ty b a) eqn:Eba.
  - exists r, a, b. split; [reflexivity|].
    rewrite (OneOf_getFor_pair b a r Hb Ha), same_ty_sym, Eba.
    split; reflexivity.
  - destruct (find (fun e => equals [a; b] (fst e)) (OneOf_known r))
      as [[key u]|] eqn:F.
    + exists r, u, u. split; [reflexivity|].
      rewrite (OneOf_getFor_pair b a r Hb Ha), same_ty_sym, Eba.
      rewrite (find_same (fun e => equals [b; a] (fst e))
                         (fun e => equals [a; b] (fst e)))
        by (intros e; apply equals_swap).
      rewrite F. split; [reflexivity | apply same_ty_refl].
    + eexists _, _, _. split; [reflexivity|].
      rewrite (OneOf_getFor_pair b a _ Hb Ha), same_ty_sym, Eba.
      cbn [set_OneOf_known OneOf_known fresh fst].
      rewrite (find_same (fun e => equals [b; a] (fst e))
                         (fun e => equals [a; b] (fst e)))
        by (intros e; apply equals_swap).
      rewrite (find_app_none _ _ _ F). cbn [fst].
      assert (Eq : equals [a; b] [a; b] = true).
      { unfold equals. simpl. rewrite !same_ty_refl. simpl.
        rewrite orb_true_r. reflexivity. }
      rewrite Eq. split; [reflexivity | apply same_ty_refl].
Qed.

Lemma same_hint_refl h : same_hint h h = true.
Proof.
  destruct h; simpl; try reflexivity; try apply Nat.eqb_refl.
  - apply same_ty_refl.
  - destruct m; reflexivity.
  - apply SameValueZero_refl.
Qed.

Lemma assoc_get_update {K V} (eqb : K -> K -> bool) k (g : option V -> V) l :
  eqb k k = true ->
  assoc_get eqb k (assoc_update eqb k g l) = Some (g (assoc_get eqb k l)).
Proof.
  intros Hrefl. induction l as [|[k' v'] l IH]; simpl.
  - rewrite Hrefl. reflexivity.
  - destruct (eqb k k') eqn:E; simpl; rewrite E; [reflexivity | exact IH].
Qed.

(** After [tm_update], the walk along the same hints ends on the node that
    was changed. *)
Lemma tm_walk_update : forall path f m,
  tm_walk path (tm_update path f m) =
  Some (f match tm_walk path m with Some c => c | None => tm_empty end).
Proof.
  induction path as [|k ks IH]; intros f [leaf children]; simpl.
  - reflexivity.
  - rewrite assoc_get_update by apply same_hint_refl.
    rewrite IH.
    destruct (assoc_get same_hint k children) as [c|]; [reflexivity|].
    destruct ks; reflexivity.
Qed.

(** [tupleOf] called again with the very same hints, right after a call
    that returned, returns the same descriptor and registers nothing. *)
Lemma tupleOf_again hints r r1 t :
  tupleOf hints r = (r1, Ok t) -> tupleOf hints r1 = (r1, Ok t).
Proof.
  unfold tupleOf, TupleOf_getFor, TupleOf_getFor_with.
  unfold bindM at 1. unfold reading at 1.
  destruct (match tm_walk hints (TupleOf_known r) with
            | Some val => tm_leaf val
            | None => None
            end) as [t0|] eqn:W.
  - intros H. injection H as <- <-.
    unfold bindM, reading. rewrite W. reflexivity.
  - unfold bindM, writing, fresh, ret.
    destruct (mapM Type_getFor hints _) as [rc [ts|e]]; [|discriminate].
    intros H. injection H as <- <-.
    cbn [TupleOf_known set_TupleOf_known reading].
    rewrite tm_walk_update.
    destruct (match tm_walk hints (TupleOf_known rc) with
              | Some c => c
              | None => tm_empty
              end) as [leaf children].
    reflexivity.
Qed.

(** The converse fails: hints that denote different shapes can get one
    descriptor.  [deepEqual] takes two functions, or two descriptors, for
    equal, so [recordOf({a: String})] returns the descriptor registered for
    [{a: Number}]; and [TypedFunction.getFor] compares the parameters of the
    registered overload only, so [func(Number, Number, _=>Number)] returns
    the descriptor registered for [func(_=>Number)].  What a factory
    returns depends on the calls made before; the cases of the
    specification are about registries that have just been loaded. *)
Lemma different_shapes_one_descriptor :
  twice (recordOf (HObj 1 ProtoObject [(PName "a", HNumber)]))
        (recordOf (HObj 2 ProtoObject [(PName "a", HString)]))
  = (Ok (RecordOf 0 [(PName "a", Type_number)]),
     Ok (RecordOf 0 [(PName "a", Type_number)]))
  /\ twice (func [HArrow 1 HNumber]) (func [HNumber; HNumber; HArrow 2 HNumber])
     = (Ok (TypedFunction 0 [([], Type_number)]),
        Ok (TypedFunction 0 [([], Type_number)])).
Proof. split; reflexivity. Qed.

(** A union of one member given twice is that member, whatever was
    registered before. *)
Lemma oneOf_one_member t r :
  is_union t = false -> oneOf [HType t; HType t] r = (r, Ok t).
Proof.
  intros Ht. unfold oneOf, type.
  rewrite (OneOf_getFor_pair t t r Ht Ht), same_ty_refl. reflexivity.
Qed.

(** C1, on the code.  [TupleOf.#known] is keyed by the hints as they are
    given, so two array literals that denote the same tuple of tuples,
    [[[Number]]] and [[[Number]]], get two descriptors; the elements of both
    are the one descriptor of [[Number]].  And a second call with the very
    same record literal [{a: {a: null}}] throws, [deepEqual] comparing it
    with the inner literal registered by the first call and reaching
    [Object.entries(null)].  The cases of the specification hold:
    [type(String)] twice, [tupleOf(String, String, Number)] twice,
    [oneOf(Number, String)] and [oneOf(String, Number)] give one descriptor
    each time, a union of a union and one of its members is that union, and
    a union of one distinct member is that member. *)
Lemma C1_same_shape_two_descriptors :
  twice (type [HArray 1 [HArray 2 [HNumber]]]) (type [HArray 3 [HArray 4 [HNumber]]])
  = (Ok (TupleOf 0 [TupleOf 1 [Type_number]]), Ok (TupleOf 2 [TupleOf 1 [Type_number]]))
  /\ same_ty (TupleOf 0 [TupleOf 1 [Type_number]]) (TupleOf 2 [TupleOf 1 [Type_number]])
     = false
  /\ (let h := HObj 1 ProtoObject [(PName "a", HObj 2 ProtoObject [(PName "a", HNull)])] in
      twice (type [h]) (type [h])
      = (Ok (RecordOf 0 [(PName "a", RecordOf 1 [(PName "a", Base BNull)])]),
         Throw (Native NullishToObject)))
  /\ same_result (twice (type [HString]) (type [HString])) = Some true
  /\ same_result (twice (tupleOf [HString; HString; HNumber])
                        (tupleOf [HString; HString; HNumber])) = Some true
  /\ same_result (twice (oneOf [HNumber; HString]) (oneOf [HString; HNumber])) = Some true
  /\ same_result (twice (oneOf [HNumber; HString])
                        (u <~ oneOf [HNumber; HString] ;; oneOf [HType u; HNumber]))
     = Some true
  /\ twice (type [HNumber]) (oneOf [HNumber; HNumber]) = (Ok Type_number, Ok Type_number).
Proof. repeat split. Qed.

(* ================================================================== *)
(** * Properties of the whole engine *)

(* ------------------------------------------------------------------ *)
(** ** Own keys *)

Lemma in_symbol_keys {A} k (l : list (pkey * A)) :
  In k (symbol_keys l) -> In k (map fst l).
Proof.
  unfold symbol_keys. rewrite in_flat_map. intros [[k' a] [Hin Hk]].
  simpl in Hk. destruct k'; simpl in Hk; try contradiction.
  destruct Hk as [<-|[]]. apply (in_map fst) in Hin. exact Hin.
Qed.

Lemma in_string_keys {A} k (l : list (pkey * A)) :
  In k (string_keys l) -> In k (map fst l).
Proof.
  unfold string_keys. rewrite in_flat_map. intros [[k' a] [Hin Hk]].
  simpl in Hk. destruct k'; simpl in Hk; try contradiction.
  destruct Hk as [<-|[]]. apply (in_map fst) in Hin. exact Hin.
Qed.

Lemma in_insert_sorted i j l : In i (insert_sorted j l) <-> i = j \/ In i l.
Proof.
  induction l as [|x l IH]; simpl.
  - intuition.
  - destruct (Nat.leb j x); simpl; [intuition|]. rewrite IH. intuition.
Qed.

Lemma in_fold_insert_sorted i l : In i (fold_right insert_sorted [] l) <-> In i l.
Proof.
  induction l as [|x l IH]; simpl; [reflexivity|].
  rewrite in_insert_sorted, IH. intuition.
Qed.

Lemma in_index_keys {A} k (l : list (pkey * A)) :
  In k (index_keys l) -> In k (map fst l).
Proof.
  unfold index_keys. rewrite in_map_iff. intros [i [<- Hi]].
  apply (proj1 (in_fold_insert_sorted i _)) in Hi. apply in_flat_map in Hi.
  destruct Hi as [[k' a] [Hin Hk]].
  simpl in Hk. destruct k'; simpl in Hk; try contradiction.
  destruct Hk as [<-|[]]. apply (in_map fst) in Hin. exact Hin.
Qed.

(** The keys that [getOwnPropertySymbols] and [getOwnPropertyNames] list
    are the keys the object has. *)
Lemma in_own_keys {A} k (l : list (pkey * A)) :
  In k (own_keys l) <-> In k (map fst l).
Proof.
  unfold own_keys, getOwnPropertyNames. rewrite !in_app_iff. split.
  - intros [H|[H|H]].
    + apply in_symbol_keys, H.
    + apply in_index_keys, H.
    + apply in_string_keys, H.
  - rewrite in_map_iff. intros [[k' a] [<- Hin]]. simpl.
    destruct k' as [i|s|n].
    + right. left. unfold index_keys. apply in_map.
      apply in_fold_insert_sorted. rewrite in_flat_map.
      exists (PIdx i, a). split; [exact Hin | left; reflexivity].
    + right. right. unfold string_keys. rewrite in_flat_map.
      exists (PName s, a). split; [exact Hin | left; reflexivity].
    + left. unfold symbol_keys. rewrite in_flat_map.
      exists (PSym n, a). split; [exact Hin | left; reflexivity].
Qed.

Lemma lookup_in {A} k (l : list (pkey * A)) :
  In k (map fst l) -> exists a, lookup k l = Some a /\ In a (map snd l).
Proof.
  induction l as [|[k' a'] l IH]; simpl; [contradiction|].
  intros H. destruct (pkey_eqb k k') eqn:E.
  - exists a'. split; [reflexivity | left; reflexivity].
  - destruct H as [H|H].
    + subst k'. rewrite pkey_eqb_refl in E. discriminate.
    + destruct (IH H) as (a & Ha & Hin). exists a. split; [exact Ha | right; exact Hin].
Qed.

Lemma lookup_some_in {A} k (l : list (pkey * A)) a :
  lookup k l = Some a -> In k (map fst l) /\ In a (map snd l).
Proof.
  induction l as [|[k' a'] l IH]; simpl; [discriminate|].
  destruct (pkey_eqb k k') eqn:E.
  - intros H. injection H as <-. apply pkey_eqb_eq in E. subst. split; left; reflexivity.
  - intros H. destruct (IH H). split; right; assumption.
Qed.

Lemma in_map_fst_store {A} k (a : A) l k0 :
  In k0 (map fst (store k a l)) -> k0 = k \/ In k0 (map fst l).
Proof.
  induction l as [|[k' a'] l IH]; simpl.
  - intros [<-|[]]. left. reflexivity.
  - destruct (pkey_eqb k k') eqn:E; simpl.
    + apply pkey_eqb_eq in E. subst k'. intros [<-|H]; auto.
    + intros [<-|H]; auto. destruct (IH H); auto.
Qed.

Lemma lookup_map_keys (g : pkey -> val) ks k :
  lookup k (map (fun k => (k, g k)) ks)
  = if existsb (pkey_eqb k) ks then Some (g k) else None.
Proof.
  induction ks as [|k' ks IH]; simpl; [reflexivity|].
  destruct (pkey_eqb k k') eqn:E; simpl; [|exact IH].
  apply pkey_eqb_eq in E. subst. reflexivity.
Qed.

(* ------------------------------------------------------------------ *)
(** ** The default value of a descriptor *)

Lemma initialize_TupleOf id types :
  initialize (TupleOf id types) = xs <- initialize_all types ;; Ok (js_array xs).
Proof. reflexivity. Qed.

Lemma initialize_RecordOf id types :
  initialize (RecordOf id types) =
  xs <- initialize_keys types (own_keys types) ;; Ok (js_object xs).
Proof.
  cbn [initialize]. f_equal.
  induction (own_keys types) as [|k ks IH]; [reflexivity|].
  cbn [initialize_keys]. rewrite <- IH. f_equal.
  unfold initialize_at. clear.
  induction types as [|[k' t'] types IH]; simpl; [reflexivity|].
  destruct (pkey_eqb k k'); [reflexivity | exact IH].
Qed.

Lemma initialize_keys_lookup types : forall ks xs,
  initialize_keys types ks = Ok xs ->
  map fst xs = ks /\
  forall k, In k ks -> exists t x, lookup k types = Some t /\ initialize t = Ok x
                                   /\ lookup k xs = Some x.
Proof.
  induction ks as [|k ks IH]; intros xs; cbn [initialize_keys].
  - intros H. injection H as <-. split; [reflexivity | intros k []].
  - unfold initialize_at at 1.
    destruct (lookup k types) as [t|] eqn:L; [|discriminate].
    destruct (initialize t) as [x|e] eqn:I; [|discriminate]. cbn [bind].
    destruct (initialize_keys types ks) as [xs'|e] eqn:K; [|discriminate]. cbn [bind].
    intros H. injection H as <-.
    destruct (IH xs' eq_refl) as [Hk Hl]. split; [simpl; f_equal; exact Hk|].
    intros k0 Hin. simpl.
    destruct (pkey_eqb k0 k) eqn:E.
    + apply pkey_eqb_eq in E. subst k0. exists t, x. auto.
    + destruct Hin as [->|Hin]; [rewrite pkey_eqb_refl in E; discriminate|].
      exact (Hl k0 Hin).
Qed.

(** An initializable descriptor returns a default, and validates it. *)
Lemma initialize_valid t :
  initializable t = true ->
  exists v, initialize t = Ok v /\ isValid t v = Ok true.
Proof.
  induction t as [b|id c|id p|id l p|id ts IH|id t IH|id ts IH|id fs IH|id t IH|id ovs IH]
    using ty_induction; intros Hi.
  - destruct b; try discriminate; eexists; split; reflexivity.
  - discriminate.
  - exists (VPrim p). split; [reflexivity|]. simpl.
    rewrite prim_eqb_refl; [reflexivity|]. intros ->. discriminate.
  - eexists. split; [reflexivity|]. simpl. rewrite Nat.eqb_refl. reflexivity.
  - destruct ts as [|t ts]; [discriminate|].
    inversion IH as [|? ? Ht _]; subst.
    destruct (Ht Hi) as (v & Hv & Hval). exists v. split; [exact Hv|].
    cbn [isValid]. rewrite Hval. reflexivity.
  - eexists. split; reflexivity.
  - rewrite initialize_TupleOf.
    assert (H : exists xs, initialize_all ts = Ok xs
                           /\ TupleOf_every ts (map Some xs) = Ok true).
    { simpl in Hi. induction IH as [|t ts Ht _ IHts].
      - exists []. split; reflexivity.
      - simpl in Hi. apply andb_true_iff in Hi. destruct Hi as [Hi1 Hi2].
        destruct (Ht Hi1) as (x & Hx & Hvx).
        destruct (IHts Hi2) as (xs & Hxs & Hvxs).
        exists (x :: xs). split.
        + simpl. rewrite Hx, Hxs. reflexivity.
        + simpl. rewrite Hvx. exact Hvxs. }
    destruct H as (xs & Hxs & Hv). exists (js_array xs). rewrite Hxs. split; [reflexivity|].
    rewrite TupleOf_isValid_unfold. exact Hv.
  - rewrite initialize_RecordOf.
    assert (Hall : forall k, In k (own_keys fs) ->
                   exists t x, lookup k fs = Some t /\ initialize t = Ok x
                               /\ isValid t x = Ok true).
    { intros k Hk. apply in_own_keys in Hk.
      destruct (lookup_in k fs Hk) as (t & Ht & Hin).
      apply in_map_iff in Hin. destruct Hin as [[k' t'] [Heq Hin]]. simpl in Heq. subst t'.
      rewrite Forall_forall in IH. simpl in Hi. rewrite forallb_forall in Hi.
      destruct (IH _ Hin (Hi _ Hin)) as (x & Hx & Hv).
      exists t, x. auto. }
    assert (Hsome : exists xs, initialize_keys fs (own_keys fs) = Ok xs).
    { revert Hall. generalize (own_keys fs). intros ks.
      induction ks as [|k ks IHks]; intros Hall.
      - exists []. reflexivity.
      - destruct (Hall k (or_introl eq_refl)) as (t & x & Hl & Hx & _).
        destruct IHks as [xs Hxs]; [intros k0 Hk0; apply Hall; right; exact Hk0|].
        exists ((k, x) :: xs). cbn [initialize_keys]. unfold initialize_at.
        rewrite Hl, Hx, Hxs. reflexivity. }
    destruct Hsome as [xs Hxs]. rewrite Hxs. exists (js_object xs).
    split; [reflexivity|].
    destruct (initialize_keys_lookup fs _ _ Hxs) as [Hkeys Hlook].
    apply (RecordOf_isValid_true id fs (js_object xs) xs); [reflexivity | reflexivity|].
    intros k Hk. apply in_own_keys in Hk. rewrite Hkeys in Hk.
    destruct (Hlook k Hk) as (t & x & Hl & Hx & Hxl).
    destruct (Hall k Hk) as (t' & x' & Hl' & Hx' & Hv').
    rewrite Hl in Hl'. injection Hl' as <-. rewrite Hx in Hx'. injection Hx' as <-.
    exists t. split; [exact Hl|].
    unfold get. cbn [own_props js_object unproxy]. rewrite Hxl. exact Hv'.
  - exists VNull. split; reflexivity.
  - eexists. split; reflexivity.
Qed.

(** X1. [initialize()] returns a value that the descriptor validates,
    for every descriptor that does not reach [Type.null], a class or the
    literal [NaN] where [initialize] looks: the singletons but
    [Type.null], the literals but [NaN], instances, arrays, nullables,
    function types, the unions whose first member is such a descriptor, the
    tuples and records of such descriptors.  The descriptor of a class or
    of an arrow function has no initial value: its default is [undefined],
    which it does not validate.  And the default of [type(NaN)] is [NaN],
    which it does not validate either: it validates no value. *)
Theorem default_value_is_valid :
  (forall t, initializable t = true ->
             exists v, initialize t = Ok v /\ isValid t v = Ok true)
  /\ (forall id c, initialize (InstanceOf id c) = Ok VUndefined
                   /\ isValid (InstanceOf id c) VUndefined = Ok false)
  /\ (forall id, initialize (Primitive id PrNaN) = Ok (VPrim PrNaN)
                 /\ forall v, isValid (Primitive id PrNaN) v = Ok false).
Proof.
  split; [exact initialize_valid|]. split.
  - intros id c. split; [reflexivity|]. destruct c; reflexivity.
  - intros id. split; [reflexivity|]. intros v.
    destruct v as [| |[]| | | | |]; reflexivity.
Qed.

(** A use of X1: the default of [{a: [Number, String?], b: oneOf("x", 1)}]. *)
Lemma default_value_is_valid_witness :
  let t := RecordOf 4 [(PName "a", TupleOf 1 [Type_number; Nullable 0 Type_string]);
                       (PName "b", OneOf 3 [Primitive 2 (PrStr "x"); Type_number])] in
  initializable t = true
  /\ exists v, initialize t = Ok v /\ isValid t v = Ok true.
Proof.
  split; [reflexivity|].
  apply (proj1 default_value_is_valid). reflexivity.
Defined.

(* ------------------------------------------------------------------ *)
(** ** Wrapping a valid value *)

Lemma OneOf_isValid_cons id t ts v :
  isValid (OneOf id (t :: ts)) v =
  b <- isValid t v ;; if b then Ok true else isValid (OneOf id ts) v.
Proof. reflexivity. Qed.

(** A validity check that does not compare the identity of the value
    gives the same answer on an object and on a proxy of it. *)
Lemma isValid_through_proxy h v t :
  proxy_transparent t = true -> is_object v = true ->
  isValid t (VProxy h v) = isValid t v.
Proof.
  intros Ht Hv. revert Ht.
  induction t as [b|id c|id p|id l p|id ts IH|id t IH|id ts IH|id fs IH|id t IH|id ovs IH]
    using ty_induction; intros Ht.
  - destruct b; try reflexivity; destruct v; try discriminate; reflexivity.
  - destruct c; [reflexivity|]. simpl. rewrite Hv. reflexivity.
  - destruct v; try discriminate; reflexivity.
  - discriminate.
  - simpl in Ht. induction IH as [|t ts Hx _ IHts]; [reflexivity|].
    simpl in Ht. apply andb_true_iff in Ht. destruct Ht as [Ht1 Ht2].
    rewrite !OneOf_isValid_cons, (Hx Ht1), (IHts Ht2). reflexivity.
  - reflexivity.
  - reflexivity.
  - reflexivity.
  - simpl in Ht. cbn [isValid]. rewrite (IH Ht).
    destruct v; try discriminate; reflexivity.
  - reflexivity.
Qed.

Lemma valid_collection_is_object t v :
  collection_type t = true -> isValid t v = Ok true -> is_object v = true.
Proof.
  intros Ht Hv. destruct v as [| |p| | | | |]; try reflexivity; exfalso;
    destruct t; try discriminate; try destruct p; cbn in Hv; discriminate.
Qed.

(** What [editValue] returns for a valid value is valid. *)
Lemma editValue_keeps_valid t v w :
  proxy_transparent t = true ->
  isValid t v = Ok true -> editValue t v = Ok w -> isValid t w = Ok true.
Proof.
  intros Ht Hv He.
  destruct t; cbn [editValue] in He;
    try (injection He as <-; exact Hv).
  - destruct (negb (jstype_eqb (typeof v) TyObject)); [injection He as <-; exact Hv|].
    unfold new_Proxy in He. destruct (is_object v) eqn:O; [|discriminate].
    injection He as <-. rewrite isValid_through_proxy; assumption.
  - unfold new_Proxy in He. destruct (is_object v) eqn:O; [|discriminate].
    injection He as <-. exact Hv.
  - unfold new_Proxy in He. destruct (is_object v) eqn:O; [|discriminate].
    injection He as <-. exact Hv.
  - unfold new_Proxy in He. destruct (is_object v) eqn:O; [|discriminate].
    injection He as <-. exact Hv.
  - injection He as <-. reflexivity.
Qed.

(** [editValue] returns for every value the descriptor validates, a union
    given [null] apart. *)
Lemma editValue_returns t v :
  isValid t v = Ok true -> is_union t && is_null v = false ->
  exists w, editValue t v = Ok w.
Proof.
  intros Hv Hnull.
  destruct (collection_type t) eqn:C.
  - pose proof (valid_collection_is_object t v C Hv) as O.
    destruct t; try discriminate; cbn [editValue]; unfold new_Proxy; rewrite O;
      eexists; reflexivity.
  - destruct t; try discriminate; cbn [editValue]; try (eexists; reflexivity).
    destruct (negb (jstype_eqb (typeof v) TyObject)) eqn:E; [eexists; reflexivity|].
    unfold new_Proxy.
    destruct v as [| |p| | | | |]; try (eexists; reflexivity); try discriminate.
    destruct p; discriminate.
Qed.

(** X2. [editValue] returns for every value that the descriptor validates,
    except that a union throws on [null] (it builds a proxy of every value
    whose [typeof] is ["object"]), also when one of its members validates
    [null].  What it returns is still valid for the descriptor, provided
    the descriptor does not compare the value with an instance by identity:
    the proxy a union builds of the instance that one of its members stands
    for is not that instance. *)
Theorem editValue_of_valid_value :
  (forall t v,
      isValid t v = Ok true -> is_union t && is_null v = false ->
      exists w, editValue t v = Ok w
                /\ (proxy_transparent t = true -> isValid t w = Ok true))
  /\ (forall id ts, editValue (OneOf id ts) VNull = Throw (Native ProxyTarget))
  /\ (let t := OneOf 1 [Instance 0 7 (ProtoClass [3]); Type_number] in
      let v := VObj (Some 7) (ProtoClass [3]) [] [] in
      isValid t v = Ok true
      /\ editValue t v = Ok (VProxy t v)
      /\ isValid t (VProxy t v) = Ok false).
Proof.
  split; [|split].
  - intros t v Hv Hnull. destruct (editValue_returns t v Hv Hnull) as [w Hw].
    exists w. split; [exact Hw|]. intros Ht.
    exact (editValue_keeps_valid t v w Ht Hv Hw).
  - reflexivity.
  - repeat split.
Qed.

(** A use of X2: [oneOf(arrayOf(Number), String).editValue([1])]. *)
Lemma editValue_of_valid_value_witness :
  let t := OneOf 1 [ArrayOf 0 Type_number; Type_string] in
  let v := js_array [VNum 1] in
  isValid t v = Ok true
  /\ is_union t && is_null v = false
  /\ exists w, editValue t v = Ok w
               /\ (proxy_transparent t = true -> isValid t w = Ok true).
Proof.
  split; [reflexivity|]. split; [reflexivity|].
  apply (proj1 editValue_of_valid_value); reflexivity.
Defined.

(* ------------------------------------------------------------------ *)
(** ** The field of a typed accessor *)

Lemma typed_set_keeps_valid ty stored v :
  proxy_transparent ty = true ->
  isValid ty stored = Ok true ->
  isValid ty (fst (typed_set ty stored v)) = Ok true.
Proof.
  intros Ht Hs. unfold typed_set.
  destruct (isValid ty v) as [[|]|e] eqn:V; try exact Hs.
  destruct (editValue ty v) as [w|e] eqn:E; [|exact Hs].
  exact (editValue_keeps_valid ty v w Ht V E).
Qed.

(** X3. The field behind a [@typed] accessor always holds a value that
    the type validates: once [init] has returned (with the value given, or
    with the default of a type that has a valid one, which leaves out
    [Type.null], classes and the literal [NaN]), whatever is assigned
    afterwards, and whether the assignments are stored, ignored as invalid
    or throw, the field is valid.  The type must not compare the value with
    an instance by identity. *)
Theorem typed_accessor_keeps_validity ty v0 s0 vs :
  proxy_transparent ty = true ->
  defaults_to_valid ty v0 = true ->
  typed_init ty v0 = Ok s0 ->
  isValid ty (typed_sets ty s0 vs) = Ok true.
Proof.
  intros Ht Hinit H0.
  assert (Hs : isValid ty s0 = Ok true).
  { unfold typed_init in H0.
    destruct v0; try (destruct (isValid ty _) as [[|]|e] eqn:V; simpl in H0;
                      try discriminate; injection H0 as <-; exact V).
    destruct (initialize_valid ty Hinit) as (v & Hv & Hval).
    rewrite Hv in H0. injection H0 as <-. exact Hval. }
  clear H0. revert s0 Hs. unfold typed_sets.
  induction vs as [|v vs IH]; intros s0 Hs; simpl.
  - exact Hs.
  - apply IH. apply typed_set_keeps_valid; assumption.
Qed.

(** A use of X3: an accessor typed [arrayOf(Number)], left to its default,
    then assigned ["x"], [[1, 2]] and [null]. *)
Lemma typed_accessor_keeps_validity_witness :
  let ty := ArrayOf 0 Type_number in
  let vs := [VStr "x"; js_array [VNum 1; VNum 2]; VNull] in
  proxy_transparent ty = true
  /\ defaults_to_valid ty VUndefined = true
  /\ typed_init ty VUndefined = Ok (js_array [])
  /\ isValid ty (typed_sets ty (js_array []) vs) = Ok true.
Proof.
  split; [reflexivity|]. split; [reflexivity|]. split; [reflexivity|].
  apply (typed_accessor_keeps_validity (ArrayOf 0 Type_number) VUndefined); reflexivity.
Defined.

(* ------------------------------------------------------------------ *)
(** ** What a union validates *)

Lemma OneOf_isValid_false id ts v :
  isValid (OneOf id ts) v = Ok false <-> forall t, In t ts -> isValid t v = Ok false.
Proof.
  induction ts as [|t ts IH].
  - split; [intros _ t [] | reflexivity].
  - rewrite OneOf_isValid_cons. destruct (isValid t v) as [[|]|e] eqn:V; cbn [bind].
    + split; [discriminate|]. intros H. specialize (H t (or_introl eq_refl)). congruence.
    + rewrite IH. split.
      * intros H x [<-|Hx]; [exact V | exact (H x Hx)].
      * intros H x Hx. apply H. right. exact Hx.
    + split; [discriminate|]. intros H. specialize (H t (or_introl eq_refl)). congruence.
Qed.

Lemma OneOf_isValid_true id ts v :
  isValid (OneOf id ts) v = Ok true <->
  exists before t after,
    ts = before ++ t :: after
    /\ (forall x, In x before -> isValid x v = Ok false)
    /\ isValid t v = Ok true.
Proof.
  induction ts as [|t ts IH].
  - split; [discriminate|]. intros (b & t & a & H & _). destruct b; discriminate.
  - rewrite OneOf_isValid_cons. destruct (isValid t v) as [[|]|e] eqn:V; cbn [bind].
    + split; [|reflexivity]. intros _. exists [], t, ts. repeat split; auto.
      intros x [].
    + rewrite IH. split.
      * intros (b & t' & a & -> & Hb & Ht). exists (t :: b), t', a. repeat split; auto.
        intros x [<-|Hx]; [exact V | exact (Hb x Hx)].
      * intros (b & t' & a & Heq & Hb & Ht). destruct b as [|x b].
        -- injection Heq as <- <-. congruence.
        -- injection Heq as <- ->. exists b, t', a. repeat split; auto.
           intros y Hy. apply Hb. right. exact Hy.
    + split; [discriminate|]. intros (b & t' & a & Heq & Hb & Ht). destruct b as [|x b].
      * injection Heq as <- <-. congruence.
      * injection Heq as <- ->. specialize (Hb t (or_introl eq_refl)). congruence.
Qed.

(** X6. A union asks its members in order and stops at the first that
    validates the value: it answers true exactly when some member
    validates the value and every member before it has answered false (the
    members after it are not asked, so one that would throw does no harm);
    it answers false exactly when every member answers false; in every
    other case the check of a member throws, and so does the union.  So a
    union with [Type.null] among its members never answers false. *)
Theorem union_validity id ts v :
  (isValid (OneOf id ts) v = Ok true <->
   exists before t after,
     ts = before ++ t :: after
     /\ (forall x, In x before -> isValid x v = Ok false)
     /\ isValid t v = Ok true)
  /\ (isValid (OneOf id ts) v = Ok false <-> forall t, In t ts -> isValid t v = Ok false)
  /\ (In (Base BNull) ts -> isValid (OneOf id ts) v <> Ok false).
Proof.
  split; [apply OneOf_isValid_true|]. split; [apply OneOf_isValid_false|].
  intros Hin H. rewrite OneOf_isValid_false in H. specialize (H _ Hin). discriminate.
Qed.

(** A use of X6: [oneOf(Number, null)] throws on ["x"], and validates [1]. *)
Lemma union_validity_witness :
  In (Base BNull) [Type_number; Base BNull]
  /\ isValid (OneOf 0 [Type_number; Base BNull]) (VStr "x") <> Ok false
  /\ isValid (OneOf 0 [Type_number; Base BNull]) (VStr "x") = Throw NullTypeError
  /\ isValid (OneOf 0 [Type_number; Base BNull]) (VNum 1) = Ok true.
Proof.
  split; [right; left; reflexivity|]. split; [|split; reflexivity].
  apply (proj2 (proj2 (union_validity 0 [Type_number; Base BNull] (VStr "x")))).
  right; left; reflexivity.
Defined.

(* ------------------------------------------------------------------ *)
(** ** Writes through the proxy of a collection keep it valid *)

Lemma element_in es i x : element es i = Some x -> In (Some x) es.
Proof.
  unfold element. destruct (nth_error es i) as [e|] eqn:E; [|discriminate].
  intros ->. exact (nth_error_In es i E).
Qed.

Lemma in_element es x : In (Some x) es -> exists i, element es i = Some x.
Proof.
  intros H. destruct (In_nth_error es (Some x) H) as [i Hi].
  exists i. unfold element. rewrite Hi. reflexivity.
Qed.

(** An array descriptor validates an array exactly when the element
    descriptor validates every element the array has. *)
Lemma ArrayOf_isValid_true id t v :
  isValid (ArrayOf id t) v = Ok true <->
  isArray v = true
  /\ forall i x, element (elements v) i = Some x -> isValid t x = Ok true.
Proof.
  cbn [isValid]. destruct (isArray v); [|split; [discriminate | intros [H _]; discriminate]].
  rewrite every_true. split.
  - intros H. split; [reflexivity|]. intros i x Hx.
    exact (H (Some x) (element_in _ _ _ Hx)).
  - intros [_ H] [x|] Hin; [|reflexivity].
    destruct (in_element _ _ Hin) as [i Hi]. exact (H i x Hi).
Qed.

Lemma element_resize n es i :
  element (resize n es) i = if Nat.ltb i n then element es i else None.
Proof.
  unfold element, resize.
  destruct (Nat.lt_ge_cases i (List.length (firstn n es))) as [Hlt|Hge].
  - rewrite nth_error_app1 by exact Hlt. rewrite nth_error_firstn.
    destruct (Nat.ltb i n) eqn:E; [reflexivity|].
    rewrite length_firstn in Hlt. apply Nat.ltb_ge in E. lia.
  - rewrite nth_error_app2 by exact Hge.
    rewrite length_firstn in Hge.
    assert (Hnone : match nth_error (repeat (@None val) (n - List.length es))
                            (i - List.length (firstn n es)) with
                    | Some e => e
                    | None => None
                    end = None).
    { destruct (nth_error _ _) as [e|] eqn:E; [|reflexivity].
      apply nth_error_In, repeat_spec in E. exact E. }
    rewrite Hnone. destruct (Nat.ltb i n) eqn:E; [|reflexivity].
    apply Nat.ltb_lt in E.
    destruct (nth_error es i) as [e|] eqn:N; [|reflexivity].
    assert (i < List.length es) by (apply nth_error_Some; congruence). lia.
Qed.

Lemma children_declared t prop child :
  children_transparent t = true -> declared_at t prop = Some child ->
  proxy_transparent child = true.
Proof.
  intros Hc Hd. destruct t; try discriminate; cbn in Hc, Hd.
  - injection Hd as <-. exact Hc.
  - destruct prop as [i| |]; try discriminate.
    rewrite forallb_forall in Hc. exact (Hc child (nth_error_In _ _ Hd)).
  - rewrite forallb_forall in Hc.
    destruct (lookup_some_in _ _ _ Hd) as [_ Hin].
    apply in_map_iff in Hin. destruct Hin as (e & <- & He). exact (Hc e He).
Qed.

(** A write that the proxy of an array, tuple or record accepts leaves a
    valid collection valid, and an ordinary object. *)
Lemma accepted_write_valid t target prop v r r' target' :
  collection_type t = true ->
  children_transparent t = true ->
  is_proxy target = false ->
  isValid t target = Ok true ->
  Proxy_set t target prop v r = (r', target', Ok true) ->
  isValid t target' = Ok true /\ is_proxy target' = false.
Proof.
  intros Ht Hchild Hproxy Hvalid Hset.
  destruct (set_trap_accepted _ _ _ _ _ _ _ _ Ht Hset)
    as (child & v' & Hdecl & Hv & Hedit & Hassign).
  pose proof (editValue_keeps_valid child v v'
                (children_declared t prop child Hchild Hdecl) Hv Hedit) as Hv'.
  rewrite (assign_ordinary target prop v' r Hproxy) in Hassign.
  destruct (assign_own target prop v') as [o|e] eqn:A; [|discriminate].
  injection Hassign as <- <-.
  destruct t as [| | | | |id type|id types|id types| |]; try discriminate.
  - (* an array of [type] *)
    cbn [declared_at] in Hdecl. injection Hdecl as <-.
    apply ArrayOf_isValid_true in Hvalid. destruct Hvalid as [Harr Helems].
    destruct target as [| | | |elems named| | |]; try discriminate.
    rewrite ArrayOf_isValid_true. cbn [elements unproxy] in Helems.
    destruct prop as [i|s|n]; cbn [assign_own] in A.
    + injection A as <-. split; [|reflexivity]. split; [reflexivity|].
      intros j x. cbn [elements unproxy].
      rewrite element_set_element. destruct (Nat.eqb j i).
      * intros Hx. injection Hx as <-. exact Hv'.
      * apply Helems.
    + destruct (String.eqb s "length").
      * destruct (to_array_length v') as [n|e]; [|discriminate].
        injection A as <-. split; [|reflexivity]. split; [reflexivity|].
        intros j x. cbn [elements unproxy]. rewrite element_resize.
        destruct (Nat.ltb j n); [apply Helems | discriminate].
      * injection A as <-. split; [|reflexivity]. split; [reflexivity | exact Helems].
    + injection A as <-. split; [|reflexivity]. split; [reflexivity | exact Helems].
  - (* a tuple *)
    rewrite TupleOf_isValid_unfold in Hvalid |- *.
    destruct target as [| | | |elems named| | |]; try discriminate.
    cbn [isArray elements unproxy] in Hvalid.
    destruct prop as [i|s|n]; cbn [declared_at] in Hdecl; try discriminate.
    cbn [assign_own] in A. injection A as <-. cbn [isArray elements unproxy].
    split; [|reflexivity].
    rewrite TupleOf_every_true in Hvalid |- *.
    intros j x. rewrite element_set_element.
    destruct (Nat.eqb j i) eqn:E.
    + apply Nat.eqb_eq in E. subst j. intros Hx. injection Hx as <-.
      exists child. split; assumption.
    + apply Hvalid.
  - (* a record *)
    cbn [declared_at] in Hdecl.
    destruct target as [| |q| | |oid p props hidden| |];
      try discriminate; try (cbn in Hvalid; discriminate).
    cbn [assign_own] in A. injection A as <-. split; [|reflexivity].
    rewrite (RecordOf_isValid_true id types (VObj oid p props hidden) props eq_refl eq_refl)
      in Hvalid.
    apply (RecordOf_isValid_true id types (VObj oid p (store prop v' props) hidden)
             (store prop v' props) eq_refl eq_refl).
    intros k Hk. apply in_own_keys, in_map_fst_store in Hk.
    destruct (pkey_eqb k prop) eqn:E.
    + apply pkey_eqb_eq in E. subst k. exists child. split; [exact Hdecl|].
      unfold get. cbn [own_props unproxy]. rewrite lookup_store_same. exact Hv'.
    + assert (Hne : k <> prop) by (intros ->; rewrite pkey_eqb_refl in E; discriminate).
      destruct Hk as [Hk|Hk]; [contradiction|].
      destruct (Hvalid k (proj2 (in_own_keys k props) Hk)) as (t & Hl & Hvk).
      exists t. split; [exact Hl|].
      unfold get in Hvk |- *. cbn [own_props unproxy] in Hvk |- *.
      rewrite lookup_store_other by exact Hne. exact Hvk.
Qed.

(** X4. A valid array, tuple or record behind the proxy that [editValue]
    builds stays valid whatever is written through the proxy: after any
    sequence of writes, accepted, refused or throwing, the descriptor still
    validates the collection.  This holds for a collection that is not
    itself a proxy, and when the descriptors declared for the keys do not
    compare the value with an instance by identity. *)
Theorem collection_proxy_keeps_validity t : forall writes target r,
  collection_type t = true ->
  children_transparent t = true ->
  is_proxy target = false ->
  isValid t target = Ok true ->
  isValid t (snd (Proxy_sets t target writes r)) = Ok true.
Proof.
  induction writes as [|[prop v] writes IH]; intros target r Ht Hc Hp Hv; cbn [Proxy_sets].
  - exact Hv.
  - destruct (Proxy_set t target prop v r) as [[r' target'] res] eqn:S.
    assert (H : isValid t target' = Ok true /\ is_proxy target' = false).
    { destruct res as [[|]|e].
      - exact (accepted_write_valid _ _ _ _ _ _ _ Ht Hc Hp Hv S).
      - rewrite (Proxy_set_rejected _ _ _ _ _ _ _ _ S) by discriminate. auto.
      - rewrite (Proxy_set_rejected _ _ _ _ _ _ _ _ S) by discriminate. auto. }
    destruct H as [Hv' Hp']. exact (IH target' r' Ht Hc Hp' Hv').
Qed.

(** A use of X4: on the proxy of [[1]] typed [arrayOf(Number)], the writes
    [p[3] = 2], [p[0] = "x"], [p.length = 2] and [p.length = "x"]. *)
Lemma collection_proxy_keeps_validity_witness :
  let t := ArrayOf 0 Type_number in
  let writes := [(PIdx 3, VNum 2); (PIdx 0, VStr "x"); (length_key, VNum 2);
                 (length_key, VStr "x")] in
  collection_type t = true
  /\ children_transparent t = true
  /\ is_proxy (js_array [VNum 1]) = false
  /\ isValid t (js_array [VNum 1]) = Ok true
  /\ snd (Proxy_sets t (js_array [VNum 1]) writes initial) = VArr [Some (VNum 1); None] []
  /\ isValid t (snd (Proxy_sets t (js_array [VNum 1]) writes initial)) = Ok true.
Proof.
  split; [reflexivity|]. split; [reflexivity|]. split; [reflexivity|].
  split; [reflexivity|]. split; [reflexivity|].
  apply (collection_proxy_keeps_validity (ArrayOf 0 Type_number)); reflexivity.
Defined.

(* ------------------------------------------------------------------ *)
(** ** Writes through the proxy of a union *)

Lemma filter_r_kept {A} (f : A -> result bool) l kept :
  filter_r f l = Ok kept -> forall x, In x kept -> In x l /\ f x = Ok true.
Proof.
  revert kept. induction l as [|y l IH]; intros kept; simpl.
  - intros H. injection H as <-. intros x [].
  - destruct (f y) as [b|e] eqn:F; [|discriminate]. cbn [bind].
    destruct (filter_r f l) as [kept'|e]; [|discriminate]. cbn [bind].
    intros H. injection H as <-. intros x Hx.
    destruct b.
    + destruct Hx as [<-|Hx]; [split; [left; reflexivity | exact F]|].
      destruct (IH kept' eq_refl x Hx). split; [right|]; assumption.
    + destruct (IH kept' eq_refl x Hx). split; [right|]; assumption.
Qed.

Lemma element_fill es i x :
  element es i = Some x -> element (map fill es) i = Some x.
Proof.
  unfold element. rewrite nth_error_map.
  unfold fill. destruct (nth_error es i) as [[y|]|]; simpl; congruence.
Qed.

Lemma post_write_relation target prop v copy after :
  is_proxy target = false -> typeof target = TyObject ->
  all_enumerable target = true ->
  post_write_copy target prop v = Ok copy ->
  assign_own target prop v = Ok after ->
  written_copy copy after.
Proof.
  intros Hproxy Htype Henum Hcopy Hafter.
  destruct target as [| |q| |elems named|oid p props hidden| |]; try discriminate.
  - (* an array *)
    left. unfold post_write_copy in Hcopy. cbn [isArray unproxy] in Hcopy.
    unfold spread_array in Hcopy. cbn [elements unproxy] in Hcopy.
    change (map (fun e => Some match e with Some x => x | None => VUndefined end) elems)
      with (map fill elems) in Hcopy.
    destruct prop as [i|s|n]; cbn [assign_own] in Hcopy, Hafter.
    + injection Hcopy as <-. injection Hafter as <-.
      eexists _, _, _, _. split; [reflexivity|]. split; [reflexivity|].
      intros j x. rewrite !element_set_element.
      destruct (Nat.eqb j i); [exact (fun H => H) | apply element_fill].
    + destruct (String.eqb s "length").
      * destruct (to_array_length v) as [n|e]; [|discriminate].
        cbn [bind] in Hcopy, Hafter. injection Hcopy as <-. injection Hafter as <-.
        eexists _, _, _, _. split; [reflexivity|]. split; [reflexivity|].
        intros j x. rewrite !element_resize.
        destruct (Nat.ltb j n); [apply element_fill | discriminate].
      * injection Hcopy as <-. injection Hafter as <-.
        eexists _, _, _, _. split; [reflexivity|]. split; [reflexivity|].
        apply element_fill.
    + injection Hcopy as <-. injection Hafter as <-.
      eexists _, _, _, _. split; [reflexivity|]. split; [reflexivity|].
      apply element_fill.
  - (* an object *)
    destruct hidden; [|discriminate].
    right. unfold post_write_copy in Hcopy. cbn [isArray unproxy] in Hcopy.
    unfold spread_object, js_object in Hcopy.
    cbn [unproxy own_props not_enumerable existsb negb] in Hcopy.
    rewrite filter_all in Hcopy.
    cbn [assign_own] in Hcopy, Hafter.
    injection Hcopy as <-. injection Hafter as <-.
    eexists _, _, _, _. split; [reflexivity|]. split; [reflexivity|].
    intros k Hk.
    set (keys := getOwnPropertyNames props ++ symbol_keys props).
    set (g := fun k0 => get (VObj oid p props []) k0).
    assert (Hkeys : forall k0, In k0 (map fst props) -> existsb (pkey_eqb k0) keys = true).
    { intros k0 H0. apply existsb_exists. exists k0. split; [|apply pkey_eqb_refl].
      apply in_own_keys in H0. unfold own_keys in H0. unfold keys.
      rewrite in_app_iff in H0 |- *. tauto. }
    destruct (pkey_eqb k prop) eqn:E.
    + apply pkey_eqb_eq in E. subst k. rewrite !lookup_store_same. split; [|reflexivity].
      apply (lookup_some_in prop _ v). apply lookup_store_same.
    + assert (Hne : k <> prop) by (intros ->; rewrite pkey_eqb_refl in E; discriminate).
      rewrite !lookup_store_other by exact Hne.
      apply in_map_fst_store in Hk. destruct Hk as [Hk|Hk]; [contradiction|].
      assert (Hl : lookup k (map (fun k0 => (k0, g k0)) keys) = lookup k props).
      { rewrite lookup_map_keys, (Hkeys k Hk). unfold g, get. cbn [own_props unproxy].
        destruct (lookup_in k props Hk) as (a & -> & _). reflexivity. }
      split; [|exact Hl].
      destruct (lookup k (store prop v (map (fun k0 => (k0, g k0)) keys))) as [a|] eqn:L.
      * exact (proj1 (lookup_some_in _ _ _ L)).
      * rewrite lookup_store_other in L by exact Hne. rewrite Hl in L.
        destruct (lookup_in k props Hk) as (a & Ha & _). congruence.
Qed.

(** A member that validates the copy validates the object after the
    write. *)
Lemma copy_valid copy after :
  written_copy copy after ->
  forall t, union_free t = true ->
            isValid t copy = Ok true -> isValid t after = Ok true.
Proof.
  intros Hrel t.
  induction t as [b|id c|id q|id l ip|id ts|id t _|id ts|id fs|id t IH|id ovs];
    intros Hfree Hv.
  - destruct Hrel as [(eC & nC & es & nm & -> & -> & _)|(pC & oid & p & props & -> & -> & _)];
      destruct b; cbn in Hv |- *; try discriminate; reflexivity.
  - destruct Hrel as [(eC & nC & es & nm & -> & -> & _)|(pC & oid & p & props & -> & -> & _)];
      destruct c; cbn in Hv; discriminate.
  - destruct Hrel as [(eC & nC & es & nm & -> & -> & _)|(pC & oid & p & props & -> & -> & _)];
      cbn in Hv; discriminate.
  - destruct Hrel as [(eC & nC & es & nm & -> & -> & _)|(pC & oid & p & props & -> & -> & _)];
      cbn in Hv; discriminate.
  - discriminate.
  - destruct Hrel as [(eC & nC & es & nm & -> & -> & He)|(pC & oid & p & props & -> & -> & _)];
      [|cbn in Hv; discriminate].
    apply ArrayOf_isValid_true in Hv. destruct Hv as [_ Hv].
    apply ArrayOf_isValid_true. split; [reflexivity|].
    intros i x Hx. exact (Hv i x (He i x Hx)).
  - destruct Hrel as [(eC & nC & es & nm & -> & -> & He)|(pC & oid & p & props & -> & -> & _)];
      [|cbn in Hv; discriminate].
    rewrite TupleOf_isValid_unfold in Hv |- *. cbn [isArray unproxy elements] in Hv |- *.
    rewrite TupleOf_every_true in Hv |- *.
    intros i x Hx. exact (Hv i x (He i x Hx)).
  - destruct Hrel as [(eC & nC & es & nm & -> & -> & He)|(pC & oid & p & props & -> & -> & Hk)];
      [cbn in Hv; discriminate|].
    rewrite (RecordOf_isValid_true id fs (VObj None ProtoObject pC []) pC eq_refl eq_refl)
      in Hv.
    apply (RecordOf_isValid_true id fs (VObj oid p props []) props eq_refl eq_refl).
    intros k Hin. apply in_own_keys in Hin. destruct (Hk k Hin) as [HkC Hl].
    destruct (Hv k (proj2 (in_own_keys k pC) HkC)) as (t & Ht & Hvt).
    exists t. split; [exact Ht|].
    unfold get in Hvt |- *. cbn [own_props unproxy] in Hvt |- *.
    rewrite <- Hl. exact Hvt.
  - cbn [union_free] in Hfree.
    destruct Hrel as [(eC & nC & es & nm & -> & -> & He)|(pC & oid & p & props & -> & -> & Hk)];
      cbn [isValid] in Hv |- *; apply IH; assumption.
  - destruct Hrel as [(eC & nC & es & nm & -> & -> & _)|(pC & oid & p & props & -> & -> & _)];
      cbn in Hv; discriminate.
Qed.

(** After a write that the proxy of a union has committed, the value
    stored is the value written and some member of the union validates the
    object. *)
Lemma union_write_valid id subTypes target prop v r r' target' :
  forallb union_free subTypes = true ->
  is_proxy target = false -> typeof target = TyObject ->
  all_enumerable target = true ->
  Proxy_set (OneOf id subTypes) target prop v r = (r', target', Ok true) ->
  assign_own target prop v = Ok target'
  /\ exists t, In t subTypes /\ isValid t target' = Ok true.
Proof.
  intros Hfree Hproxy Htype Henum. unfold Proxy_set. cbn [set_trap]. unfold OneOf_set.
  destruct (filter_r (fun t => isValid t v) subTypes) as [checked|e]; [|discriminate].
  destruct (post_write_copy target prop v) as [copy|e] eqn:Hcopy; [|discriminate].
  destruct (filter_r (fun t => isValid t copy) subTypes) as [[|t possible]|e] eqn:F;
    try discriminate.
  - destruct (key_to_string prop); [|discriminate].
    destruct (print_all subTypes); discriminate.
  - destruct (declares_collection (t :: possible) prop r) as [r1 [[|]|e]].
    + destruct (key_to_string prop); [|discriminate].
      destruct (print_subtypes _ prop r1) as [r2 [subs|e]]; discriminate.
    + unfold commit. rewrite (assign_ordinary target prop v r1 Hproxy).
      destruct (assign_own target prop v) as [after|e] eqn:A; [|discriminate].
      intros H. injection H as <- <-. split; [reflexivity|].
      destruct (filter_r_kept _ _ _ F t (or_introl eq_refl)) as [Hin Hv].
      exists t. split; [exact Hin|].
      apply (copy_valid copy after
               (post_write_relation _ _ _ _ _ Hproxy Htype Henum Hcopy A)).
      * rewrite forallb_forall in Hfree. exact (Hfree t Hin).
      * exact Hv.
    + discriminate.
Qed.

Lemma assign_own_ordinary target prop v after :
  is_proxy target = false -> typeof target = TyObject ->
  all_enumerable target = true ->
  assign_own target prop v = Ok after ->
  is_proxy after = false /\ typeof after = TyObject /\ all_enumerable after = true.
Proof.
  intros Hp Ht He A.
  destruct target as [| |q| |elems named|oid p props hidden| |]; try discriminate;
    cbn [assign_own] in A.
  - destruct prop as [i|s|n].
    + injection A as <-. repeat split.
    + destruct (String.eqb s "length").
      * destruct (to_array_length v); [|discriminate]. injection A as <-. repeat split.
      * injection A as <-. repeat split.
    + injection A as <-. repeat split.
  - injection A as <-. repeat split. exact He.
Qed.

(** X5. An array or an object behind the proxy of a union that some
    member of the union validates stays so whatever is written through the
    proxy: after any sequence of writes, committed, refused or throwing,
    some member validates it.  This holds for a target that is not itself
    a proxy and whose own properties are all enumerable (the copy that the
    handler validates has no other), and for a union whose members are not
    (nullable) unions. *)
Theorem union_proxy_keeps_a_member id subTypes : forall writes target r,
  forallb union_free subTypes = true ->
  is_proxy target = false -> typeof target = TyObject ->
  all_enumerable target = true ->
  existsb (fun t => accepts t target) subTypes = true ->
  existsb (fun t => accepts t (snd (Proxy_sets (OneOf id subTypes) target writes r)))
          subTypes = true.
Proof.
  induction writes as [|[prop v] writes IH]; intros target r Hf Hp Ht He Hv;
    cbn [Proxy_sets].
  - exact Hv.
  - destruct (Proxy_set (OneOf id subTypes) target prop v r) as [[r' target'] res] eqn:S.
    assert (H : is_proxy target' = false /\ typeof target' = TyObject
                /\ all_enumerable target' = true
                /\ existsb (fun t => accepts t target') subTypes = true).
    { destruct res as [[|]|e].
      - destruct (union_write_valid _ _ _ _ _ _ _ _ Hf Hp Ht He S) as (A & t & Hin & Hvt).
        destruct (assign_own_ordinary _ _ _ _ Hp Ht He A) as (Hp' & Ht' & He').
        repeat split; try assumption.
        apply existsb_exists. exists t. split; [exact Hin|].
        unfold accepts. rewrite Hvt. reflexivity.
      - rewrite (Proxy_set_rejected _ _ _ _ _ _ _ _ S) by discriminate. auto.
      - rewrite (Proxy_set_rejected _ _ _ _ _ _ _ _ S) by discriminate. auto. }
    destruct H as (Hp' & Ht' & He' & Hv'). exact (IH target' r' Hf Hp' Ht' He' Hv').
Qed.

(** A use of X5: on the proxy of [{}] typed
    [oneOf({a: Number}, {b: String})], the writes [p.a = 1], [p.b = "x"]
    and [p.a = 2]. *)
Lemma union_proxy_keeps_a_member_witness :
  let subTypes := [RecordOf 0 [(PName "a", Type_number)];
                   RecordOf 1 [(PName "b", Type_string)]] in
  let writes := [(PName "a", VNum 1); (PName "b", VStr "x"); (PName "a", VNum 2)] in
  forallb union_free subTypes = true
  /\ is_proxy (js_object []) = false
  /\ typeof (js_object []) = TyObject
  /\ all_enumerable (js_object []) = true
  /\ existsb (fun t => accepts t (js_object [])) subTypes = true
  /\ snd (Proxy_sets (OneOf 2 subTypes) (js_object []) writes initial)
     = js_object [(PName "a", VNum 2)]
  /\ existsb (fun t => accepts t
                         (snd (Proxy_sets (OneOf 2 subTypes) (js_object []) writes initial)))
             subTypes = true.
Proof.
  split; [reflexivity|]. split; [reflexivity|]. split; [reflexivity|].
  split; [reflexivity|]. split; [reflexivity|]. split; [reflexivity|].
  apply (union_proxy_keeps_a_member 2); reflexivity.
Defined.

(* ------------------------------------------------------------------ *)
(** ** Sets of descriptors *)

Lemma base_eqb_eq a b : base_eqb a b = true <-> a = b.
Proof. destruct a, b; simpl; split; intros H; try discriminate; reflexivity. Qed.

Lemma ref_eqb_eq a b : ref_eqb a b = true <-> a = b.
Proof.
  destruct a as [x|x], b as [y|y]; simpl; split; intros H; try discriminate.
  - apply base_eqb_eq in H. congruence.
  - injection H as ->. apply base_eqb_refl.
  - apply Nat.eqb_eq in H. congruence.
  - injection H as ->. apply Nat.eqb_refl.
Qed.

Lemma same_ty_eq a b : same_ty a b = true <-> ty_ref a = ty_ref b.
Proof. unfold same_ty. apply ref_eqb_eq. Qed.

Lemma has_member_in l t : has_member l t = true <-> In (ty_ref t) (map ty_ref l).
Proof.
  unfold has_member. rewrite existsb_exists, in_map_iff. split.
  - intros (u & Hin & Hs). exists u. split; [|exact Hin].
    symmetry. apply ref_eqb_eq. exact Hs.
  - intros (u & Hr & Hin). exists u. split; [exact Hin|].
    unfold same_ty. rewrite Hr. apply ref_eqb_eq. reflexivity.
Qed.

Lemma has_member_ref key t u : ty_ref t = ty_ref u -> has_member key t = has_member key u.
Proof.
  intros H. unfold has_member, same_ty. rewrite H. reflexivity.
Qed.

Lemma same_members_spec a b :
  same_members a b = true <-> forall t, has_member a t = has_member b t.
Proof.
  unfold same_members. rewrite andb_true_iff, !forallb_forall. split.
  - intros [Hab Hba] t. apply eq_true_iff_eq. split; intros H.
    + apply has_member_in, in_map_iff in H. destruct H as (u & Hr & Hu).
      rewrite <- (has_member_ref b u t Hr). exact (Hab u Hu).
    + apply has_member_in, in_map_iff in H. destruct H as (u & Hr & Hu).
      rewrite <- (has_member_ref a u t Hr). exact (Hba u Hu).
  - intros H. split; intros u Hu.
    + rewrite <- H. apply has_member_in, in_map. exact Hu.
    + rewrite H. apply has_member_in, in_map. exact Hu.
Qed.

Lemma fold_add_member l : forall s,
  NoDup (map ty_ref s) ->
  NoDup (map ty_ref (fold_left add_member l s))
  /\ forall x, In x (map ty_ref (fold_left add_member l s))
               <-> In x (map ty_ref s) \/ In x (map ty_ref l).
Proof.
  induction l as [|t l IH]; intros s Hs; simpl.
  - split; [exact Hs|]. intros x. tauto.
  - unfold add_member at 2 4.
    destruct (existsb (same_ty t) s) eqn:E.
    + destruct (IH s Hs) as [Hn Hm]. split; [exact Hn|].
      intros x. rewrite Hm. split; [tauto|].
      intros [H|[<-|H]]; auto. left. apply has_member_in. exact E.
    + assert (Hs' : NoDup (map ty_ref (s ++ [t]))).
      { rewrite map_app. simpl. apply NoDup_app; [exact Hs | repeat constructor; intros [] |].
        intros x Hx [<-|[]].
        apply has_member_in in Hx. unfold has_member in Hx. congruence. }
      destruct (IH (s ++ [t]) Hs') as [Hn Hm]. split; [exact Hn|].
      intros x. rewrite Hm, map_app, in_app_iff. simpl. tauto.
Qed.

(** A [ComparableSet] holds every descriptor it was given, once. *)
Lemma ComparableSet_members l :
  NoDup (map ty_ref (ComparableSet l))
  /\ forall t, has_member (ComparableSet l) t = has_member l t.
Proof.
  change (ComparableSet l) with (fold_left add_member l []).
  destruct (fold_add_member l [] (NoDup_nil _)) as [Hn Hm]. split; [exact Hn|].
  intros t. apply eq_true_iff_eq. rewrite !has_member_in, Hm. simpl. tauto.
Qed.

Lemma equals_spec a b :
  NoDup (map ty_ref a) -> NoDup (map ty_ref b) ->
  (equals a b = true <-> forall t, has_member a t = has_member b t).
Proof.
  intros Ha Hb. unfold equals. rewrite andb_true_iff, Nat.eqb_eq, forallb_forall.
  split.
  - intros [Hlen Hincl] t.
    assert (Hab : incl (map ty_ref a) (map ty_ref b)).
    { intros x Hx. apply in_map_iff in Hx. destruct Hx as (u & <- & Hu).
      apply has_member_in. exact (Hincl u Hu). }
    assert (Hba : incl (map ty_ref b) (map ty_ref a)).
    { apply NoDup_length_incl; [exact Ha | rewrite !length_map; lia | exact Hab]. }
    apply eq_true_iff_eq. rewrite !has_member_in. split; [apply Hab | apply Hba].
  - intros H.
    assert (Hab : incl (map ty_ref a) (map ty_ref b)).
    { intros x Hx. apply in_map_iff in Hx. destruct Hx as (u & <- & Hu).
      apply has_member_in. rewrite <- H. apply has_member_in. apply in_map. exact Hu. }
    assert (Hba : incl (map ty_ref b) (map ty_ref a)).
    { intros x Hx. apply in_map_iff in Hx. destruct Hx as (u & <- & Hu).
      apply has_member_in. rewrite H. apply has_member_in. apply in_map. exact Hu. }
    split.
    + pose proof (NoDup_incl_length Ha Hab). pose proof (NoDup_incl_length Hb Hba).
      rewrite !length_map in *. lia.
    + intros u Hu. apply has_member_in. apply Hab. apply in_map. exact Hu.
Qed.

(** X7. [ComparableSet] is a set, and its [equals] is equality of sets: a
    set built from a list has the members of the list, each once (by
    identity), and two sets built from two lists are [equals] exactly when
    every member of either list is identical to a member of the other,
    whatever the order and the repetitions in the lists. *)
Theorem ComparableSet_equals_is_set_equality a b :
  equals (ComparableSet a) (ComparableSet b) = same_members a b
  /\ NoDup (map ty_ref (ComparableSet a))
  /\ forall t, has_member (ComparableSet a) t = has_member a t.
Proof.
  destruct (ComparableSet_members a) as [Ha Hma].
  destruct (ComparableSet_members b) as [Hb Hmb].
  split; [|split; assumption].
  apply eq_true_iff_eq. rewrite (equals_spec _ _ Ha Hb), same_members_spec.
  split; intros H t.
  - rewrite <- Hma, <- Hmb. apply H.
  - rewrite Hma, Hmb. apply H.
Qed.

(* ------------------------------------------------------------------ *)
(** ** Unions do not depend on the order of their members *)

Lemma mapM_members : forall hs ts r,
  map descriptor_of hs = map Some ts ->
  mapM (fun t => match t with
                 | HType (OneOf _ subTypes) => ret subTypes
                 | _ => x <~ Type_getFor t ;; ret [x]
                 end) hs r
  = (r, Ok (map members_of ts)).
Proof.
  induction hs as [|h hs IH]; intros [|t ts] r H; try discriminate; [reflexivity|].
  simpl in H. injection H as Hh Hhs.
  cbn [map mapM]. unfold bindM at 1.
  assert (E : match h with
              | HType (OneOf _ subTypes) => ret subTypes
              | _ => x <~ Type_getFor h ;; ret [x]
              end r = (r, Ok (members_of t))).
  { destruct h as [t0| | |m| | | | |]; try discriminate; injection Hh as <-;
      try reflexivity.
    destruct t0; reflexivity. }
  rewrite E. unfold bindM at 1. rewrite (IH ts r Hhs). reflexivity.
Qed.

Lemma OneOf_getFor_descriptors hs ts r :
  map descriptor_of hs = map Some ts ->
  OneOf_getFor hs r = OneOf_of_set (ComparableSet (flat_members ts)) r.
Proof.
  intros H. unfold OneOf_getFor. unfold bindM at 1. rewrite (mapM_members hs ts r H).
  fold (flat_members ts).
  destruct (ComparableSet (flat_members ts)) as [|t [|t' rest]]; reflexivity.
Qed.

Lemma OneOf_of_set_many types r :
  List.length types <> 1 -> OneOf_of_set types r = OneOf_registered types r.
Proof.
  destruct types as [|t [|t' rest]]; try reflexivity. intros H. contradiction H. reflexivity.
Qed.

Lemma same_members_same_length a b :
  NoDup (map ty_ref a) -> NoDup (map ty_ref b) ->
  (forall t, has_member a t = has_member b t) ->
  List.length a = List.length b.
Proof.
  intros Ha Hb H.
  pose proof (proj2 (equals_spec a b Ha Hb) H) as E.
  unfold equals in E. apply andb_true_iff in E. destruct E as [E _].
  apply Nat.eqb_eq. exact E.
Qed.

Lemma equals_same_members a b key :
  NoDup (map ty_ref a) -> NoDup (map ty_ref b) ->
  (forall t, has_member a t = has_member b t) ->
  equals a key = equals b key.
Proof.
  intros Ha Hb H. unfold equals.
  rewrite (same_members_same_length a b Ha Hb H). f_equal.
  assert (Hsub : forall x y, (forall t, has_member x t = has_member y t) ->
                 forallb (fun val => existsb (same_ty val) key) x = true ->
                 forallb (fun val => existsb (same_ty val) key) y = true).
  { intros x y Hxy Hx. rewrite forallb_forall in Hx |- *. intros u Hu.
    assert (Hm : has_member x u = true).
    { rewrite Hxy. apply has_member_in. apply in_map. exact Hu. }
    apply has_member_in, in_map_iff in Hm. destruct Hm as (u' & Hr & Hu').
    change (has_member key u = true). rewrite <- (has_member_ref key u' u Hr).
    exact (Hx u' Hu'). }
  apply eq_true_iff_eq. split; apply Hsub; [exact H | intros t; symmetry; apply H].
Qed.

Lemma OneOf_of_set_same_members s s' r :
  NoDup (map ty_ref s) -> NoDup (map ty_ref s') ->
  (forall t, has_member s t = has_member s' t) ->
  exists r1 u u',
    OneOf_of_set s r = (r1, Ok u)
    /\ OneOf_of_set s' r1 = (r1, Ok u')
    /\ same_ty u u' = true.
Proof.
  intros Hn Hn' Hss.
  pose proof (same_members_same_length s s' Hn Hn' Hss) as Hlen.
  destruct (Nat.eq_dec (List.length s) 1) as [H1|H1].
  - destruct s as [|t [|? ?]]; try discriminate.
    destruct s' as [|t' [|? ?]]; try discriminate.
    exists r, t, t'. split; [reflexivity|]. split; [reflexivity|].
    specialize (Hss t'). unfold has_member in Hss. simpl in Hss.
    rewrite same_ty_refl in Hss. simpl in Hss. rewrite orb_false_r in Hss.
    rewrite same_ty_sym. exact Hss.
  - rewrite (OneOf_of_set_many s r H1).
    assert (H1' : List.length s' <> 1) by congruence.
    assert (Hfind : forall known,
               find (fun e => equals s' (fst e)) known
               = find (fun e : list ty * ty => equals s (fst e)) known).
    { intros known. apply find_same. intros e. symmetry.
      apply equals_same_members; assumption. }
    assert (Hself : equals s s = true).
    { apply equals_spec; [assumption | assumption |]. reflexivity. }
    unfold OneOf_registered at 1. unfold bindM, reading, ret, writing, fresh.
    destruct (find (fun e => equals s (fst e)) (OneOf_known r)) as [[key u]|] eqn:F.
    + exists r, u, u. split; [reflexivity|]. split; [|apply same_ty_refl].
      rewrite (OneOf_of_set_many s' r H1').
      unfold OneOf_registered, bindM, reading, ret. rewrite Hfind, F. reflexivity.
    + eexists _, _, _. split; [reflexivity|]. split; [|apply same_ty_refl].
      rewrite (OneOf_of_set_many s' _ H1').
      unfold OneOf_registered, bindM, reading, ret.
      cbn [set_OneOf_known OneOf_known].
      rewrite Hfind, (find_app_none _ _ _ F). cbn [fst]. rewrite Hself. reflexivity.
Qed.

Lemma type_several hs r : 2 <= List.length hs -> type hs r = OneOf_getFor hs r.
Proof.
  destruct hs as [|h [|h' hs]]; simpl; intros H; try lia. reflexivity.
Qed.

(** X8. A union does not depend on the order of the hints nor on their
    repetition: for hints that are descriptors, [null], [undefined] or
    built-in constructors, [oneOf(...hs)] and then [oneOf(...hs')] return
    one and the same descriptor whenever the members named by [hs] and by
    [hs'], the members of the unions among them included, are the same, in
    whatever state the registries are. *)
Theorem oneOf_ignores_order_and_repetition hs hs' ts ts' r :
  map descriptor_of hs = map Some ts ->
  map descriptor_of hs' = map Some ts' ->
  2 <= List.length hs -> 2 <= List.length hs' ->
  same_members (flat_members ts) (flat_members ts') = true ->
  exists r1 u u',
    oneOf hs r = (r1, Ok u)
    /\ oneOf hs' r1 = (r1, Ok u')
    /\ same_ty u u' = true.
Proof.
  intros Hts Hts' Hl Hl' H0.
  pose proof (proj1 (same_members_spec (flat_members ts) (flat_members ts')) H0) as H.
  destruct (ComparableSet_members (flat_members ts)) as [Hn Hm].
  destruct (ComparableSet_members (flat_members ts')) as [Hn' Hm'].
  destruct (OneOf_of_set_same_members _ _ r Hn Hn') as (r1 & u & u' & H1 & H2 & H3).
  { intros t. rewrite Hm, Hm'. apply H. }
  exists r1, u, u'. unfold oneOf.
  rewrite !type_several by assumption.
  rewrite (OneOf_getFor_descriptors hs ts r Hts),
          (OneOf_getFor_descriptors hs' ts' r1 Hts'). auto.
Qed.

(** A use of X8: [oneOf(Number, String, null)] and
    [oneOf(null, String, Number, String)]. *)
Lemma oneOf_ignores_order_and_repetition_witness :
  let hs := [HNumber; HString; HNull] in
  let hs' := [HNull; HString; HNumber; HString] in
  let ts := [Type_number; Type_string; Base BNull] in
  let ts' := [Base BNull; Type_string; Type_number; Type_string] in
  map descriptor_of hs = map Some ts
  /\ map descriptor_of hs' = map Some ts'
  /\ 2 <= List.length hs /\ 2 <= List.length hs'
  /\ same_members (flat_members ts) (flat_members ts') = true
  /\ exists r1 u u',
       oneOf hs initial = (r1, Ok u)
       /\ oneOf hs' r1 = (r1, Ok u')
       /\ same_ty u u' = true.
Proof.
  split; [reflexivity|]. split; [reflexivity|].
  split; [simpl; lia|]. split; [simpl; lia|]. split; [reflexivity|].
  apply (oneOf_ignores_order_and_repetition
           [HNumber; HString; HNull] [HNull; HString; HNumber; HString]
           [Type_number; Type_string; Base BNull]
           [Base BNull; Type_string; Type_number; Type_string]);
    try reflexivity; simpl; lia.
Defined.

(* ------------------------------------------------------------------ *)
(** ** Records of the same keys *)

Lemma deepEqual_objects l1 p1 fields1 obj2 :
  deepEqual (HObj l1 p1 fields1) obj2 =
  if same_hint (HObj l1 p1 fields1) obj2 then Ok true
  else if negb (jstype_eqb TyObject (typeof_hint obj2)) then Ok false
  else
    n2 <- entries_length obj2 ;;
    if negb (Nat.eqb (List.length (getOwnPropertyNames fields1)) n2) then Ok false
    else every (deepEqual_at fields1 obj2) (getOwnPropertyNames fields1).
Proof.
  assert (E : forall k,
             (fix at_key (fs : list (pkey * hint)) : result bool :=
                match fs with
                | [] => Ok true
                | (k', x) :: fs' =>
                    if pkey_eqb k k' then deepEqual x (get_hint obj2 k) else at_key fs'
                end) fields1 = deepEqual_at fields1 obj2 k).
  { intros k. unfold deepEqual_at.
    induction fields1 as [|[k' x] fields1 IH]; simpl; [reflexivity|].
    destruct (pkey_eqb k k'); [reflexivity | exact IH]. }
  cbn [deepEqual strict_equal typeof_hint entries_length bind].
  destruct (same_hint (HObj l1 p1 fields1) obj2); [reflexivity|].
  destruct (negb (jstype_eqb TyObject (typeof_hint obj2))); [reflexivity|].
  cbn [jstype_eqb].
  destruct (entries_length obj2) as [n2|e]; [|reflexivity]. cbn [bind].
  destruct (negb (Nat.eqb _ n2)); [reflexivity|].
  induction (getOwnPropertyNames fields1) as [|k ks IH]; simpl; [reflexivity|].
  rewrite E, IH. reflexivity.
Qed.

Lemma function_hint_cases h :
  function_hint h = true ->
  (exists m, h = HMarker m) \/ (exists c, h = HClass c) \/ (exists l x, h = HArrow l x).
Proof.
  unfold function_hint. destruct h as [| | | |p| | | |]; try discriminate; eauto.
  destruct p; discriminate.
Qed.

(** [deepEqual] takes any two functions for equal. *)
Lemma deepEqual_functions x y :
  function_hint x = true -> function_hint y = true -> deepEqual x y = Ok true.
Proof.
  intros Hx Hy.
  destruct (function_hint_cases x Hx) as [[m ->]|[[c ->]|(l & x' & ->)]];
    destruct (function_hint_cases y Hy) as [[m' ->]|[[c' ->]|(l' & y' & ->)]];
    cbn; try reflexivity;
    match goal with |- context [if ?b then _ else _] => destruct b; reflexivity end.
Qed.

Lemma flat_map_keys {A B C} (g : pkey -> list C) (f1 : list (pkey * A)) :
  forall (f2 : list (pkey * B)),
  map fst f1 = map fst f2 ->
  flat_map (fun e => g (fst e)) f1 = flat_map (fun e => g (fst e)) f2.
Proof.
  induction f1 as [|[k a] f1 IH]; intros [|[k' b] f2] H; try discriminate.
  - reflexivity.
  - simpl in H. injection H as <- H. simpl. rewrite (IH f2 H). reflexivity.
Qed.

Lemma length_names {A B} (f1 : list (pkey * A)) (f2 : list (pkey * B)) :
  map fst f1 = map fst f2 ->
  List.length (getOwnPropertyNames f1) = List.length (getOwnPropertyNames f2).
Proof.
  intros H. unfold getOwnPropertyNames, index_keys, string_keys.
  rewrite !length_app, !length_map.
  rewrite (flat_map_keys (fun k => match k with PIdx i => [i] | _ => [] end) f1 f2 H).
  rewrite (flat_map_keys (fun k => match k with PName s => [PName s] | _ => [] end) f1 f2 H).
  reflexivity.
Qed.

(** Two object literals with the same keys, whose values are functions,
    are deeply equal, whatever the functions. *)
Lemma deepEqual_same_keys l1 p1 fields1 l2 p2 fields2 :
  map fst fields1 = map fst fields2 ->
  forallb function_hint (map snd fields1) = true ->
  forallb function_hint (map snd fields2) = true ->
  deepEqual (HObj l1 p1 fields1) (HObj l2 p2 fields2) = Ok true.
Proof.
  intros Hk H1 H2. rewrite deepEqual_objects.
  destruct (same_hint _ _); [reflexivity|].
  cbn [typeof_hint jstype_eqb negb entries_length bind].
  rewrite (length_names fields1 fields2 Hk), Nat.eqb_refl. cbn [negb].
  apply every_true. intros k _. unfold deepEqual_at.
  destruct (lookup k fields1) as [x|] eqn:L; [|reflexivity].
  destruct (lookup_some_in k fields1 x L) as [Hkin Hxin].
  rewrite Hk in Hkin. destruct (lookup_in k fields2 Hkin) as (y & Hy & Hin).
  cbn [get_hint]. rewrite Hy.
  rewrite forallb_forall in H1, H2.
  apply deepEqual_functions; [apply H1; exact Hxin | apply H2; exact Hin].
Qed.

Lemma record_field_type_eq (type1 : hint -> M ty) fields key :
  (fix at_key (fs : list (pkey * hint)) : M ty :=
     match fs with
     | [] => ret (Base BUndefined)
     | (k', x) :: fs' => if pkey_eqb key k' then type1 x else at_key fs'
     end) fields = record_field_type type1 fields key.
Proof.
  unfold record_field_type. induction fields as [|[k' x] fields IH]; simpl; [reflexivity|].
  destruct (pkey_eqb key k'); [reflexivity | exact IH].
Qed.

Lemma Type_getFor_function_hint x r :
  function_hint x = true ->
  exists r' t, Type_getFor x r = (r', Ok t) /\ RecordOf_known r' = RecordOf_known r.
Proof.
  intros Hx.
  destruct (function_hint_cases x Hx) as [[m ->]|[[c ->]|(l & x' & ->)]];
    cbn [Type_getFor].
  - eexists _, _. split; reflexivity.
  - unfold Type_getFor_function, bindM, reading, ret, writing, fresh.
    destruct (assoc_get ctor_eqb (CClass c) (Type_known r));
      eexists _, _; split; reflexivity.
  - unfold Type_getFor_function, bindM, reading, ret, writing, fresh.
    destruct (assoc_get ctor_eqb (CArrow l) (Type_known r));
      eexists _, _; split; reflexivity.
Qed.

Lemma record_types_of_functions fields : forall ks r,
  forallb function_hint (map snd fields) = true ->
  exists r' types,
    mapM (fun key =>
            t <~ (fix at_key (fs : list (pkey * hint)) : M ty :=
                    match fs with
                    | [] => ret (Base BUndefined)
                    | (k', x) :: fs' =>
                        if pkey_eqb key k' then Type_getFor x else at_key fs'
                    end) fields ;;
            ret (key, t)) ks r = (r', Ok types)
    /\ RecordOf_known r' = RecordOf_known r
    /\ forall k m, In k ks -> lookup k fields = Some (HMarker m) ->
                   lookup k types = Some (marker_type m).
Proof.
  intros ks r Hf. revert r.
  assert (Hkey : forall key r,
             exists r' t,
               record_field_type Type_getFor fields key r = (r', Ok t)
               /\ RecordOf_known r' = RecordOf_known r
               /\ forall m, lookup key fields = Some (HMarker m) -> t = marker_type m).
  { intros key r. unfold record_field_type.
    destruct (lookup key fields) as [x|] eqn:L.
    - rewrite forallb_forall in Hf.
      destruct (Type_getFor_function_hint x r (Hf x (proj2 (lookup_some_in _ _ _ L))))
        as (r' & t & Ht & Hr).
      exists r', t. split; [exact Ht|]. split; [exact Hr|].
      intros m Hm. injection Hm as ->. cbn in Ht. injection Ht as _ <-. reflexivity.
    - eexists _, _. split; [reflexivity|]. split; [reflexivity|]. discriminate. }
  induction ks as [|k ks IH]; intros r.
  - eexists _, _. split; [reflexivity|]. split; [reflexivity|]. intros k m [].
  - cbn [mapM]. rewrite record_field_type_eq.
    destruct (Hkey k r) as (r1 & t & Ht & Hr1 & Hm1).
    destruct (IH r1) as (r2 & types & Hts & Hr2 & Hm2).
    exists r2, ((k, t) :: types). split; [|split; [congruence|]].
    + unfold bindM at 1. unfold bindM at 1. rewrite Ht. cbn [ret].
      unfold bindM at 1. rewrite Hts. reflexivity.
    + intros k0 m Hin Hl. cbn [lookup].
      destruct (pkey_eqb k0 k) eqn:E.
      * apply pkey_eqb_eq in E. subst k0. rewrite (Hm1 m Hl). reflexivity.
      * destruct Hin as [->|Hin]; [rewrite pkey_eqb_refl in E; discriminate|].
        exact (Hm2 k0 m Hin Hl).
Qed.

(** X9. [recordOf] does not tell apart two shapes with the same keys whose
    values are functions (built-in constructors, classes, arrow
    functions): [deepEqual] takes any two functions for equal.  When no
    record is registered yet, [recordOf(shape1)] registers a descriptor
    and [recordOf(shape2)] returns that very descriptor, whose key types
    are those of [shape1]: after [recordOf({a: Number})],
    [recordOf({a: String})] is the record of a number. *)
Theorem recordOf_confuses_same_keyed_shapes l1 l2 fields1 fields2 r :
  RecordOf_known r = [] ->
  map fst fields1 = map fst fields2 ->
  forallb function_hint (map snd fields1) = true ->
  forallb function_hint (map snd fields2) = true ->
  exists r1 id types,
    recordOf (HObj l1 ProtoObject fields1) r = (r1, Ok (RecordOf id types))
    /\ recordOf (HObj l2 ProtoObject fields2) r1 = (r1, Ok (RecordOf id types))
    /\ forall k m, lookup k fields1 = Some (HMarker m) ->
                   lookup k types = Some (marker_type m).
Proof.
  intros Hr Hk H1 H2.
  unfold recordOf, RecordOf_getFor, RecordOf_getFor_with.
  cbn [typeof_hint jstype_eqb negb orb].
  unfold bindM at 1. unfold reading at 1. rewrite Hr.
  unfold bindM at 1. unfold lift at 1.
  unfold bindM at 1. unfold fresh at 1.
  unfold bindM at 1.
  match goal with
  | |- context [mapM ?f ?ks ?r0] =>
      destruct (record_types_of_functions fields1 ks r0 H1) as (r' & types & Hm & Hr' & Ht)
  end.
  rewrite Hm. unfold bindM at 1. unfold writing at 1. unfold ret at 1.
  eexists _, _, _. split; [reflexivity|]. split.
  - unfold bindM at 1. unfold reading at 1.
    cbn [RecordOf_known set_RecordOf_known]. rewrite Hr'. cbn [RecordOf_known].
    rewrite Hr. cbn [assoc_set assoc_update].
    unfold bindM at 1. unfold lift at 1.
    rewrite (deepEqual_same_keys l1 ProtoObject fields1 l2 ProtoObject fields2 Hk H1 H2).
    reflexivity.
  - intros k m Hl. apply Ht; [|exact Hl].
    apply in_own_keys. exact (proj1 (lookup_some_in _ _ _ Hl)).
Qed.

(** A use of X9: [recordOf({a: Number, b: String})] and then
    [recordOf({a: String, b: Boolean})]. *)
Lemma recordOf_confuses_same_keyed_shapes_witness :
  let fields1 := [(PName "a", HNumber); (PName "b", HString)] in
  let fields2 := [(PName "a", HString); (PName "b", HMarker MBoolean)] in
  RecordOf_known initial = []
  /\ map fst fields1 = map fst fields2
  /\ forallb function_hint (map snd fields1) = true
  /\ forallb function_hint (map snd fields2) = true
  /\ exists r1 id types,
       recordOf (HObj 1 ProtoObject fields1) initial = (r1, Ok (RecordOf id types))
       /\ recordOf (HObj 2 ProtoObject fields2) r1 = (r1, Ok (RecordOf id types))
       /\ forall k m, lookup k fields1 = Some (HMarker m) ->
                      lookup k types = Some (marker_type m).
Proof.
  split; [reflexivity|]. split; [reflexivity|].
  split; [reflexivity|]. split; [reflexivity|].
  apply (recordOf_confuses_same_keyed_shapes 1 2); reflexivity.
Defined.

(* ------------------------------------------------------------------ *)
(** ** The registries only grow *)

Lemma appended_refl {A} (P : A -> Prop) l : appended P l l.
Proof. exists []. split; [symmetry; apply app_nil_r | constructor]. Qed.

Lemma appended_trans {A} (P : A -> Prop) l1 l2 l3 :
  appended P l1 l2 -> appended P l2 l3 -> appended P l1 l3.
Proof.
  intros (m1 & -> & H1) (m2 & -> & H2). exists (m1 ++ m2). split.
  - symmetry. apply app_assoc.
  - apply Forall_app. split; assumption.
Qed.

Lemma appended_one {A} (P : A -> Prop) l x : P x -> appended P l (l ++ [x]).
Proof. intros H. exists [x]. split; [reflexivity | repeat constructor; exact H]. Qed.

Lemma appended_from_nil {A} (P : A -> Prop) l : appended P [] l -> Forall P l.
Proof. intros (more & -> & H). exact H. Qed.

Lemma appended_get {K V} (eqb : K -> K -> bool) P k (v : V) l l' :
  appended P l l' -> assoc_get eqb k l = Some v -> assoc_get eqb k l' = Some v.
Proof.
  intros (more & -> & _). induction l as [|[k' v'] l IH]; simpl; [discriminate|].
  destruct (eqb k k'); [exact (fun H => H) | exact IH].
Qed.

Lemma appended_find {A} (P : A -> Prop) f x l l' :
  appended P l l' -> find f l = Some x -> find f l' = Some x.
Proof.
  intros (more & -> & _). induction l as [|y l IH]; simpl; [discriminate|].
  destruct (f y); [exact (fun H => H) | exact IH].
Qed.

Lemma extends_refl r : extends r r.
Proof. constructor; try apply appended_refl; auto. Qed.

Lemma extends_trans r1 r2 r3 : extends r1 r2 -> extends r2 r3 -> extends r1 r3.
Proof.
  intros [] []. constructor; try (eapply appended_trans; eassumption); auto.
  lia.
Qed.

Create HintDb registries.
#[local] Hint Resolve extends_refl appended_refl : registries.

Lemma assoc_set_absent {K V} (eqb : K -> K -> bool) k (v : V) l :
  assoc_get eqb k l = None -> assoc_set eqb k v l = l ++ [(k, v)].
Proof.
  unfold assoc_set. induction l as [|[k' v'] l IH]; simpl; [reflexivity|].
  destruct (eqb k k'); [discriminate|]. intros H. rewrite (IH H). reflexivity.
Qed.

Lemma assoc_get_in {K V} (eqb : K -> K -> bool) k (v : V) l :
  assoc_get eqb k l = Some v -> exists k', In (k', v) l /\ eqb k k' = true.
Proof.
  induction l as [|[k' v'] l IH]; simpl; [discriminate|].
  destruct (eqb k k') eqn:E.
  - intros H. injection H as ->. exists k'. split; [left; reflexivity | exact E].
  - intros H. destruct (IH H) as (k0 & Hin & Hk). exists k0. split; [right|]; assumption.
Qed.

Lemma grows_ret {A} (a : A) : grows (ret a).
Proof. intros r. apply extends_refl. Qed.

Lemma grows_throw {A} e : grows (@throw A e).
Proof. intros r. apply extends_refl. Qed.

Lemma grows_lift {A} (c : result A) : grows (lift c).
Proof. intros r. apply extends_refl. Qed.

Lemma grows_reading {A} (f : registry -> A) : grows (reading f).
Proof. intros r. apply extends_refl. Qed.

Lemma grows_fresh : grows fresh.
Proof. intros r. constructor; cbn; auto with registries. Qed.

Lemma grows_bind {A B} (c : M A) (f : A -> M B) :
  grows c -> (forall a, grows (f a)) -> grows (bindM c f).
Proof.
  intros Hc Hf r. unfold bindM. specialize (Hc r).
  destruct (c r) as [r' [a|e]]; cbn [fst] in *; [|exact Hc].
  exact (extends_trans _ _ _ Hc (Hf a r')).
Qed.

Lemma grows_mapM {A B} (f : A -> M B) l :
  (forall x, In x l -> grows (f x)) -> grows (mapM f l).
Proof.
  induction l as [|x l IH]; intros H; cbn [mapM].
  - apply grows_ret.
  - apply grows_bind; [apply H; left; reflexivity|]. intros y.
    apply grows_bind; [apply IH; intros z Hz; apply H; right; exact Hz|].
    intros ys. apply grows_ret.
Qed.

Lemma grows_eq {A} (c c' : M A) : (forall r, c r = c' r) -> grows c' -> grows c.
Proof. intros H Hc r. rewrite H. apply Hc. Qed.

Lemma grows_set_RecordOf_known f : grows (writing (set_RecordOf_known f)).
Proof. intros r. constructor; cbn; auto with registries. Qed.

Lemma grows_Type_getFor_function c : grows (Type_getFor_function c).
Proof.
  intros r. unfold Type_getFor_function, bindM, reading, ret, writing, fresh.
  destruct (assoc_get ctor_eqb c (Type_known r)) eqn:E; cbn [fst].
  - apply extends_refl.
  - constructor; cbn; auto with registries.
    rewrite (assoc_set_absent _ _ _ _ E). apply appended_one. eexists; reflexivity.
Qed.

Lemma grows_Primitive_getFor p : grows (Primitive_getFor p).
Proof.
  intros r. unfold Primitive_getFor, bindM, reading, ret, writing, fresh.
  destruct (assoc_get SameValueZero p (Primitive_known r)) eqn:E; cbn [fst].
  - apply extends_refl.
  - constructor; cbn; auto with registries.
    rewrite (assoc_set_absent _ _ _ _ E). apply appended_one. eexists; reflexivity.
Qed.

Lemma grows_Instance_getFor l p : grows (Instance_getFor l p).
Proof.
  intros r. unfold Instance_getFor, bindM, reading, ret, writing, fresh.
  destruct (assoc_get Nat.eqb l (Instance_known r)) eqn:E; cbn [fst].
  - apply extends_refl.
  - constructor; cbn; auto with registries.
    rewrite (assoc_set_absent _ _ _ _ E). apply appended_one. eexists _, _; reflexivity.
Qed.

(* ------------------------------------------------------------------ *)
(** *** The layered map of the tuples *)

Lemma marker_eqb_eq a b : marker_eqb a b = true <-> a = b.
Proof. destruct a, b; simpl; split; intros H; try discriminate; reflexivity. Qed.

(** Two primitives that are [===] are the same primitive. *)
Lemma prim_eqb_eq a b : prim_eqb a b = true -> a = b.
Proof.
  destruct a, b; simpl; intros H; try discriminate.
  - apply Bool.eqb_prop in H. congruence.
  - apply Z.eqb_eq in H. congruence.
  - apply String.eqb_eq in H. congruence.
  - apply Nat.eqb_eq in H. congruence.
  - apply andb_true_iff in H. destruct H as [H1 H2].
    apply Z.eqb_eq in H1. apply Pos.eqb_eq in H2. congruence.
  - apply Bool.eqb_prop in H. congruence.
Qed.

Lemma SameValueZero_eq a b : SameValueZero a b = true <-> a = b.
Proof.
  split.
  - intros H. destruct a, b; try discriminate; try reflexivity;
      apply prim_eqb_eq; exact H.
  - intros ->. apply SameValueZero_refl.
Qed.

Lemma ctor_eqb_eq a b : ctor_eqb a b = true <-> a = b.
Proof.
  destruct a, b; simpl; split; intros H; try discriminate.
  - apply Nat.eqb_eq in H. congruence.
  - injection H as ->. apply Nat.eqb_refl.
  - apply Nat.eqb_eq in H. congruence.
  - injection H as ->. apply Nat.eqb_refl.
Qed.

Lemma same_hint_eq a b : same_hint a b = true <-> hint_identity a = hint_identity b.
Proof.
  destruct a, b; simpl; split; intros H; try discriminate; try reflexivity;
    try (apply Nat.eqb_eq in H; congruence);
    try (injection H as ->; apply Nat.eqb_refl).
  - apply same_ty_eq in H. congruence.
  - injection H as H. apply same_ty_eq. exact H.
  - apply marker_eqb_eq in H. congruence.
  - injection H as ->. apply marker_eqb_eq. reflexivity.
  - apply SameValueZero_eq in H. congruence.
  - injection H as ->. apply SameValueZero_eq. reflexivity.
Qed.

Lemma same_hint_sym a b : same_hint a b = same_hint b a.
Proof.
  apply eq_true_iff_eq. rewrite !same_hint_eq. split; intros H; symmetry; exact H.
Qed.

Lemma same_hint_congr a b c : same_hint a b = true -> same_hint a c = same_hint b c.
Proof.
  intros H. apply eq_true_iff_eq. rewrite same_hint_eq in H. rewrite !same_hint_eq.
  rewrite H. reflexivity.
Qed.

Lemma assoc_get_same_hint {V} q p (l : list (hint * V)) :
  same_hint q p = true -> assoc_get same_hint q l = assoc_get same_hint p l.
Proof.
  intros H. induction l as [|[k v] l IH]; simpl; [reflexivity|].
  rewrite (same_hint_congr q p k H), IH. reflexivity.
Qed.

Lemma assoc_get_update_other {V} q p (g : option V -> V) l :
  same_hint q p = false ->
  assoc_get same_hint q (assoc_update same_hint p g l) = assoc_get same_hint q l.
Proof.
  intros H. induction l as [|[k v] l IH]; simpl.
  - rewrite H. reflexivity.
  - destruct (same_hint p k) eqn:E; simpl.
    + assert (Hq : same_hint q k = false).
      { rewrite (same_hint_sym q k), <- (same_hint_congr p k q E), (same_hint_sym p q).
        exact H. }
      rewrite Hq. reflexivity.
    + destruct (same_hint q k); [reflexivity | exact IH].
Qed.

Lemma tuple_known_empty q : tuple_known tm_empty q = None.
Proof. destruct q; reflexivity. Qed.

Lemma tuple_known_cons leaf children k q :
  tuple_known (TMap leaf children) (k :: q) =
  match assoc_get same_hint k children with
  | Some c => tuple_known c q
  | None => None
  end.
Proof. unfold tuple_known. simpl. destruct (assoc_get same_hint k children); reflexivity. Qed.

Lemma tuple_known_same_path : forall q p m,
  same_path q p = true -> tuple_known m q = tuple_known m p.
Proof.
  induction q as [|a q IH]; intros [|b p] [leaf children] H; try discriminate.
  - reflexivity.
  - simpl in H. apply andb_true_iff in H. destruct H as [Hab Hqp].
    rewrite !tuple_known_cons, (assoc_get_same_hint a b children Hab).
    destruct (assoc_get same_hint b children); [apply IH; exact Hqp | reflexivity].
Qed.

(** Creating the levels of a path registers nothing. *)
Lemma tuple_known_update_path : forall p q m,
  tuple_known (tm_update p (fun map => map) m) q = tuple_known m q.
Proof.
  induction p as [|k p IH]; intros q [leaf children]; [reflexivity|].
  cbn [tm_update]. destruct q as [|a q]; [reflexivity|].
  rewrite !tuple_known_cons.
  destruct (same_hint a k) eqn:E.
  - rewrite (assoc_get_same_hint a k _ E).
    rewrite assoc_get_update by apply same_hint_refl.
    rewrite (assoc_get_same_hint a k children E), IH.
    destruct (assoc_get same_hint k children); [reflexivity | apply tuple_known_empty].
  - rewrite assoc_get_update_other by exact E. reflexivity.
Qed.

(** Registering a descriptor under a path leaves the other paths alone. *)
Lemma tuple_known_update_other t : forall p q m,
  same_path q p = false ->
  tuple_known (tm_update p (fun map => let (_, children) := map in TMap (Some t) children) m) q
  = tuple_known m q.
Proof.
  induction p as [|k p IH]; intros q [leaf children] H.
  - destruct q as [|a q]; [discriminate|]. reflexivity.
  - cbn [tm_update]. destruct q as [|a q]; [reflexivity|].
    rewrite !tuple_known_cons. simpl in H.
    destruct (same_hint a k) eqn:E.
    + simpl in H. rewrite (assoc_get_same_hint a k _ E).
      rewrite assoc_get_update by apply same_hint_refl.
      rewrite (assoc_get_same_hint a k children E), (IH q _ H).
      destruct (assoc_get same_hint k children); [reflexivity | apply tuple_known_empty].
    + rewrite assoc_get_update_other by exact E. reflexivity.
Qed.

Lemma tuple_known_update_same t p m :
  tuple_known (tm_update p (fun map => let (_, children) := map in TMap (Some t) children) m) p
  = Some t.
Proof.
  unfold tuple_known. rewrite tm_walk_update.
  destruct (match tm_walk p m with Some c => c | None => tm_empty end); reflexivity.
Qed.

(* ------------------------------------------------------------------ *)
(** *** Every factory only adds to the registries *)

Lemma grows_TupleOf_getFor_with type1 types :
  (forall h, In h types -> grows (type1 h)) -> grows (TupleOf_getFor_with type1 types).
Proof.
  intros Htype r. unfold TupleOf_getFor_with.
  unfold bindM at 1. unfold reading at 1.
  fold (tuple_known (TupleOf_known r) types).
  destruct (tuple_known (TupleOf_known r) types) as [t|] eqn:K; [apply extends_refl|].
  unfold bindM at 1. unfold writing at 1.
  unfold bindM at 1. unfold fresh at 1.
  set (r2 := {| next_id := _ |}).
  assert (H2 : extends r r2).
  { constructor; cbn; auto with registries.
    intros path t Hp. rewrite tuple_known_update_path. exact Hp. }
  unfold bindM at 1.
  pose proof (grows_mapM type1 types Htype r2) as H3.
  destruct (mapM type1 types r2) as [r3 [ts|e]]; cbn [fst] in H3.
  - unfold bindM, writing, ret. cbn [fst].
    pose proof (extends_trans _ _ _ H2 H3) as H. destruct H.
    constructor; cbn; auto.
    intros path t Hp.
    rewrite tuple_known_update_other; [apply ext_TupleOf0; exact Hp|].
    destruct (same_path path types) eqn:E; [|reflexivity].
    rewrite (tuple_known_same_path path types _ E) in Hp. congruence.
  - cbn [fst]. exact (extends_trans _ _ _ H2 H3).
Qed.

Lemma grows_RecordOf_getFor_with type1 shape :
  (forall fields l plain x, shape = HObj l plain fields -> In x (map snd fields) ->
                            grows (type1 x)) ->
  grows (RecordOf_getFor_with type1 shape).
Proof.
  intros Htype. unfold RecordOf_getFor_with.
  destruct (negb (jstype_eqb (typeof_hint shape) TyObject) || _); [apply grows_throw|].
  apply grows_bind; [apply grows_reading|]. intros known.
  apply grows_bind; [apply grows_lift|]. intros [t|]; [apply grows_ret|].
  apply grows_bind; [apply grows_fresh|]. intros id.
  apply grows_bind.
  - destruct shape as [| | | | | |l plain fields| |];
      try apply grows_ret; try apply grows_throw.
    apply grows_mapM. intros key _.
    apply grows_bind; [|intros t; apply grows_ret].
    rewrite record_field_type_eq. unfold record_field_type.
    destruct (lookup key fields) as [x|] eqn:L; [|apply grows_ret].
    apply (Htype fields l plain x eq_refl).
    exact (proj2 (lookup_some_in _ _ _ L)).
  - intros types. apply grows_bind; [apply grows_set_RecordOf_known|].
    intros _. apply grows_ret.
Qed.

Lemma grows_Type_getFor h : grows (Type_getFor h).
Proof.
  induction h as [t| | |m|p|l items IH|l p fields IH|c|l h _] using hint_induction;
    cbn [Type_getFor];
    try apply grows_ret.
  - apply grows_Primitive_getFor.
  - apply grows_TupleOf_getFor_with. rewrite Forall_forall in IH. exact IH.
  - destruct (plain p); [|apply grows_Instance_getFor].
    apply grows_RecordOf_getFor_with.
    intros fields' l' p' x Heq Hin. injection Heq as <- <- <-.
    rewrite Forall_forall in IH.
    apply in_map_iff in Hin. destruct Hin as (e & <- & He). exact (IH e He).
  - apply grows_Type_getFor_function.
  - apply grows_Type_getFor_function.
Qed.

Lemma grows_OneOf_registered types : grows (OneOf_registered types).
Proof.
  intros r. unfold OneOf_registered, bindM, reading, ret, writing, fresh.
  destruct (find _ (OneOf_known r)) as [[key u]|]; cbn [fst].
  - apply extends_refl.
  - constructor; cbn; auto with registries.
    apply appended_one. eexists; reflexivity.
Qed.

Lemma OneOf_getFor_eq types r :
  OneOf_getFor types r =
  (members <~ mapM (fun t =>
                      match t with
                      | HType (OneOf _ subTypes) => ret subTypes
                      | _ => x <~ Type_getFor t ;; ret [x]
                      end) types ;;
   OneOf_of_set (ComparableSet (List.concat members))) r.
Proof.
  unfold OneOf_getFor, OneOf_of_set, OneOf_registered, bindM.
  destruct (mapM _ types r) as [r1 [members|e]]; [|reflexivity].
  destruct (ComparableSet (List.concat members)) as [|t [|t' rest]]; reflexivity.
Qed.

Lemma grows_OneOf_getFor types : grows (OneOf_getFor types).
Proof.
  eapply grows_eq; [apply OneOf_getFor_eq|].
  apply grows_bind.
  - apply grows_mapM. intros h _.
    assert (H : grows (x <~ Type_getFor h ;; ret [x])).
    { apply grows_bind; [apply grows_Type_getFor | intros x; apply grows_ret]. }
    destruct h as [t| | | | | | | |]; try exact H.
    destruct t; exact H.
  - intros members. unfold OneOf_of_set.
    destruct (ComparableSet (List.concat members)) as [|t [|t' rest]];
      try apply grows_OneOf_registered. apply grows_ret.
Qed.

Lemma grows_type hs : grows (type hs).
Proof.
  unfold type. destruct hs as [|h [|h' hs]].
  - apply grows_Type_getFor.
  - apply grows_Type_getFor.
  - apply grows_OneOf_getFor.
Qed.

Lemma grows_ArrayOf_registered t : grows (ArrayOf_registered t).
Proof.
  intros r. unfold ArrayOf_registered, bindM, reading, ret, writing, fresh.
  destruct (assoc_get same_ty t (ArrayOf_known r)) eqn:E; cbn [fst].
  - apply extends_refl.
  - constructor; cbn; auto with registries.
    rewrite (assoc_set_absent _ _ _ _ E). apply appended_one. eexists; reflexivity.
Qed.

Lemma grows_Nullable_registered t : grows (Nullable_registered t).
Proof.
  intros r. unfold Nullable_registered, bindM, reading, ret, writing, fresh.
  destruct (assoc_get same_ty t (Nullable_known r)) eqn:E; cbn [fst].
  - apply extends_refl.
  - constructor; cbn; auto with registries.
    rewrite (assoc_set_absent _ _ _ _ E). apply appended_one. eexists; reflexivity.
Qed.

Lemma grows_ArrayOf_getFor hs : grows (ArrayOf_getFor hs).
Proof.
  exact (grows_bind (type hs) ArrayOf_registered (grows_type hs) grows_ArrayOf_registered).
Qed.

Lemma grows_Nullable_getFor h : grows (Nullable_getFor h).
Proof.
  exact (grows_bind (type [match h with HUndefined => HNull | _ => h end])
           Nullable_registered (grows_type _) grows_Nullable_registered).
Qed.

Lemma grows_parse_overloads hs : forall finished current,
  grows (parse_overloads hs finished current).
Proof.
  induction hs as [|h hs IH]; intros finished current; cbn [parse_overloads].
  - apply grows_ret.
  - assert (H : grows (t <~ type [h] ;;
                       parse_overloads hs finished (fst current ++ [t], snd current))).
    { apply grows_bind; [apply grows_type | intros t; apply IH]. }
    destruct h as [| | | | | | | |l returns]; try exact H.
    apply grows_bind; [apply grows_type|]. intros t.
    destruct hs; [apply grows_ret | apply IH].
Qed.

Lemma grows_TypedFunction_getFor hs : grows (TypedFunction_getFor hs).
Proof.
  unfold TypedFunction_getFor. apply grows_bind; [apply grows_parse_overloads|].
  intros overloads r. unfold bindM, reading, ret, writing, fresh.
  match goal with |- context [find ?f (TypedFunction_known r)] =>
    destruct (find f (TypedFunction_known r)) as [[key t]|] end; cbn [fst].
  - apply extends_refl.
  - constructor; cbn; auto with registries.
    apply appended_one. eexists; reflexivity.
Qed.

Lemma grows_subtypeAt t index : grows (subtypeAt t index).
Proof.
  induction t as [b|id c|id p|id l|id ts IH|id t IH|id ts IH|id fs IH|id t IH|id ovs IH]
    using ty_induction; cbn [subtypeAt]; try apply grows_ret.
  - apply grows_bind.
    + apply grows_mapM. rewrite Forall_forall in IH. exact IH.
    + intros hs. apply grows_bind; [apply grows_type | intros u; apply grows_ret].
  - exact IH.
  - destruct ovs as [|o [|o' ovs]].
    + apply grows_bind; [apply grows_type | intros u; apply grows_ret].
    + destruct (is_return index); apply grows_ret.
    + apply grows_bind; [apply grows_type | intros u; apply grows_ret].
Qed.

Lemma after_call_extends c r : extends r (after_call c r).
Proof.
  destruct c; cbn [after_call].
  - apply grows_type.
  - apply grows_ArrayOf_getFor.
  - apply grows_TupleOf_getFor_with. intros h _. apply grows_Type_getFor.
  - apply grows_RecordOf_getFor_with. intros; apply grows_Type_getFor.
  - apply grows_Nullable_getFor.
  - apply grows_TypedFunction_getFor.
  - apply grows_subtypeAt.
Qed.

Lemma after_calls_extends cs : forall r, extends r (after_calls cs r).
Proof.
  unfold after_calls. induction cs as [|c cs IH]; intros r; simpl.
  - apply extends_refl.
  - exact (extends_trans _ _ _ (after_call_extends c r) (IH _)).
Qed.

(** X11. The registries of the factories only grow.  Whatever calls of
    [type], [oneOf], [arrayOf], [tupleOf], [recordOf], [_null], [func] and
    [subtypeAt] are made, with whatever hints, and whether they return or
    throw: the maps of the classes, primitive literals, instances, arrays
    and nullables, and the lists of the unions and function types, keep
    every entry they had, in place, and get new entries at their end, each
    mapping its key to a descriptor built from that key; a descriptor
    registered for a list of tuple hints stays registered for it; and the
    counter of the identities never goes back. *)
Theorem registries_only_grow cs r : extends r (after_calls cs r).
Proof. apply after_calls_extends. Qed.

(* ------------------------------------------------------------------ *)
(** ** What a factory has returned, it returns for ever *)

Lemma stable_ret t : stable (ret t).
Proof. intros r r1 t' H r2 _. injection H as <- <-. reflexivity. Qed.

Lemma stable_Type_getFor_function c : stable (Type_getFor_function c).
Proof.
  intros r r1 t H r2 E.
  assert (K : assoc_get ctor_eqb c (Type_known r1) = Some t).
  { revert H. unfold Type_getFor_function, bindM, reading, ret, writing, fresh.
    destruct (assoc_get ctor_eqb c (Type_known r)) eqn:G; intros H; injection H as <- <-.
    - exact G.
    - cbn. apply assoc_get_set, ctor_eqb_refl. }
  unfold Type_getFor_function, bindM, reading, ret.
  rewrite (appended_get _ _ _ _ _ _ (ext_Type _ _ E) K). reflexivity.
Qed.

Lemma stable_Primitive_getFor p : stable (Primitive_getFor p).
Proof.
  intros r r1 t H r2 E.
  assert (K : assoc_get SameValueZero p (Primitive_known r1) = Some t).
  { revert H. unfold Primitive_getFor, bindM, reading, ret, writing, fresh.
    destruct (assoc_get SameValueZero p (Primitive_known r)) eqn:G; intros H; injection H as <- <-.
    - exact G.
    - cbn. apply assoc_get_set, SameValueZero_refl. }
  unfold Primitive_getFor, bindM, reading, ret.
  rewrite (appended_get _ _ _ _ _ _ (ext_Primitive _ _ E) K). reflexivity.
Qed.

Lemma stable_Instance_getFor l p : stable (Instance_getFor l p).
Proof.
  intros r r1 t H r2 E.
  assert (K : assoc_get Nat.eqb l (Instance_known r1) = Some t).
  { revert H. unfold Instance_getFor, bindM, reading, ret, writing, fresh.
    destruct (assoc_get Nat.eqb l (Instance_known r)) eqn:G; intros H; injection H as <- <-.
    - exact G.
    - cbn. apply assoc_get_set, Nat.eqb_refl. }
  unfold Instance_getFor, bindM, reading, ret.
  pose proof (appended_get _ _ _ _ _ _ (ext_Instance _ _ E) K) as K2.
  unfold loc in K2. rewrite K2. reflexivity.
Qed.

Lemma stable_Type_getFor h : simple_hint h = true -> stable (Type_getFor h).
Proof.
  intros Hs. destruct h as [t| | |m|p|l items|l p fields|c|l h']; try discriminate;
    cbn [Type_getFor]; try apply stable_ret.
  - apply stable_Primitive_getFor.
  - cbn [simple_hint] in Hs. destruct (plain p); [discriminate|].
    apply stable_Instance_getFor.
  - apply stable_Type_getFor_function.
  - apply stable_Type_getFor_function.
Qed.

Lemma tupleOf_registered hints r r1 t :
  tupleOf hints r = (r1, Ok t) -> tuple_known (TupleOf_known r1) hints = Some t.
Proof.
  unfold tupleOf, TupleOf_getFor, TupleOf_getFor_with.
  unfold bindM at 1. unfold reading at 1.
  fold (tuple_known (TupleOf_known r) hints).
  destruct (tuple_known (TupleOf_known r) hints) as [t0|] eqn:W.
  - intros H. injection H as <- <-. exact W.
  - unfold bindM, writing, fresh, ret.
    destruct (mapM Type_getFor hints _) as [rc [ts|e]]; [|discriminate].
    intros H. injection H as <- <-.
    cbn [TupleOf_known set_TupleOf_known]. apply tuple_known_update_same.
Qed.

Lemma stable_tupleOf hints : stable (tupleOf hints).
Proof.
  intros r r1 t H r2 E.
  pose proof (ext_TupleOf _ _ E hints t (tupleOf_registered _ _ _ _ H)) as K.
  unfold tupleOf, TupleOf_getFor, TupleOf_getFor_with, bindM, reading.
  fold (tuple_known (TupleOf_known r2) hints). rewrite K. reflexivity.
Qed.

Lemma stable_ArrayOf_registered t : stable (ArrayOf_registered t).
Proof.
  intros r r1 a H r2 E.
  assert (K : assoc_get same_ty t (ArrayOf_known r1) = Some a).
  { revert H. unfold ArrayOf_registered, bindM, reading, ret, writing, fresh.
    destruct (assoc_get same_ty t (ArrayOf_known r)) eqn:G; intros H; injection H as <- <-.
    - exact G.
    - cbn. apply assoc_get_set, same_ty_refl. }
  unfold ArrayOf_registered, bindM, reading, ret.
  rewrite (appended_get _ _ _ _ _ _ (ext_ArrayOf _ _ E) K). reflexivity.
Qed.

Lemma stable_Nullable_registered t : stable (Nullable_registered t).
Proof.
  intros r r1 a H r2 E.
  assert (K : assoc_get same_ty t (Nullable_known r1) = Some a).
  { revert H. unfold Nullable_registered, bindM, reading, ret, writing, fresh.
    destruct (assoc_get same_ty t (Nullable_known r)) eqn:G; intros H; injection H as <- <-.
    - exact G.
    - cbn. apply assoc_get_set, same_ty_refl. }
  unfold Nullable_registered, bindM, reading, ret.
  rewrite (appended_get _ _ _ _ _ _ (ext_Nullable _ _ E) K). reflexivity.
Qed.

(** A stable call followed by a stable registration is stable. *)
Lemma stable_bind (c : M ty) (f : ty -> M ty) :
  stable c -> (forall t, stable (f t)) -> (forall t, grows (f t)) ->
  stable (bindM c f).
Proof.
  intros Hc Hf Hg r r1 u H r2 E. unfold bindM in H |- *.
  destruct (c r) as [r' [t|e]] eqn:C; [|discriminate].
  assert (E' : extends r' r1).
  { pose proof (Hg t r') as G. rewrite H in G. exact G. }
  rewrite (Hc r r' t C r2 (extends_trans _ _ _ E' E)).
  exact (Hf t r' r1 u H r2 E).
Qed.

Lemma stable_arrayOf hs : stable (type hs) -> stable (arrayOf hs).
Proof.
  intros H. exact (stable_bind (type hs) ArrayOf_registered H
                     stable_ArrayOf_registered grows_ArrayOf_registered).
Qed.

Lemma stable_null h : simple_hint h = true -> stable (_null h).
Proof.
  intros H.
  apply (stable_bind _ Nullable_registered);
    [|exact stable_Nullable_registered | exact grows_Nullable_registered].
  unfold type. apply stable_Type_getFor. destruct h; try discriminate; try exact H; reflexivity.
Qed.

Lemma equals_refl types : equals types types = true.
Proof.
  unfold equals. rewrite Nat.eqb_refl. apply forallb_forall. intros x Hx.
  apply existsb_exists. exists x. split; [exact Hx | apply same_ty_refl].
Qed.

Lemma stable_OneOf_of_set types : stable (OneOf_of_set types).
Proof.
  intros r r1 u H r2 E.
  destruct (Nat.eq_dec (List.length types) 1) as [H1|H1].
  - destruct types as [|t [|? ?]]; try discriminate.
    cbn in H |- *. injection H as <- <-. reflexivity.
  - rewrite (OneOf_of_set_many types r H1) in H.
    rewrite (OneOf_of_set_many types r2 H1).
    assert (K : exists key, find (fun e => equals types (fst e)) (OneOf_known r1)
                            = Some (key, u)).
    { revert H. unfold OneOf_registered, bindM, reading, ret, writing, fresh.
      destruct (find _ (OneOf_known r)) as [[key v]|] eqn:F; intros H;
        injection H as <- <-.
      - exists key. exact F.
      - exists types. cbn [OneOf_known set_OneOf_known].
        rewrite (find_app_none _ _ _ F). cbn [fst].
        rewrite equals_refl. reflexivity. }
    destruct K as [key K].
    unfold OneOf_registered, bindM, reading, ret.
    rewrite (appended_find _ _ _ _ _ (ext_OneOf _ _ E) K). reflexivity.
Qed.

(** X12. The descriptor of a hint that is not an array or object literal
    (a descriptor, [null], [undefined], a built-in constructor, a primitive
    literal, a class, an arrow function, an instance) is canonical for
    ever: once [type(h)] has returned a descriptor, every later call
    returns that very descriptor and registers nothing, whatever calls of
    the factories were made in between; and so do [arrayOf(h)] and
    [_null(h)]. *)
Theorem simple_hint_canonical_for_ever h cs :
  simple_hint h = true ->
  (forall r r1 t, type [h] r = (r1, Ok t) ->
                  type [h] (after_calls cs r1) = (after_calls cs r1, Ok t))
  /\ (forall r r1 a, arrayOf [h] r = (r1, Ok a) ->
                     arrayOf [h] (after_calls cs r1) = (after_calls cs r1, Ok a))
  /\ (forall r r1 n, _null h r = (r1, Ok n) ->
                     _null h (after_calls cs r1) = (after_calls cs r1, Ok n)).
Proof.
  intros Hs.
  assert (St : stable (type [h])) by (apply stable_Type_getFor; exact Hs).
  split; [|split].
  - intros r r1 t H. exact (St r r1 t H _ (after_calls_extends cs r1)).
  - intros r r1 a H.
    exact (stable_arrayOf [h] St r r1 a H _ (after_calls_extends cs r1)).
  - intros r r1 n H.
    exact (stable_null h Hs r r1 n H _ (after_calls_extends cs r1)).
Qed.

(** A use of X12: [type(5)], then other calls, then [type(5)] again. *)
Lemma simple_hint_canonical_for_ever_witness :
  let h := HPrim (PrNum 5) in
  let cs := [call_type [HPrim (PrNum 6)]; call_arrayOf [HPrim (PrNum 5)];
             call_recordOf (HObj 1 ProtoObject [(PName "a", HPrim (PrNum 7))])] in
  simple_hint h = true
  /\ type [h] initial = (fst (type [h] initial), Ok (Primitive 0 (PrNum 5)))
  /\ type [h] (after_calls cs (fst (type [h] initial)))
     = (after_calls cs (fst (type [h] initial)), Ok (Primitive 0 (PrNum 5))).
Proof.
  split; [reflexivity|]. split; [reflexivity|].
  apply (proj1 (simple_hint_canonical_for_ever (HPrim (PrNum 5))
                  [call_type [HPrim (PrNum 6)]; call_arrayOf [HPrim (PrNum 5)];
                   call_recordOf (HObj 1 ProtoObject [(PName "a", HPrim (PrNum 7))])]
                  eq_refl) initial).
  reflexivity.
Defined.

(** X13. A tuple is canonical for the hints it was asked with: once
    [tupleOf(...hints)] has returned a descriptor, every later call with
    the same hints (the same objects, for array and object literals)
    returns that very descriptor and registers nothing, whatever calls of
    the factories were made in between. *)
Theorem tupleOf_canonical_for_ever hints cs r r1 t :
  tupleOf hints r = (r1, Ok t) ->
  tupleOf hints (after_calls cs r1) = (after_calls cs r1, Ok t).
Proof.
  intros H. exact (stable_tupleOf hints r r1 t H _ (after_calls_extends cs r1)).
Qed.

(** A use of X13: [tupleOf(String, String, Number)], then other calls,
    then the same call again. *)
Lemma tupleOf_canonical_for_ever_witness :
  let hints := [HString; HString; HNumber] in
  let cs := [call_tupleOf [HString; HString]; call_tupleOf [HString; HString; HNumber; HNumber];
             call_type [HArray 1 [HString; HString; HString]]] in
  tupleOf hints initial
  = (fst (tupleOf hints initial), Ok (TupleOf 0 [Type_string; Type_string; Type_number]))
  /\ tupleOf hints (after_calls cs (fst (tupleOf hints initial)))
     = (after_calls cs (fst (tupleOf hints initial)),
        Ok (TupleOf 0 [Type_string; Type_string; Type_number])).
Proof.
  split; [reflexivity|].
  apply (tupleOf_canonical_for_ever [HString; HString; HNumber]
           [call_tupleOf [HString; HString];
            call_tupleOf [HString; HString; HNumber; HNumber];
            call_type [HArray 1 [HString; HString; HString]]] initial).
  reflexivity.
Defined.

(** X14. A union is canonical for ever: for hints that are descriptors,
    [null], [undefined] or built-in constructors, once [oneOf(...hs)] has
    returned a descriptor, every later call returns that very descriptor
    and registers nothing, whatever calls of the factories were made in
    between. *)
Theorem oneOf_canonical_for_ever hs ts cs r r1 u :
  map descriptor_of hs = map Some ts ->
  2 <= List.length hs ->
  oneOf hs r = (r1, Ok u) ->
  oneOf hs (after_calls cs r1) = (after_calls cs r1, Ok u).
Proof.
  intros Hts Hl. unfold oneOf. rewrite !type_several by exact Hl.
  rewrite !(OneOf_getFor_descriptors hs ts _ Hts). intros H.
  exact (stable_OneOf_of_set _ r r1 u H _ (after_calls_extends cs r1)).
Qed.

(** A use of X14: [oneOf(Number, String)], then other unions, then
    [oneOf(Number, String)] again. *)
Lemma oneOf_canonical_for_ever_witness :
  let hs := [HNumber; HString] in
  let cs := [call_type [HNumber; HNull]; call_type [HString; HNumber; HNull]] in
  map descriptor_of hs = map Some [Type_number; Type_string]
  /\ 2 <= List.length hs
  /\ oneOf hs initial = (fst (oneOf hs initial), Ok (OneOf 0 [Type_number; Type_string]))
  /\ oneOf hs (after_calls cs (fst (oneOf hs initial)))
     = (after_calls cs (fst (oneOf hs initial)), Ok (OneOf 0 [Type_number; Type_string])).
Proof.
  split; [reflexivity|]. split; [simpl; lia|]. split; [reflexivity|].
  apply (oneOf_canonical_for_ever [HNumber; HString] [Type_number; Type_string]
           [call_type [HNumber; HNull]; call_type [HString; HNumber; HNull]] initial).
  - reflexivity.
  - simpl; lia.
  - reflexivity.
Defined.

(* ------------------------------------------------------------------ *)
(** ** In a running program *)

Lemma reachable_after_calls cs : reachable (after_calls cs initial).
Proof. apply after_calls_extends. Qed.

Lemma same_ty_base b t : same_ty (Base b) t = true -> t = Base b.
Proof.
  intros H. apply same_ty_eq in H. destruct t; simpl in H; congruence.
Qed.

Lemma reachable_Primitive r p :
  reachable r -> exists r1 id, Primitive_getFor p r = (r1, Ok (Primitive id p)).
Proof.
  intros R. unfold Primitive_getFor, bindM, reading, ret, writing, fresh.
  destruct (assoc_get SameValueZero p (Primitive_known r)) as [t|] eqn:G.
  - destruct (assoc_get_in _ _ _ _ G) as (k & Hin & Hk).
    apply SameValueZero_eq in Hk. subst k.
    pose proof (appended_from_nil _ _ (ext_Primitive _ _ R)) as F.
    rewrite Forall_forall in F. destruct (F _ Hin) as [id Hid]. simpl in Hid. subst t.
    eexists _, _. reflexivity.
  - eexists _, _. reflexivity.
Qed.

Lemma reachable_function r c :
  reachable r -> exists r1 id, Type_getFor_function c r = (r1, Ok (InstanceOf id c)).
Proof.
  intros R. unfold Type_getFor_function, bindM, reading, ret, writing, fresh.
  destruct (assoc_get ctor_eqb c (Type_known r)) as [t|] eqn:G.
  - destruct (assoc_get_in _ _ _ _ G) as (k & Hin & Hk).
    apply ctor_eqb_eq in Hk. subst k.
    pose proof (appended_from_nil _ _ (ext_Type _ _ R)) as F.
    rewrite Forall_forall in F. destruct (F _ Hin) as [id Hid]. simpl in Hid. subst t.
    eexists _, _. reflexivity.
  - eexists _, _. reflexivity.
Qed.

Lemma reachable_Instance r l p :
  reachable r -> exists r1 id p', Instance_getFor l p r = (r1, Ok (Instance id l p')).
Proof.
  intros R. unfold Instance_getFor, bindM, reading, ret, writing, fresh.
  destruct (assoc_get Nat.eqb l (Instance_known r)) as [t|] eqn:G.
  - destruct (assoc_get_in _ _ _ _ G) as (k & Hin & Hk).
    apply Nat.eqb_eq in Hk. subst k.
    pose proof (appended_from_nil _ _ (ext_Instance _ _ R)) as F.
    rewrite Forall_forall in F. destruct (F _ Hin) as (id & p' & Hid).
    simpl in Hid. subst t.
    eexists _, _, _. reflexivity.
  - eexists _, _, _. reflexivity.
Qed.

Lemma reachable_ArrayOf r b :
  reachable r ->
  exists r1 id, ArrayOf_registered (Base b) r = (r1, Ok (ArrayOf id (Base b))).
Proof.
  intros R. unfold ArrayOf_registered, bindM, reading, ret, writing, fresh.
  destruct (assoc_get same_ty (Base b) (ArrayOf_known r)) as [t|] eqn:G.
  - destruct (assoc_get_in _ _ _ _ G) as (k & Hin & Hk).
    apply same_ty_base in Hk. subst k.
    pose proof (appended_from_nil _ _ (ext_ArrayOf _ _ R)) as F.
    rewrite Forall_forall in F. destruct (F _ Hin) as [id Hid]. simpl in Hid. subst t.
    eexists _, _. reflexivity.
  - eexists _, _. reflexivity.
Qed.

Lemma reachable_Nullable r b :
  reachable r ->
  exists r1 id, Nullable_registered (Base b) r = (r1, Ok (Nullable id (Base b))).
Proof.
  intros R. unfold Nullable_registered, bindM, reading, ret, writing, fresh.
  destruct (assoc_get same_ty (Base b) (Nullable_known r)) as [t|] eqn:G.
  - destruct (assoc_get_in _ _ _ _ G) as (k & Hin & Hk).
    apply same_ty_base in Hk. subst k.
    pose proof (appended_from_nil _ _ (ext_Nullable _ _ R)) as F.
    rewrite Forall_forall in F. destruct (F _ Hin) as [id Hid]. simpl in Hid. subst t.
    eexists _, _. reflexivity.
  - eexists _, _. reflexivity.
Qed.

(** X15. In every state that calls of the factories can lead to from the
    freshly loaded module, a factory returns a descriptor built from its
    hint: [type] of a primitive literal is a [Primitive] of that literal,
    which validates exactly the values [===] to the literal, that is the
    literal itself ([0] and [-0] being one number) and no other value, and
    none at all when the literal is [NaN]; [type] of a class is
    the descriptor whose check is [instanceof] that class; [type] of an
    object that is not plain is an [Instance] of that object; [arrayOf]
    and [_null] of a built-in constructor are the array and the nullable
    of its singleton.  And [type] of an arrow function, outside [func], is
    a descriptor whose check throws on every object, and answers false on
    the other values: [instanceof] needs a [prototype]. *)
Theorem descriptors_are_built_from_their_hints cs :
  let r := after_calls cs initial in
  (forall p, exists r1 id, type [HPrim p] r = (r1, Ok (Primitive id p)))
  /\ (forall id p v, isValid (Primitive id p) v = Ok true <-> v = VPrim p /\ p <> PrNaN)
  /\ (forall c, exists r1 id, type [HClass c] r = (r1, Ok (InstanceOf id (CClass c))))
  /\ (forall l p fields,
         plain p = false ->
         exists r1 id p', type [HObj l p fields] r = (r1, Ok (Instance id l p')))
  /\ (forall m, exists r1 id,
         arrayOf [HMarker m] r = (r1, Ok (ArrayOf id (marker_type m))))
  /\ (forall m, exists r1 id,
         _null (HMarker m) r = (r1, Ok (Nullable id (marker_type m))))
  /\ (forall l x, exists r1 id,
         type [HArrow l x] r = (r1, Ok (InstanceOf id (CArrow l))))
  /\ (forall id l v, isValid (InstanceOf id (CArrow l)) v
                     = if is_object v then Throw (Native InstanceofRhs) else Ok false).
Proof.
  intros r. pose proof (reachable_after_calls cs) as R. fold r in R.
  split; [|split; [|split; [|split; [|split; [|split; [|split]]]]]].
  - intros p. exact (reachable_Primitive r p R).
  - intros id p v. cbn [isValid]. split.
    + intros H. destruct v as [| |q| | | | |]; try discriminate.
      injection H as H. split.
      * apply prim_eqb_eq in H. congruence.
      * intros ->. discriminate.
    + intros [-> Hp]. rewrite (prim_eqb_refl p Hp). reflexivity.
  - intros c. exact (reachable_function r (CClass c) R).
  - intros l p fields Hp. unfold type. cbn [Type_getFor]. rewrite Hp.
    exact (reachable_Instance r l p R).
  - intros m. destruct m; exact (reachable_ArrayOf r _ R).
  - intros m. destruct m; exact (reachable_Nullable r _ R).
  - intros l x. exact (reachable_function r (CArrow l) R).
  - reflexivity.
Qed.

(* ------------------------------------------------------------------ *)
(** ** A function type without a return hint *)

Lemma parse_overloads_no_arrow : forall hs finished current r r' ovs,
  existsb is_arrow hs = false ->
  parse_overloads hs finished current r = (r', Ok ovs) ->
  exists ps, ovs = finished ++ [(ps, snd current)].
Proof.
  induction hs as [|h hs IH]; intros finished current r r' ovs Ha H;
    cbn [parse_overloads] in H.
  - injection H as <- <-. exists (fst current). destruct current; reflexivity.
  - simpl in Ha. apply orb_false_iff in Ha. destruct Ha as [Hh Ha].
    assert (H' : (t <~ type [h] ;;
                  parse_overloads hs finished (fst current ++ [t], snd current)) r
                 = (r', Ok ovs)).
    { destruct h; try discriminate; exact H. }
    unfold bindM in H'. destruct (type [h] r) as [r1 [t|e]]; [|discriminate].
    exact (IH _ _ _ _ _ Ha H').
Qed.

(** The overloads left after the arguments are overloads of the wrapper,
    and there is one left when there was one. *)
Lemma check_arguments_incl : forall args i ovs possible,
  check_arguments i args ovs = Ok possible ->
  incl possible ovs /\ (ovs <> [] -> possible <> []).
Proof.
  induction args as [|arg args IH]; intros i ovs possible H; cbn [check_arguments] in H.
  - injection H as <-. split; [apply incl_refl | exact (fun H => H)].
  - destruct (filter_r (param_valid i arg) ovs) as [kept|e] eqn:F; [|discriminate].
    cbn [bind] in H. destruct kept as [|o kept]; [discriminate|].
    destruct (IH _ _ _ H) as [Hi Hn]. split.
    + intros x Hx. exact (proj1 (filter_r_kept _ _ _ F x (Hi x Hx))).
    + intros _. apply Hn. discriminate.
Qed.

(** A wrapper all of whose overloads return [Type.null] never returns:
    when the arguments pass, it calls the function and then throws. *)
Lemma call_with_null_return call ovs this args :
  ovs <> [] -> Forall (fun o => returns o = Base BNull) ovs ->
  (forall v, outcome (TypedFunction_call call ovs this args) <> Ok v)
  /\ (forall v, calls (TypedFunction_call call ovs this args) = [(this, args)] ->
                call this args = Ok v ->
                outcome (TypedFunction_call call ovs this args) = Throw NullTypeError).
Proof.
  intros Hne Hnull. unfold TypedFunction_call.
  destruct (check_arguments 0 args ovs) as [possible|e] eqn:C; cbn [outcome calls].
  - destruct (check_arguments_incl _ _ _ _ C) as [Hi Hn]. specialize (Hn Hne).
    destruct possible as [|o possible]; [contradiction|].
    assert (Ho : returns o = Base BNull).
    { rewrite Forall_forall in Hnull. apply Hnull, Hi. left. reflexivity. }
    destruct (call this args) as [rv|e]; cbn [bind some]; rewrite ?Ho;
      cbn [isValid base_valid bind].
    + split; [intros v; discriminate | reflexivity].
    + split; [intros v; discriminate | intros v _ H; discriminate].
  - split; [intros v; discriminate | intros v H; discriminate].
Qed.

Lemma func_without_arrow hs r r' t :
  reachable r -> existsb is_arrow hs = false ->
  func hs r = (r', Ok t) ->
  exists id ps, t = TypedFunction id [(ps, Base BNull)].
Proof.
  intros R Ha. unfold func, TypedFunction_getFor. unfold bindM at 1.
  destruct (parse_overloads hs [] ([], Base BNull) r) as [r1 [ovs|e]] eqn:P; [|discriminate].
  destruct (parse_overloads_no_arrow _ _ _ _ _ _ Ha P) as [ps ->]. cbn [app snd].
  assert (R1 : reachable r1).
  { pose proof (grows_parse_overloads hs [] ([], Base BNull) r) as G. rewrite P in G.
    exact (extends_trans _ _ _ R G). }
  unfold bindM, reading, ret, writing, fresh.
  match goal with |- context [find ?f (TypedFunction_known r1)] =>
    destruct (find f (TypedFunction_known r1)) as [[key u]|] eqn:F end.
  - intros H. injection H as <- <-.
    apply find_some in F. destruct F as [Hin Hm]. cbn [fst] in Hm.
    apply andb_true_iff in Hm. destruct Hm as [Hlen Hall].
    pose proof (appended_from_nil _ _ (ext_TypedFunction _ _ R1)) as W.
    rewrite Forall_forall in W. destruct (W _ Hin) as [id Hid]. cbn [fst snd] in Hid.
    subst u. apply Nat.eqb_eq in Hlen.
    destruct key as [|[kps kret] [|? ?]]; try discriminate.
    cbn in Hall. rewrite andb_true_r, orb_false_r in Hall.
    unfold overload_matches in Hall. cbn [fst snd] in Hall.
    apply andb_true_iff in Hall. destruct Hall as [Hret _].
    rewrite same_ty_sym in Hret. apply same_ty_base in Hret. subst kret.
    eexists _, _. reflexivity.
  - intros H. injection H as <- <-. eexists _, _. reflexivity.
Qed.

(** X10. A function type needs its return hint.  [func] called with no
    arrow function among its hints builds, in a running program, a
    function type with one overload, whose return descriptor is
    [Type.null]; the function that [editValue] wraps with it never returns
    a value: it throws on its arguments, or it calls the wrapped function
    and then throws ["can't set value on a type null"] when the function
    has returned. *)
Theorem func_without_return_hint_never_returns cs hs r' t :
  existsb is_arrow hs = false ->
  func hs (after_calls cs initial) = (r', Ok t) ->
  exists id ps,
    t = TypedFunction id [(ps, Base BNull)]
    /\ forall call this args,
         (forall v, outcome (TypedFunction_call call [(ps, Base BNull)] this args) <> Ok v)
         /\ (forall v,
               calls (TypedFunction_call call [(ps, Base BNull)] this args) = [(this, args)] ->
               call this args = Ok v ->
               outcome (TypedFunction_call call [(ps, Base BNull)] this args)
               = Throw NullTypeError).
Proof.
  intros Ha H.
  destruct (func_without_arrow hs _ r' t (reachable_after_calls cs) Ha H) as (id & ps & ->).
  exists id, ps. split; [reflexivity|]. intros call this args.
  apply call_with_null_return; [discriminate|]. repeat constructor.
Qed.

(** A use of X10: [func(Number, Number)], after [func(_=>Number)]. *)
Lemma func_without_return_hint_never_returns_witness :
  let cs := [call_func [HArrow 1 HNumber]] in
  let hs := [HNumber; HNumber] in
  existsb is_arrow hs = false
  /\ func hs (after_calls cs initial)
     = (fst (func hs (after_calls cs initial)),
        Ok (TypedFunction 1 [([Type_number; Type_number], Base BNull)]))
  /\ exists id ps,
       TypedFunction 1 [([Type_number; Type_number], Base BNull)]
       = TypedFunction id [(ps, Base BNull)]
       /\ forall call this args,
            (forall v, outcome (TypedFunction_call call [(ps, Base BNull)] this args) <> Ok v)
            /\ (forall v,
                  calls (TypedFunction_call call [(ps, Base BNull)] this args)
                  = [(this, args)] ->
                  call this args = Ok v ->
                  outcome (TypedFunction_call call [(ps, Base BNull)] this args)
                  = Throw NullTypeError).
Proof.
  split; [reflexivity|]. split; [reflexivity|].
  apply (func_without_return_hint_never_returns
           [call_func [HArrow 1 HNumber]] [HNumber; HNumber]
           (fst (func [HNumber; HNumber] (after_calls [call_func [HArrow 1 HNumber]] initial))));
    reflexivity.
Defined.

(* ------------------------------------------------------------------ *)
(** ** What the validity checks of the collections decide *)

(** X16. An array descriptor validates a value exactly when the value is
    an array (or the proxy of one) and the element descriptor validates
    every element the array has.  Holes are not looked at, nor are the
    properties of the array that are not elements: an array of holes is
    valid for every array descriptor, that of [Type.null] included, whose
    check throws on every element. *)
Theorem array_validity id t v :
  (isValid (ArrayOf id t) v = Ok true <->
   isArray v = true
   /\ forall i x, element (elements v) i = Some x -> isValid t x = Ok true)
  /\ (isArray v = false -> isValid (ArrayOf id t) v = Ok false)
  /\ (forall n named, isValid (ArrayOf id t) (VArr (repeat None n) named) = Ok true).
Proof.
  split; [apply ArrayOf_isValid_true|]. split.
  - intros H. cbn [isValid]. rewrite H. reflexivity.
  - intros n named. apply ArrayOf_isValid_true. split; [reflexivity|].
    intros i x Hx. apply element_in in Hx. cbn [elements unproxy] in Hx.
    apply repeat_spec in Hx. discriminate.
Qed.

(** A use of X16: [arrayOf(Number)] on the object [{0: 1}], which is not
    an array. *)
Lemma array_validity_witness :
  isArray (js_object [(PIdx 0, VNum 1)]) = false
  /\ isValid (ArrayOf 0 Type_number) (js_object [(PIdx 0, VNum 1)]) = Ok false.
Proof.
  split; [reflexivity|].
  apply (proj1 (proj2 (array_validity 0 Type_number (js_object [(PIdx 0, VNum 1)])))).
  reflexivity.
Defined.

(** X17. A tuple descriptor validates a value exactly when the value is an
    array (or the proxy of one) and every element the array has, at
    whatever index, has a descriptor declared at that index that validates
    it.  Nothing is asked of the positions that the array does not have,
    be they holes or past its end. *)
Theorem tuple_validity id types v :
  isValid (TupleOf id types) v = Ok true <->
  isArray v = true
  /\ forall i x, element (elements v) i = Some x ->
                 exists t, nth_error types i = Some t /\ isValid t x = Ok true.
Proof.
  rewrite TupleOf_isValid_unfold. destruct (isArray v).
  - rewrite TupleOf_every_true. split; [intros H; split; [reflexivity | exact H]|].
    intros [_ H]. exact H.
  - split; [discriminate | intros [H _]; discriminate].
Qed.

(** X18. A record descriptor validates a value exactly when the value is
    an object other than an array and [null], and every key the object has,
    symbols included, is declared with a descriptor that validates the
    value at that key.  Nothing is asked of the declared keys that the
    object does not have; and on [null] the check throws. *)
Theorem record_validity id types v :
  (isValid (RecordOf id types) v = Ok true <->
   typeof v = TyObject /\ isArray v = false
   /\ exists props,
        own_props v = Some props
        /\ forall k, In k (own_keys props) ->
                     exists t, lookup k types = Some t /\ isValid t (get v k) = Ok true)
  /\ isValid (RecordOf id types) VNull = Throw (Native NullishToObject).
Proof.
  split; [|reflexivity].
  destruct (jstype_eqb (typeof v) TyObject && negb (isArray v)) eqn:O.
  - assert (Ht : typeof v = TyObject /\ isArray v = false).
    { apply andb_true_iff in O. destruct O as [O1 O2]. split.
      - destruct (typeof v); try discriminate; reflexivity.
      - destruct (isArray v); [discriminate | reflexivity]. }
    destruct (own_props v) as [props|] eqn:P.
    + rewrite (RecordOf_isValid_true id types v props O P). split.
      * intros H. destruct Ht. repeat split; try assumption. exists props. auto.
      * intros (_ & _ & props' & Hp & H). injection Hp as <-. exact H.
    + rewrite RecordOf_isValid_unfold, O, P. split; [discriminate|].
      intros (_ & _ & props' & Hp & _). discriminate.
  - rewrite RecordOf_isValid_unfold, O. split; [discriminate|].
    intros (Ht & Ha & _). rewrite Ht, Ha in O. discriminate.
Qed.
